(** * forty-two: the tournament driver

    A shallow embedding of [TournamentDriver] (team formation and bracket
    construction) and of [Game.start] (the advancement of winners through
    the bracket), with the properties of the design document checked
    against it. *)

From Stdlib Require Import ZArith Lia ZifyNat.
From stdpp Require Import base option list gmap strings.

Local Open Scope string_scope.
Local Open Scope nat_scope.
Local Open Scope list_scope.

(** ** Outcomes of a call

    A JavaScript call either returns or throws.  [OutOfFuel] is the
    model's own outcome for a loop or a call chain cut short; the
    theorems show it never arises on the inputs they speak about. *)

Inductive exn : Type :=
| AssertionError   (* [assert(x)] with a falsy [x] *)
| ExpectedError    (* [expected(x)] with an undefined [x] *)
| TypeError        (* a property read on [undefined] *)
| OutOfFuel.

Inductive result (A : Type) : Type :=
| Ok (a : A)
| Throw (e : exn).
Arguments Ok {A} a.
Arguments Throw {A} e.

#[global] Instance result_ret : MRet result := fun A a => Ok a.
#[global] Instance result_bind : MBind result := fun A B f r =>
  match r with
  | Ok a => f a
  | Throw e => Throw e
  end.

Definition or_throw {A} (e : exn) (o : option A) : result A :=
  match o with
  | Some a => Ok a
  | None => Throw e
  end.

(** JavaScript truthiness of a string: every string but the empty one. *)
Definition truthy (s : string) : bool := negb (String.eqb s "").

(** [assert(s)] on a value of type [string | undefined]. *)
Definition assert_defined (o : option string) : result string :=
  match o with
  | Some s => if truthy s then Ok s else Throw AssertionError
  | None => Throw AssertionError
  end.

Definition assert (b : bool) : result unit :=
  if b then Ok tt else Throw AssertionError.

(** ** Teams *)

Module Team.

(** A [Team] object is either the one object held by the static field
    [Team.bye] or an object made by [new Team(a, b)]; the code tells
    them apart by reference ([=== Team.bye]). *)
Inductive t : Type :=
| bye
| new (a b : string).

Definition users (x : t) : list string :=
  match x with
  | bye => [""; ""]
  | new a b => [a; b]
  end.

#[global] Instance eq_dec : EqDecision t.
Proof. solve_decision. Defined.

End Team.

(** ** Team formation: [TournamentDriver.pickTeams] *)

(** What [pickTeams] reads of the tournament descriptor. *)
Record Tournament : Type := {
  host : string;
  choosePartner : bool;
  signups : gmap string (option string)
}.

(** A JavaScript [Set] of strings: no duplicates, iterated in insertion
    order. *)
Module JsSet.

Definition has (x : string) (s : list string) : bool := bool_decide (x ∈ s).

Definition add (x : string) (s : list string) : list string :=
  if has x s then s else s ++ [x].

Definition delete (x : string) (s : list string) : list string :=
  filter (fun y => y ≠ x) s.

(** [new Set(iterable)] *)
Definition of_list (l : list string) : list string :=
  foldl (fun s x => add x s) [] l.

End JsSet.

(** A JavaScript [Map] with string keys, as its entries in iteration
    order; [get] reads the entry of a key. *)
Fixpoint map_get {V} (k : string) (m : list (string * V)) : option V :=
  match m with
  | [] => None
  | (k', v) :: m' => if String.eqb k' k then Some v else map_get k m'
  end.

Section PickTeams.

(** The tournament, and the three things [pickTeams] takes from
    outside: the order [_.shuffle] leaves the signup entries in, the
    names returned by the successive calls of [nextBotName], and the
    random integer [_.sample] draws.  The local [signups] is the [Map]
    made of the shuffled entries; their keys are distinct, so it is
    those entries in that order. *)
Variable t : Tournament.
Variable shuffled : list (string * option string).
Variable nextBotName : nat → string.
Variable rnd : nat.

(** [while (count > max) { max *= 2 }] *)
Fixpoint grow_max (fuel count max : nat) : nat :=
  match fuel with
  | O => max
  | S fuel' => if max <? count then grow_max fuel' count (max * 2) else max
  end.

(** The pool after the [if (this.t.host === 'bots')] block. *)
Definition fill_bots (rejects : list string) : list string :=
  if String.eqb (host t) "bots" then
    let count := length rejects in
    let max := grow_max count count 8 in
    foldl (fun rej i => JsSet.add (":bot:" +:+ nextBotName i) rej)
          rejects (seq 0 (max - count))
  else rejects.

(** One turn of [for (const [user, partner] of signups.entries())];
    the state is the pair of [teams] and [rejects]. *)
Definition match_partner (acc : list Team.t * list string)
    (entry : string * option string) : list Team.t * list string :=
  let '(teams, rejects) := acc in
  let '(user, partner) := entry in
  if negb (JsSet.has user rejects) then acc
  else match partner with
       | None => acc
       | Some partner =>
           if negb (truthy partner) then acc
           else if negb (JsSet.has partner rejects) then acc
           else if negb (bool_decide (map_get partner shuffled = Some (Some user)))
           then acc
           else (teams ++ [Team.new user partner],
                 JsSet.delete partner (JsSet.delete user rejects))
       end.

(** [_.sample(array)]: the element at a random index, [undefined] on
    an empty array. *)
Definition sample (array : list string) : option string :=
  match array with
  | [] => None
  | _ => array !! (rnd mod length array)
  end.

(** [while (left.length > 0)]: [left.pop()] takes the last element,
    so the loop walks the reversed array from its head. *)
Fixpoint pair_up (rev_left : list string) (teams : list Team.t)
    : result (list Team.t) :=
  match rev_left with
  | [] => Ok teams
  | [a] =>
      a ← assert_defined (Some a);
      b ← assert_defined None;
      Ok teams
  | a :: b :: rest =>
      a ← assert_defined (Some a);
      b ← assert_defined (Some b);
      pair_up rest (teams ++ [Team.new a b])
  end.

(** [rejects] as the partner walk finds it. *)
Definition pool : list string :=
  fill_bots (JsSet.of_list (shuffled.*1)).

(** [teams] and [rejects] after [if (this.t.choosePartner)]. *)
Definition matched : list Team.t * list string :=
  if choosePartner t then foldl match_partner ([], pool) shuffled
  else ([], pool).

Definition pickTeams : result (list Team.t * option string) :=
  let '(teams, rejects) := matched in
  '(dropped, rejects) ←
    (if negb (length rejects mod 2 =? 0) then
       dropped ← assert_defined (sample rejects);
       Ok (Some dropped, JsSet.delete dropped rejects)
     else Ok (None, rejects));
  _ ← assert (length rejects mod 2 =? 0);
  teams ← pair_up (rev rejects) teams;
  Ok (teams, dropped).

End PickTeams.

(** The user a team made by the partner walk is listed under. *)
Definition first_user (x : Team.t) : string :=
  match x with
  | Team.bye => ""
  | Team.new a _ => a
  end.


(** ** Games *)

(** A [Game] object.  Objects are shared by reference between the
    [games] map, the [rounds] arrays and the [previous_games] and
    [next_game] links; the model keeps every object in one store keyed
    by its [id] (the [games] map of the driver) and writes a reference
    to a game as that id. *)
Module Game.

Record t : Type := mk {
  id : Z;
  teams : list Team.t;
  round : Z;
  started : bool;
  finished : bool;
  col : Z;
  row : Z;
  previous_games : list Z;
  next_game : option Z
}.

(** [new Game(id, round)] *)
Definition new (id round : Z) : t :=
{| id := id; teams := []; round := round; started := false; finished := false;
   col := -1; row := -1; previous_games := []; next_game := None |}.

(** [game.teams.push(x)] *)
Definition push_team (x : Team.t) (g : t) : t :=
mk (id g) (teams g ++ [x]) (round g) (started g) (finished g) (col g) (row g)
   (previous_games g) (next_game g).

(** [game.started = true; game.finished = true] *)
Definition set_resolved (g : t) : t :=
mk (id g) (teams g) (round g) true true (col g) (row g)
   (previous_games g) (next_game g).

(** [game.col = c] *)
Definition set_col (c : Z) (g : t) : t :=
mk (id g) (teams g) (round g) (started g) (finished g) c (row g)
   (previous_games g) (next_game g).

(** [game.row = r] *)
Definition set_row (r : Z) (g : t) : t :=
mk (id g) (teams g) (round g) (started g) (finished g) (col g) r
   (previous_games g) (next_game g).

(** [game.previous_games.push(p)] *)
Definition push_previous (p : Z) (g : t) : t :=
mk (id g) (teams g) (round g) (started g) (finished g) (col g) (row g)
   (previous_games g ++ [p]) (next_game g).

(** [game.next_game = n] *)
Definition set_next (n : Z) (g : t) : t :=
mk (id g) (teams g) (round g) (started g) (finished g) (col g) (row g)
   (previous_games g) (Some n).

(** The getter [bye]: if the game has a bye, the other team.  The
    destructuring [[a, b] = this.teams] leaves [undefined] where the
    array is too short. *)
Definition bye (g : t) : option Team.t :=
let a := teams g !! 0 in
let b := teams g !! 1 in
if decide (a = Some Team.bye) then b
else if decide (b = Some Team.bye) then a
else None.

End Game.

(** ** Bracket construction: [TournamentDriver.createBracket] *)

(** The numbers of [createBracket] are integers far below [2 ^ 53],
    on which JavaScript arithmetic is exact; they are modelled in [Z].
    The two divisions, [game_count / 2] and [round_games /= 2], divide
    an even number wherever their result is used: only the last
    [round_games /= 2], whose result no turn of the loop reads, halves
    1. *)
Section CreateBracket.

Local Open Scope Z_scope.

(** [array[i]] for a JavaScript number [i]: [undefined] outside the
    array. *)
Definition at_index {A} (l : list A) (i : Z) : option A :=
if i <? 0 then None else l !! Z.to_nat i.

(** [for (let i = start; ...; i++) body], for a loop that runs [n]
    times; the state of the loop is threaded through the body. *)
Fixpoint for_loop {St} (n : nat) (i : Z) (body : Z → St → result St) (s : St)
  : result St :=
match n with
| O => Ok s
| S n' => s' ← body i s; for_loop n' (i + 1) body s'
end.

(** [while (team_count > (2 * game_count)) { game_count *= 2 }] *)
Fixpoint grow_game_count (fuel : nat) (team_count game_count : Z) : Z :=
match fuel with
| O => game_count
| S fuel' =>
    if team_count >? 2 * game_count
    then grow_game_count fuel' team_count (game_count * 2)
    else game_count
end.

(** The two containers [createBracket] fills. *)
Record Bracket : Type := {
  games : gmap Z Game.t;
  rounds : list (list Z)
}.

(** [rounds[k].push(game)] *)
Definition push_round (k game : Z) (rounds : list (list Z))
  : result (list (list Z)) :=
r ← or_throw TypeError (at_index rounds k);
Ok (<[Z.to_nat k := r ++ [game]]> rounds).

Variable teams : list Team.t.

Definition team_count : Z := Z.of_nat (length teams).

Definition game_count : Z := grow_game_count (length teams) team_count 2.

Definition byes : Z := game_count * 2 - team_count.

(** [Math.floor(Math.log2(game_count)) + 1]; [game_count] is a power
    of two, on which [Math.log2] is exact. *)
Definition round_count : Z := Z.log2 game_count + 1.

(** The inner function [populate_game]; it returns the new values of
    [byes], [top] and [bottom].  A read outside [teams] would push
    [undefined] onto the game, which [start] would later trip over; the
    model throws at the read. *)
Definition populate_game (index round byes top bottom : Z) (b : Bracket)
  : result (Bracket * (Z * Z * Z)) :=
r ← or_throw TypeError (at_index (rounds b) round);
game ← or_throw AssertionError (at_index r index);
first ← or_throw TypeError (at_index teams top);
let games1 := alter (Game.push_team first) game (games b) in
let top := top + 1 in
'(games2, byes, bottom) ←
  (if byes >? 0 then
     Ok (alter (fun g => Game.set_resolved (Game.push_team Team.bye g)) game games1,
         byes - 1, bottom)
   else
     second ← or_throw TypeError (at_index teams bottom);
     Ok (alter (Game.push_team second) game games1, byes, bottom - 1));
let games3 := alter (Game.set_row (index * 2)) game games2 in
Ok ({| games := games3; rounds := rounds b |}, (byes, top, bottom)).

(** One turn of [for (let i = 0; i < round_games; i++)]; the state of
    the loop is the bracket with [game_id]. *)
Definition link_game (game_count round_games round row i : Z)
    (acc : Bracket * Z) : result (Bracket * Z) :=
let '(b, game_id) := acc in
let col := 2 * (round - 1) in
let game := Game.new game_id round in
rounds1 ← push_round (round - 1) game_id (rounds b);
let games1 := <[game_id := game]> (games b) in
before ← or_throw TypeError (at_index rounds1 (round - 2));
previous1 ← or_throw TypeError (at_index before (i * 2));
previous2 ← or_throw TypeError (at_index before (i * 2 + 1));
let games2 :=
  alter (fun g => Game.push_previous previous2 (Game.push_previous previous1 g))
        game_id games1 in
let games3 := alter (Game.set_next game_id) previous1 games2 in
let games4 := alter (Game.set_next game_id) previous2 games3 in
let games5 :=
  alter (fun g => Game.set_row (row + (game_count / round_games) * i * 2)
                    (Game.set_col col g))
        game_id games4 in
Ok ({| games := games5; rounds := rounds1 |}, game_id + 1).

(** One turn of [for (let i = 0; i < game_count; i++)]. *)
Definition add_round1_game (i : Z) (b : Bracket) : result Bracket :=
let game := Game.new (i + 1) 1 in
rounds1 ← push_round 0 (Game.id game) (rounds b);
Ok {| games := <[Game.id game := game]> (games b); rounds := rounds1 |}.

(** One turn of [for (let i = 0; i < game_count / 2; i++)]; the state
    of the loop is the bracket with [byes], [top_team] and [bot_team]. *)
Definition populate_pair (i : Z) (acc : Bracket * (Z * Z * Z))
  : result (Bracket * (Z * Z * Z)) :=
let '(b, (byes, top_team, bot_team)) := acc in
let top_bracket := i in
'(b, (byes, top_team, bot_team)) ←
  populate_game top_bracket 0 byes top_team bot_team b;
let bot_bracket := game_count - (1 + i) in
populate_game bot_bracket 0 byes top_team bot_team b.

(** One turn of [for (let round = 2; round < round_count + 1; round++)];
    the state of the loop is the bracket with [round_games], [row] and
    [game_id]. *)
Definition build_round (round : Z) (acc : Bracket * (Z * Z * Z))
  : result (Bracket * (Z * Z * Z)) :=
let '(b, (round_games, row, game_id)) := acc in
'(b, game_id) ← for_loop (Z.to_nat round_games) 0
                  (link_game game_count round_games round row) (b, game_id);
Ok (b, (round_games / 2, row + 2 ^ (round - 1), game_id)).

Definition createBracket : result Bracket :=
if team_count <? 4 then Ok {| games := ∅; rounds := [] |}
else
  b ← for_loop (Z.to_nat round_count) 0
        (fun _ b => Ok {| games := games b; rounds := rounds b ++ [[]] |})
        {| games := ∅; rounds := [] |};
  b ← for_loop (Z.to_nat game_count) 0 add_round1_game b;
  '(b, _) ← for_loop (Z.to_nat (game_count / 2)) 0 populate_pair
              (b, (byes, 0, team_count - 1));
  '(b, _) ← for_loop (Z.to_nat (round_count + 1 - 2)) 2 build_round
              (b, (game_count / 2, 1, game_count + 1));
  Ok b.

End CreateBracket.

(** [get canceled()] *)
Definition canceled (b : Bracket) : bool := bool_decide (length (rounds b) = 0%nat).

(** ** Advancement: [Game.start] and the [gameOver] handler *)

(** A [GameRoom] made by [start]: the game whose call made it (the
    [this] of its handlers), the ids of the four seats of its table, and
    whether its [once('gameOver')] handler has fired and is gone.  The
    identity lookup [user(id)] belongs to another module; the model takes
    it to return the record of that same id. *)
Record GameRoom : Type := {
  room_game : Z;
  room_table : list string;
  room_over : bool
}.

(** What the driver emits; a room is named by its rank among the rooms
    made so far. *)
Inductive Event : Type :=
| announceBye (round : Z) (user : string)
| summonTable (round : Z) (room : nat)
| tournamentOver (winners : Team.t) (room : nat).

(** The objects a running tournament works on: the games, the rounds,
    the rooms made so far and the events emitted so far. *)
Record World : Type := {
  w_games : gmap Z Game.t;
  w_rounds : list (list Z);
  w_rooms : list GameRoom;
  w_emitted : list Event
}.

Definition world_of (b : Bracket) : World :=
{| w_games := games b; w_rounds := rounds b; w_rooms := []; w_emitted := [] |}.

Definition emit (e : Event) (w : World) : World :=
{| w_games := w_games w; w_rounds := w_rounds w; w_rooms := w_rooms w;
   w_emitted := w_emitted w ++ [e] |}.

(** [game.teams.push(x)] on the game with that id. *)
Definition push_into (game : Z) (x : Team.t) (w : World) : World :=
{| w_games := alter (Game.push_team x) game (w_games w); w_rounds := w_rounds w;
   w_rooms := w_rooms w; w_emitted := w_emitted w |}.

Definition add_room (r : GameRoom) (w : World) : World :=
{| w_games := w_games w; w_rounds := w_rounds w; w_rooms := w_rooms w ++ [r];
   w_emitted := w_emitted w |}.

Definition close_room (k : nat) (w : World) : World :=
{| w_games := w_games w; w_rounds := w_rounds w;
   w_rooms := alter (fun r => {| room_game := room_game r;
                                 room_table := room_table r;
                                 room_over := true |}) k (w_rooms w);
   w_emitted := w_emitted w |}.

Section Advance.

(** [GameRoom.isBot], of another module. *)
Variable isBot : string → bool.

(** [for (const user of bye.users) if (!GameRoom.isBot(user)) emit] *)
Definition announce (round : Z) (bye : Team.t) (w : World) : World :=
foldl (fun w user => if isBot user then w else emit (announceBye round user) w)
      w (Team.users bye).

(** The seats of the table: [teams[0].users[0]], [teams[1].users[0]],
    [teams[0].users[1]], [teams[1].users[1]]. *)
Definition table_of (a b : Team.t) : list string :=
match Team.users a, Team.users b with
| [a0; a1], [b0; b1] => [a0; b0; a1; b1]
| _, _ => []
end.

(** [Game.start].  JavaScript runs a handler to its end before the
    next one; a call of [start] is cut by its [await]s, but what it read
    before them, the two teams of its game, is not written by any other
    call, so the model runs it in one piece.  The code makes the room
    and emits [summonTable] after the [await]s, when events of other calls
    may have come between; the model does both at the call, so the place
    of a [summonTable] among the events of other calls is the model's
    own.  The recursion follows [next_game]; [fuel] bounds its depth. *)
Fixpoint start (fuel : nat) (id : Z) (w : World) : result World :=
match fuel with
| O => Throw OutOfFuel
| S fuel' =>
    this ← or_throw TypeError (w_games w !! id);
    match Game.bye this with
    | Some bye =>
        let w := announce (Game.round this) bye w in
        next_game ← or_throw ExpectedError (Game.next_game this);
        let w := push_into next_game bye w in
        start fuel' next_game w
    | None =>
        let teams := Game.teams this in
        if (length teams <? 2)%nat then Ok w
        else
          a ← or_throw TypeError (teams !! 0%nat);
          b ← or_throw TypeError (teams !! 1%nat);
          let room := {| room_game := id; room_table := table_of a b;
                         room_over := false |} in
          let w := add_room room w in
          Ok (emit (summonTable (Game.round this) (length (w_rooms w) - 1)) w)
    end
end.

(** The winners the [gameOver] handler makes of the two
    [winnerIndices]: [new Team(expected(table.table[a]).id,
    expected(table.table[b]).id)]. *)
Definition winners_of (room : GameRoom) (a b : Z) : result Team.t :=
wa ← or_throw ExpectedError (at_index (room_table room) a);
wb ← or_throw ExpectedError (at_index (room_table room) b);
Ok (Team.new wa wb).

(** The rest of the handler, once the winners are known. *)
Definition advance (fuel : nat) (k : nat) (room : GameRoom) (winners : Team.t)
    (w : World) : result World :=
this ← or_throw TypeError (w_games w !! room_game room);
match Game.next_game this with
| None => Ok (emit (tournamentOver winners k) w)
| Some next_game =>
    let w := push_into next_game winners w in
    start fuel next_game w
end.

(** The handler of [gameOver] of room [k], called with the two
    [winnerIndices].  It was registered with [once]: it is taken off
    before its first call, and later events of the room do nothing. *)
Definition gameOver (fuel : nat) (k : nat) (a b : Z) (w : World) : result World :=
room ← or_throw TypeError (w_rooms w !! k);
if room_over room then Ok w
else
  let w := close_room k w in
  winners ← winners_of room a b;
  advance fuel k room winners w.

(** The depth [start] can reach: one game in each round. *)
Definition depth (w : World) : nat := S (length (w_rounds w)).

(** [TournamentDriver.run] reads [rounds[0]], calls [start] on every
    game of the first round, in order, and awaits their promises
    together.  The model is of the read and of those calls, each taken as
    far as the room it makes or the team it hands on.  It is not of the
    promise [run] hands back: that one stays pending while a room down
    the bracket has yet to report, and rejects on a [gameError], which
    are both of the rooms. *)
Definition run (w : World) : result World :=
first ← or_throw TypeError (w_rounds w !! 0%nat);
foldl (fun r id => w ← r; start (depth w) id w) (Ok w) first.

(** Any call of [start] on a game of the bracket and any [gameOver]
    event of a room; a handler that throws on its winner indices leaves
    behind a room whose handler is gone. *)
Inductive step (w : World) : World → Prop :=
| step_start id w' :
    is_Some (w_games w !! id) → start (depth w) id w = Ok w' → step w w'
| step_gameOver k a b w' :
    gameOver (depth w) k a b w = Ok w' → step w w'
| step_gameOver_throws k a b room e :
    w_rooms w !! k = Some room → room_over room = false →
    winners_of room a b = Throw e → step w (close_room k w).

(** The driver's own calls: [run] starts the games of the first round
    that are still [pending], in order, and rooms report [gameOver]. *)
Inductive driven (pending : list Z) (w : World) : list Z → World → Prop :=
| driven_refl : driven pending w pending w
| driven_start id pending' w1 w' :
    driven pending w (id :: pending') w1 →
    start (depth w1) id w1 = Ok w' →
    driven pending w pending' w'
| driven_gameOver pending' w1 k a b w' :
    driven pending w pending' w1 →
    gameOver (depth w1) k a b w1 = Ok w' →
    driven pending w pending' w'
| driven_gameOver_throws pending' w1 k a b room e :
    driven pending w pending' w1 →
    w_rooms w1 !! k = Some room → room_over room = false →
    winners_of room a b = Throw e →
    driven pending w pending' (close_room k w1).

End Advance.

(** ** Vocabulary of the statements *)

(** The dropped player as a list of at most one user. *)
Definition dropped_list (dropped : option string) : list string :=
match dropped with
| Some d => [d]
| None => []
end.


(** Whether the entry of [a] comes before the entry of [b] in the
    entries [m]. *)
Fixpoint precedes {V} (a b : string) (m : list (string * V)) : bool :=
match m with
| [] => false
| (k, _) :: m' =>
    if String.eqb k b then false
    else if String.eqb k a then true
    else precedes a b m'
end.

(** The mutual team the walk discovers at an entry, told from the
    entries alone: the user named a partner, not the empty string, whose
    own entry names the user back, and the two were not teamed before, at
    the entry of the partner.  (They were when that entry comes first,
    unless the user is the empty string, which the walk does not take for
    a partner.) *)
Definition discovered (shuffled : list (string * option string))
    (entry : string * option string) : option Team.t :=
let '(user, partner) := entry in
match partner with
| Some partner =>
    if truthy partner
       && bool_decide (map_get partner shuffled = Some (Some user))
       && negb (truthy user && precedes partner user shuffled)
    then Some (Team.new user partner)
    else None
| None => None
end.

(** The mutual teams, in discovery order. *)
Definition mutual_teams (shuffled : list (string * option string))
  : list Team.t :=
omap (discovered shuffled) shuffled.

(** What is left of the pool once the users of the [mutual] teams and
    the [dropped] player are out, in the order of the pool. *)
Definition left_over (mutual : list Team.t) (dropped : option string)
    (pool : list string) : list string :=
filter (fun y => (y ∉ mutual ≫= Team.users) ∧ Some y ≠ dropped) pool.

Section WalkInvariant.

Context (t : Tournament) (shuffled : list (string * option string))
        (nextBotName : nat → string).

(** The teams and the pool of the walk after the entries [done_], in
    closed form. *)
Definition walked (done_ : list (string * option string))
  : list Team.t * list string :=
(omap (discovered shuffled) done_,
 filter (fun y => y ∉ omap (discovered shuffled) done_ ≫= Team.users)
        (pool t shuffled nextBotName)).

(** What holds of [teams] and [rejects] once the walk has gone
    through the entries [done_]. *)
Record walk_inv (done_ : list (string * option string))
       (teams : list Team.t) (rejects : list string) : Prop := {
  wi_nodup : NoDup rejects;
  wi_rejects : ∀ y,
      y ∈ rejects ↔ y ∈ pool t shuffled nextBotName ∧ y ∉ teams ≫= Team.users;
  wi_mutual : ∀ x, x ∈ teams → ∃ u p,
      x = Team.new u p ∧ (u, Some p) ∈ shuffled ∧ p ≠ "" ∧
      map_get p shuffled = Some (Some u) ∧
      u ∈ pool t shuffled nextBotName ∧ p ∈ pool t shuffled nextBotName;
  wi_order : first_user <$> teams `sublist_of` done_.*1;
  wi_complete : ∀ u p,
      (u, Some p) ∈ done_ → p ≠ "" → p ∈ pool t shuffled nextBotName →
      map_get p shuffled = Some (Some u) → u ∈ teams ≫= Team.users
}.

End WalkInvariant.

(** Bot names for the examples: [A], [B], [C], ... *)
Definition letter_names (i : nat) : string :=
String (Ascii.ascii_of_nat (65 + i)) "".

(** A tournament of five signups: [a] and [b] name each other, [c]
    names [a], [d] and [e] name nobody. *)
Definition five_signups : Tournament :=
{| host := "";
   choosePartner := true;
   signups := <["a" := Some "b"]> (<["b" := Some "a"]> (<["c" := Some "a"]>
              (<["d" := None]> (<["e" := None]> ∅)))) |}.

Definition five_shuffled : list (string * option string) :=
[("c", Some "a"); ("b", Some "a"); ("e", None); ("a", Some "b"); ("d", None)].


(** The shape of a bracket, in closed form. *)
Section Shape.

Local Open Scope Z_scope.

Context (teams : list Team.t).

(** The number of games of round [j], and the id of its first game. *)
Definition round_size (j : Z) : Z := 2 ^ (round_count teams - j).

Definition first_id (j : Z) : Z :=
2 * game_count teams - 2 * round_size j + 1.

(** The rank, among the calls of [populate_game], of the call that
    fills position [p] of round 1: positions are filled from both ends
    towards the middle. *)
Definition call_order (p : Z) : Z :=
if p <? game_count teams / 2 then 2 * p
else 2 * (game_count teams - 1 - p) + 1.

(** The two seats handed out by the call of rank [c]. *)
Definition second_seat (c : Z) : option Team.t :=
if c <? byes teams then Some Team.bye
else at_index teams (team_count teams - 1 - (c - byes teams)).

Definition seats (c : Z) : list Team.t :=
option_list (at_index teams c) ++ option_list (second_seat c).

(** The row offset of round [j]. *)
Definition base_row (j : Z) : Z := 2 ^ (j - 1) - 1.

(** The game at position [p] of round 1, filled by the call of rank
    [c]. *)
Definition filled_game (p c : Z) (next : option Z) : Game.t :=
{| Game.id := p + 1;
   Game.teams := seats c;
   Game.round := 1;
   Game.started := c <? byes teams;
   Game.finished := c <? byes teams;
   Game.col := -1;
   Game.row := p * 2;
   Game.previous_games := [];
   Game.next_game := next |}.

Definition round1_game (p : Z) (next : option Z) : Game.t :=
filled_game p (call_order p) next.

Definition later_game (j i : Z) (next : option Z) : Game.t :=
{| Game.id := first_id j + i;
   Game.teams := [];
   Game.round := j;
   Game.started := false;
   Game.finished := false;
   Game.col := 2 * (j - 1);
   Game.row := base_row j + (game_count teams / round_size j) * i * 2;
   Game.previous_games := [first_id (j - 1) + i * 2; first_id (j - 1) + (i * 2 + 1)];
   Game.next_game := next |}.

(** [built r n j i]: game [i] of round [j] exists once the rounds
    before [r] are complete and round [r] has [n] games. *)
Definition built (r n j i : Z) : bool :=
(j <? r) || ((j =? r) && (i <? n)).

Definition next_link (r n j i : Z) : option Z :=
if built r n (j + 1) (i / 2) then Some (first_id (j + 1) + i / 2) else None.

Definition expected_game (r n j i : Z) : Game.t :=
if j =? 1 then round1_game i (next_link r n j i)
else later_game j i (next_link r n j i).

(** The game at index [i] of round [j] in the finished bracket: the
    last round is complete with its single game. *)
Definition bracket_game (j i : Z) : Game.t :=
expected_game (round_count teams) 1 j i.

(** The ids held by [rounds[j - 1]] at that point of the construction. *)
Definition round_ids (r n j : Z) : list Z :=
if j <? r then seqZ (first_id j) (round_size j)
else if j =? r then seqZ (first_id r) n
else [].

Definition rounds_inv (r n : Z) (rs : list (list Z)) : Prop :=
length rs = Z.to_nat (round_count teams) ∧
∀ j, 1 ≤ j ≤ round_count teams → at_index rs (j - 1) = Some (round_ids r n j).

Definition store_inv (r n : Z) (gs : gmap Z Game.t) : Prop :=
(∀ j i, 1 ≤ j ≤ round_count teams → 0 ≤ i < round_size j →
        built r n j i = true →
        gs !! (first_id j + i) = Some (expected_game r n j i)) ∧
(∀ id, id < 1 ∨ first_id r + n ≤ id → gs !! id = None).

(** The state of the first round while it is being populated: after
    [n] turns of the loop, the [n] positions at either end are filled. *)
Definition populated (n p : Z) : bool :=
(p <? n) || (game_count teams - 1 - n <? p).

Definition round1_progress (n p : Z) : Game.t :=
if populated n p then round1_game p None else Game.new (p + 1) 1.

(** The values of [byes], [top_team] and [bot_team] before the call
    of rank [c]. *)
Definition cursors (c : Z) : Z * Z * Z :=
(Z.max 0 (byes teams - c), c, team_count teams - 1 - Z.max 0 (c - byes teams)).

End Shape.

(** The id of the game at index [i] of round [r]: [rounds[r - 1][i]]. *)
Definition game_at (b : Bracket) (r i : Z) : option Z :=
at_index (rounds b) (r - 1)%Z ≫= fun ids => at_index ids i.

(** No user of the examples is a bot. *)
Definition no_bots (user : string) : bool := false.

(** Teams for the examples: [(A, B)], [(C, D)], ... *)
Definition demo_teams (n : nat) : list Team.t :=
(fun i => Team.new (letter_names (2 * i)) (letter_names (2 * i + 1))) <$> seq 0 n.

(** The room [start] makes for a game, and the world with it. *)
Definition room_for (id : Z) (x : Game.t) : GameRoom :=
{| room_game := id;
   room_table := table_of (default Team.bye (Game.teams x !! 0%nat))
                          (default Team.bye (Game.teams x !! 1%nat));
   room_over := false |}.

Definition opened (id : Z) (x : Game.t) (w : World) : World :=
emit (summonTable (Game.round x) (length (w_rooms w ++ [room_for id x]) - 1))
     (add_room (room_for id x) w).

(** What [start] does to a game that has no bye: a room if it has its
    two teams, nothing otherwise. *)
Definition settle (id : Z) (w : World) : World :=
match w_games w !! id with
| Some x => if (length (Game.teams x) <? 2)%nat then w else opened id x w
| None => w
end.

(** What every state of a running tournament keeps of its bracket. *)
Section Soundness.

Local Open Scope Z_scope.

Context (teams : list Team.t).

(** A game with other teams. *)
Definition with_teams (ts : list Team.t) (x : Game.t) : Game.t :=
Game.mk (Game.id x) ts (Game.round x) (Game.started x) (Game.finished x)
        (Game.col x) (Game.row x) (Game.previous_games x) (Game.next_game x).

(** The rounds are as built; a game is as built but for its teams; the
    teams of a first-round game are as built, those of a later game are
    never [Team.bye]; a room belongs to a game of two teams or more, none
    of them [Team.bye], and has a table of four. *)
Record sound (w : World) : Prop := {
  sound_length : length (w_rounds w) = Z.to_nat (round_count teams);
  sound_rounds : ∀ j, 1 ≤ j ≤ round_count teams →
    at_index (w_rounds w) (j - 1) = Some (seqZ (first_id teams j) (round_size teams j));
  sound_games : ∀ j i, 1 ≤ j ≤ round_count teams → 0 ≤ i < round_size teams j →
    ∃ ts, w_games w !! (first_id teams j + i)
            = Some (with_teams ts (bracket_game teams j i)) ∧
          (j = 1 → ts = Game.teams (bracket_game teams 1 i)) ∧
          (2 ≤ j → Team.bye ∉ ts);
  sound_none : ∀ id, id < 1 ∨ 2 * game_count teams ≤ id → w_games w !! id = None;
  sound_rooms : ∀ room, room ∈ w_rooms w →
    ∃ game, w_games w !! room_game room = Some game ∧
            (Team.bye ∉ Game.teams game) ∧ (2 ≤ length (Game.teams game))%nat ∧
            length (room_table room) = 4%nat
}.

(** A game is resolved once its winners can have gone on: a game with
    a bye once [run] has started it, any other game once its room has
    reported [gameOver]. *)
Definition resolved (pending : list Z) (w : World) (p : Z) : Prop :=
(∃ x a, w_games w !! p = Some x ∧ Game.bye x = Some a ∧ p ∉ pending) ∨
(∃ room, room ∈ w_rooms w ∧ room_game room = p ∧ room_over room = true).

(** What the states of a driven tournament keep, [pending] being the
    first-round games [run] has yet to start: no two rooms belong to one
    game, no room belongs to a pending game, and a later game has
    received a team only from a resolved predecessor. *)
Record driven_inv (pending : list Z) (w : World) : Prop := {
  di_sound : sound w;
  di_nodup : NoDup pending;
  di_pending : ∀ p, p ∈ pending → 1 ≤ p ≤ game_count teams;
  di_rooms : NoDup (room_game <$> w_rooms w);
  di_waiting : ∀ room, room ∈ w_rooms w → room_game room ∉ pending;
  di_one : ∀ j i x, 2 ≤ j ≤ round_count teams → 0 ≤ i < round_size teams j →
    w_games w !! (first_id teams j + i) = Some x →
    (1 ≤ length (Game.teams x))%nat →
    resolved pending w (first_id teams (j - 1) + 2 * i) ∨
    resolved pending w (first_id teams (j - 1) + (2 * i + 1));
  di_two : ∀ j i x, 2 ≤ j ≤ round_count teams → 0 ≤ i < round_size teams j →
    w_games w !! (first_id teams j + i) = Some x →
    (2 ≤ length (Game.teams x))%nat →
    resolved pending w (first_id teams (j - 1) + 2 * i) ∧
    resolved pending w (first_id teams (j - 1) + (2 * i + 1))
}.

End Soundness.

(** ** The driver as a whole *)

(** [new TournamentDriver(t)]: the constructor forms the teams, then
    builds the bracket of them. *)
Module TournamentDriver.

Record t : Type := mk {
  teams : list Team.t;
  dropped : option string;
  bracket : Bracket
}.

Definition new (tournament : Tournament)
    (shuffled : list (string * option string))
    (nextBotName : nat → string) (rnd : nat) : result t :=
'(teams, dropped) ← pickTeams tournament shuffled nextBotName rnd;
bracket ← createBracket teams;
Ok (mk teams dropped bracket).

End TournamentDriver.

(** ** The earlier driver

    [src/server/server.ts] carries an earlier [TournamentDriver]: its
    [Game] tells a bye by the getter [hasBye], and its [pickTeams] has no
    bot fill. *)
Module V1.

(** [get hasBye()]: [this.teams.includes(Team.bye)]. *)
Definition hasBye (g : Game.t) : bool := bool_decide (Team.bye ∈ Game.teams g).

Section PickTeams.

Variable t : Tournament.
Variable shuffled : list (string * option string).
Variable rnd : nat.

(** [new Set(signups.keys())] *)
Definition rejects : list string := JsSet.of_list (shuffled.*1).

Definition matched : list Team.t * list string :=
if choosePartner t then foldl (match_partner shuffled) ([], rejects) shuffled
else ([], rejects).

Definition pickTeams : result (list Team.t * option string) :=
let '(teams, rejects) := matched in
'(dropped, rejects) ←
  (if negb (length rejects mod 2 =? 0) then
     dropped ← assert_defined (sample rnd rejects);
     Ok (Some dropped, JsSet.delete dropped rejects)
   else Ok (None, rejects));
_ ← assert (length rejects mod 2 =? 0);
teams ← pair_up (rev rejects) teams;
Ok (teams, dropped).

End PickTeams.

End V1.

(** The bot ids the fill adds to a pool of [count] users. *)
Definition bot_ids (nextBotName : nat → string) (count : nat) : list string :=
(fun i => ":bot:" +:+ nextBotName i) <$> seq 0 (grow_max count count 8 - count).

(** The teams seated in the games of round [r], in the order of the
    round. *)
Definition round_teams (b : Bracket) (r : Z) : list Team.t :=
default [] (at_index (rounds b) (r - 1)%Z) ≫= fun id =>
  default [] (Game.teams <$> games b !! id).

(** The room a [summonTable] event names, and whether an event is
    [tournamentOver]. *)
Definition summoned (e : Event) : option nat :=
match e with
| summonTable _ room => Some room
| _ => None
end.

Definition is_tournamentOver (e : Event) : bool :=
match e with
| tournamentOver _ _ => true
| _ => false
end.

(** A world of one game, for the examples. *)
Definition lone_game (x : Game.t) : World :=
{| w_games := {[Game.id x := x]}; w_rounds := [[Game.id x]];
   w_rooms := []; w_emitted := [] |}.

(** A tournament played: the bracket of [teams] is built, [run]
    starts the first round, and the rooms report [gameOver] as the
    [events] tell, each with the rank of its room and the two winner
    indices. *)
Definition played (teams : list Team.t) (events : list (nat * Z * Z))
  : result World :=
b ← createBracket teams;
w ← run no_bots (world_of b);
foldl (fun r '(k, wa, wb) => w ← r; gameOver no_bots (depth w) k wa wb w)
      (Ok w) events.

(** What the events emitted so far and the rooms made so far keep of
    each other in a running tournament: the [summonTable] events name the
    rooms in the order they were made, each with the round of the room's
    game; a room seats the first two teams of its game, crosswise; an
    [announceBye] event is of the first round and tells a user, not a
    bot, of one of the teams; a [tournamentOver] event names a room of the
    final whose handler is gone, with two users of its table for
    winners. *)
Section Events.

Local Open Scope Z_scope.

Context (isBot : string → bool) (teams : list Team.t).

Record events_inv (w : World) : Prop := {
  ev_summons : omap summoned (w_emitted w) = seq 0 (length (w_rooms w));
  ev_rounds : ∀ r k, summonTable r k ∈ w_emitted w →
    ∃ id x, (room_game <$> w_rooms w) !! k = Some id ∧
            w_games w !! id = Some x ∧ Game.round x = r;
  ev_tables : ∀ room, room ∈ w_rooms w →
    ∃ x a b, w_games w !! room_game room = Some x ∧
             Game.teams x !! 0%nat = Some a ∧ Game.teams x !! 1%nat = Some b ∧
             room_table room = table_of a b;
  ev_byes : ∀ r u, announceBye r u ∈ w_emitted w →
    r = 1 ∧ isBot u = false ∧ ∃ a, a ∈ teams ∧ u ∈ Team.users a;
  ev_over : ∀ winners k, tournamentOver winners k ∈ w_emitted w →
    ∃ room u v, w_rooms w !! k = Some room ∧
                room_game room = 2 * game_count teams - 1 ∧
                room_over room = true ∧
                winners = Team.new u v ∧
                u ∈ room_table room ∧ v ∈ room_table room
}.

End Events.

(** ** Registration: [Scheduler.register] *)
Module Scheduler.

(** What [register] reads of a [Tournament]: its flags, whether its
    [invitees] include a user, and whether its [signups()] have a user. *)
Record Tourney : Type := {
  signup_opened : bool;
  signup_closed : bool;
  started : bool;
  finished : bool;
  invitation : bool;
  invitees_include : string → bool;
  signups_has : string → bool
}.

(** What a call leaves behind: the row it writes to the [signups]
    table and the event it emits. *)
Inductive Effect : Type :=
| insert_signup (id : Z) (user : string) (partner : option string)
| registered (id : Z) (user partner : string).

(** [partner || null] *)
Definition or_null (partner : string) : option string :=
if truthy partner then Some partner else None.

Section Register.

(** [this.tourneys], and the answer of the database to the [SELECT]
    that looks for the row. *)
Variable tourneys : gmap Z Tourney.
Variable existing : bool.

(** One turn of [for (const other of this.tourneys.values())]; a
    [Tournament] object is held under its own id only, so [other === t]
    is the equality of the keys. *)
Definition check_other (id : Z) (user : string) (r : result unit)
    (entry : Z * Tourney) : result unit :=
_ ← r;
let '(key, other) := entry in
if (key =? id)%Z then Ok tt
else if signup_opened other && negb (started other) && negb (finished other)
     then (if signups_has other user then Throw AssertionError else Ok tt)
     else Ok tt.

(** [register(id, user, partner = '')]; it returns whether it wrote
    the row, with what it left behind. *)
Definition register (id : Z) (user : string) (partner : option string)
  : result (bool * list Effect) :=
let partner := default "" partner in
_ ← assert (truthy user);
t ← or_throw AssertionError (tourneys !! id);
_ ← assert (signup_opened t && negb (signup_closed t));
_ ← assert (negb (String.eqb user partner));
_ ← (if invitation t && negb (invitees_include t user)
     then Throw AssertionError else Ok tt);
_ ← foldl (check_other id user) (Ok tt) (map_to_list tourneys);
if existing then Ok (false, [])
else Ok (true, [insert_signup id user (or_null partner);
                registered id user partner]).

End Register.

(** A tournament whose signup is open, for the examples. *)
Definition open_tourney : Tourney :=
{| signup_opened := true; signup_closed := false; started := false;
   finished := false; invitation := false;
   invitees_include := fun _ => false; signups_has := fun _ => false |}.

End Scheduler.

(** What the states of a tournament keep of its players: the users of
    a team held by a game, and the winners a [tournamentOver] event
    names, are users of the teams the bracket was built of. *)
Section Players.

Context (teams : list Team.t).

Record players_inv (w : World) : Prop := {
  pl_games : ∀ id x t u,
    w_games w !! id = Some x → t ∈ Game.teams x → t ≠ Team.bye →
    u ∈ Team.users t → u ∈ teams ≫= Team.users;
  pl_winners : ∀ winners k u,
    tournamentOver winners k ∈ w_emitted w → u ∈ Team.users winners →
    u ∈ teams ≫= Team.users
}.

End Players.


(** ** Properties of team formation *)

(** *** Facts about the set and map models *)

Ltac Zify.zify_post_hook ::= Z.to_euclidean_division_equations.

#[local] Arguments Nat.modulo : simpl never.
#[local] Arguments Nat.div : simpl never.

Lemma truthy_spec s : truthy s = true ↔ s ≠ "".
Proof.
  unfold truthy. destruct (String.eqb_spec s ""); simpl; split; congruence.
Qed.

Lemma has_spec x s : JsSet.has x s = true ↔ x ∈ s.
Proof. unfold JsSet.has. apply bool_decide_eq_true. Qed.

Lemma elem_of_add y x s : y ∈ JsSet.add x s ↔ y = x ∨ y ∈ s.
Proof.
  unfold JsSet.add. destruct (JsSet.has x s) eqn:E.
  - apply has_spec in E. split; [by right|]. by intros [->|?].
  - rewrite elem_of_app, list_elem_of_singleton. tauto.
Qed.

Lemma NoDup_add x s : NoDup s → NoDup (JsSet.add x s).
Proof.
  intros Hs. unfold JsSet.add. destruct (JsSet.has x s) eqn:E; [done|].
  apply NoDup_app. split_and!; [done| |apply NoDup_singleton].
  intros y Hy ->%list_elem_of_singleton.
  apply has_spec in Hy. congruence.
Qed.

Lemma elem_of_delete y x s : y ∈ JsSet.delete x s ↔ y ≠ x ∧ y ∈ s.
Proof. unfold JsSet.delete. by rewrite list_elem_of_filter. Qed.

Lemma NoDup_delete x s : NoDup s → NoDup (JsSet.delete x s).
Proof. apply NoDup_filter. Qed.

Lemma delete_cons x y s :
  JsSet.delete x (y :: s) =
  if decide (y = x) then JsSet.delete x s else y :: JsSet.delete x s.
Proof.
  unfold JsSet.delete. destruct (decide (y = x)) as [->|Hne].
  - by rewrite filter_cons_False by naive_solver.
  - by rewrite filter_cons_True.
Qed.

Lemma delete_not_elem x s : x ∉ s → JsSet.delete x s = s.
Proof.
  induction s as [|y s IH]; [done|].
  rewrite not_elem_of_cons, delete_cons. intros [Hne Hs].
  rewrite decide_False by congruence. by rewrite IH.
Qed.

(** Deleting a member of a set takes exactly that member out. *)
Lemma delete_Permutation x s :
  NoDup s → x ∈ s → s ≡ₚ x :: JsSet.delete x s.
Proof.
  induction s as [|y s IH]; intros Hnd Hx.
  - by apply elem_of_nil in Hx.
  - apply NoDup_cons in Hnd as [Hy Hnd]. rewrite delete_cons.
    destruct (decide (y = x)) as [->|Hne].
    + by rewrite (delete_not_elem x s Hy).
    + apply elem_of_cons in Hx as [->|Hx]; [done|].
      rewrite (IH Hnd Hx) at 1. apply Permutation_swap.
Qed.

Lemma foldl_add_spec (l s : list string) :
  NoDup s →
  NoDup (foldl (fun s x => JsSet.add x s) s l) ∧
  ∀ y, y ∈ foldl (fun s x => JsSet.add x s) s l ↔ y ∈ s ∨ y ∈ l.
Proof.
  revert s. induction l as [|x l IH]; intros s Hs; simpl.
  - split; [done|]. intros y. rewrite elem_of_nil. tauto.
  - destruct (IH (JsSet.add x s) (NoDup_add x s Hs)) as [Hnd Hin].
    split; [done|]. intros y. rewrite Hin, elem_of_add, elem_of_cons. tauto.
Qed.

Lemma NoDup_of_list l : NoDup (JsSet.of_list l).
Proof. apply foldl_add_spec, NoDup_nil_2. Qed.

Lemma elem_of_of_list y l : y ∈ JsSet.of_list l ↔ y ∈ l.
Proof.
  unfold JsSet.of_list.
  destruct (foldl_add_spec l [] (NoDup_nil_2)) as [_ ->].
  rewrite elem_of_nil. tauto.
Qed.

(** A set built from a duplicate-free array is that array. *)
Lemma of_list_NoDup l : NoDup l → JsSet.of_list l = l.
Proof.
  unfold JsSet.of_list.
  enough (∀ s, NoDup (s ++ l) → foldl (fun s x => JsSet.add x s) s l = s ++ l)
    as H by (intros; by apply (H [])).
  induction l as [|x l IH]; intros s Hnd; simpl.
  - by rewrite app_nil_r.
  - assert (JsSet.add x s = s ++ [x]) as ->.
    { unfold JsSet.add. destruct (JsSet.has x s) eqn:E; [|done].
      apply has_spec in E. apply NoDup_app in Hnd as (_ & Hd & _).
      exfalso. apply (Hd x E). left. }
    rewrite IH; rewrite <- app_assoc; done.
Qed.

Lemma map_get_Some_elem {V} k (v : V) m : map_get k m = Some v → (k, v) ∈ m.
Proof.
  induction m as [|[k' v'] m IH]; simpl; [done|].
  destruct (String.eqb_spec k' k) as [->|].
  - intros [= ->]. left.
  - intros H. right. auto.
Qed.

Lemma map_get_NoDup {V} k (v : V) m :
  NoDup (m.*1) → (k, v) ∈ m → map_get k m = Some v.
Proof.
  induction m as [|[k' v'] m IH]; simpl; intros Hnd Hin.
  - by apply elem_of_nil in Hin.
  - apply NoDup_cons in Hnd as [Hk Hnd].
    apply elem_of_cons in Hin as [[= <- <-]|Hin].
    + by rewrite String.eqb_refl.
    + destruct (String.eqb_spec k' k) as [->|]; [|auto].
      exfalso. apply Hk. apply list_elem_of_fmap. by exists (k, v).
Qed.

(** *** The pool *)

(** The doubling loop leaves [max] at or above [count]: its fuel, the
    value of [count], is enough for the loop to reach its exit test. *)
Lemma grow_max_exit fuel count max :
  0 < max → count ≤ fuel + max → count ≤ grow_max fuel count max.
Proof.
  revert max. induction fuel as [|fuel IH]; intros max Hpos Hle; simpl; [lia|].
  destruct (Nat.ltb_spec max count); [|lia].
  apply IH; lia.
Qed.

Section PoolFacts.

Context (t : Tournament) (shuffled : list (string * option string))
        (nextBotName : nat → string).

Lemma fill_bots_spec rejects :
  NoDup rejects →
  NoDup (fill_bots t nextBotName rejects) ∧
  (∀ y, y ∈ rejects → y ∈ fill_bots t nextBotName rejects) ∧
  (∀ y, y ∈ fill_bots t nextBotName rejects →
        y ∈ rejects ∨ ∃ i, y = ":bot:" +:+ nextBotName i).
Proof.
  intros Hnd. unfold fill_bots. destruct (String.eqb (host t) "bots").
  2: { split_and!; auto. }
  generalize (seq 0 (grow_max (length rejects) (length rejects) 8 - length rejects)).
  intros l. revert rejects Hnd. induction l as [|i l IH]; intros rejects Hnd; simpl.
  - split_and!; auto.
  - destruct (IH _ (NoDup_add (":bot:" +:+ nextBotName i) rejects Hnd))
      as (H1 & H2 & H3).
    split_and!; [done| |].
    + intros y Hy. apply H2, elem_of_add. by right.
    + intros y Hy. apply H3 in Hy as [Hy|Hy]; [|by right].
      apply elem_of_add in Hy as [->|Hy]; eauto.
Qed.

Lemma NoDup_pool : NoDup (pool t shuffled nextBotName).
Proof. apply fill_bots_spec, NoDup_of_list. Qed.

Lemma elem_of_pool_key u : u ∈ shuffled.*1 → u ∈ pool t shuffled nextBotName.
Proof.
  intros Hu. apply fill_bots_spec; [apply NoDup_of_list|].
  by apply elem_of_of_list.
Qed.

Lemma elem_of_pool_inv y :
  y ∈ pool t shuffled nextBotName →
  y ∈ shuffled.*1 ∨ ∃ i, y = ":bot:" +:+ nextBotName i.
Proof.
  intros Hy. apply fill_bots_spec in Hy as [Hy|Hy]; [|by right|apply NoDup_of_list].
  left. by apply elem_of_of_list.
Qed.

(** Without the bot host the pool is the list of signed-up users. *)
Lemma pool_no_bots :
  host t ≠ "bots" → NoDup (shuffled.*1) →
  pool t shuffled nextBotName = shuffled.*1.
Proof.
  intros Hh Hnd. unfold pool, fill_bots.
  destruct (String.eqb_spec (host t) "bots"); [done|].
  by apply of_list_NoDup.
Qed.

End PoolFacts.

(** *** The pairing loop *)

Lemma pair_ind {A} (P : list A → Prop) :
  P [] → (∀ a, P [a]) → (∀ a b l, P l → P (a :: b :: l)) → ∀ l, P l.
Proof.
  intros H0 H1 H2.
  fix IH 1. intros [|a [|b l]]; [apply H0|apply H1|apply H2, IH].
Qed.

Lemma assert_defined_Some s : s ≠ "" → assert_defined (Some s) = Ok s.
Proof. intros H%truthy_spec. simpl. by rewrite H. Qed.

(** On an array of even length whose elements are all truthy, neither
    [assert(a)] nor [assert(b)] fails. *)
Lemma pair_up_total l teams :
  Nat.Even (length l) → Forall (fun s => s ≠ "") l →
  ∃ teams', pair_up l teams = Ok teams'.
Proof.
  revert teams. induction l as [| a | a b l IH] using pair_ind; intros teams Hev Hall.
  - by eexists.
  - destruct Hev as [k Hk]. simpl in Hk. lia.
  - apply Forall_cons in Hall as [Ha Hall]. apply Forall_cons in Hall as [Hb Hall].
    cbn [pair_up]. rewrite (assert_defined_Some a Ha), (assert_defined_Some b Hb).
    cbn. apply IH; [|done].
    destruct Hev as [k Hk]. exists (k - 1). simpl in Hk. lia.
Qed.

(** What the loop returns: the teams it was given, followed by teams
    that use every element of the array once. *)
Lemma pair_up_Ok l teams teams' :
  pair_up l teams = Ok teams' →
  ∃ rest, teams' = teams ++ rest ∧ rest ≫= Team.users ≡ₚ l.
Proof.
  revert teams. induction l as [| a | a b l IH] using pair_ind; intros teams.
  - intros [= <-]. exists []. by rewrite app_nil_r.
  - cbn. destruct (truthy a); done.
  - cbn [pair_up]. cbn. destruct (truthy a); [|done]. cbn.
    destruct (truthy b); [|done]. cbn.
    intros (rest & -> & Hp)%IH. exists (Team.new a b :: rest).
    rewrite <- app_assoc. split; [done|]. cbn. by rewrite Hp.
Qed.

(** *** The partner walk *)

Section Walk.

Context (t : Tournament) (shuffled : list (string * option string))
        (nextBotName : nat → string).

Local Abbreviation pool := (pool t shuffled nextBotName).

Local Abbreviation walk_inv := (walk_inv t shuffled nextBotName).

Lemma walk_inv_step done_ teams rejects entry :
  NoDup (shuffled.*1) → entry ∈ shuffled →
  walk_inv done_ teams rejects →
  walk_inv (done_ ++ [entry])
           (match_partner shuffled (teams, rejects) entry).1
           (match_partner shuffled (teams, rejects) entry).2.
Proof.
  intros Hkeys Hentry [Hnd Hrej Hmut Hord Hcomp]. destruct entry as [user partner].
  assert (Hupool : user ∈ pool).
  { apply elem_of_pool_key, list_elem_of_fmap. by exists (user, partner). }
  assert (Hord' : first_user <$> teams `sublist_of` (done_ ++ [(user, partner)]).*1).
  { rewrite fmap_app. by apply sublist_inserts_r. }
  (* the turns that leave the state as it is *)
  assert (Hskip : (∀ p, partner = Some p → p ≠ "" → p ∈ pool →
                     map_get p shuffled = Some (Some user) →
                     user ∈ teams ≫= Team.users) →
                  walk_inv (done_ ++ [(user, partner)]) teams rejects).
  { intros Hthis. split; try done.
    intros u p [Hin|Hin%list_elem_of_singleton]%elem_of_app; [by eauto|].
    injection Hin as -> Hin. by apply Hthis. }
  unfold match_partner.
  destruct (JsSet.has user rejects) eqn:Hu; simpl.
  2: { apply Hskip. intros p _ _ _ _.
       destruct (decide (user ∈ teams ≫= Team.users)) as [|Hn]; [done|].
       assert (user ∈ rejects) as Hin%has_spec by by apply Hrej.
       congruence. }
  apply has_spec in Hu.
  destruct partner as [partner|]; [|by apply Hskip].
  destruct (truthy partner) eqn:Ht; simpl.
  2: { apply Hskip. intros p [= <-] Hp%truthy_spec. congruence. }
  apply truthy_spec in Ht.
  destruct (JsSet.has partner rejects) eqn:Hp; simpl.
  2: { apply Hskip. intros p [= <-] _ Hppool Hget. exfalso.
       (* the partner is on a team already, and that team holds [user] *)
       assert (partner ∈ teams ≫= Team.users) as Hpt.
       { destruct (decide (partner ∈ teams ≫= Team.users)) as [|Hn]; [done|].
         assert (partner ∈ rejects) as Hin%has_spec by by apply Hrej.
         congruence. }
       apply list_elem_of_bind in Hpt as (x & Hpx & Hx).
       destruct (Hmut x Hx) as (a & b & -> & Hab & Hb & Hba & _).
       assert (user ∈ teams ≫= Team.users) as Hut.
       { apply list_elem_of_bind. exists (Team.new a b). split; [|done].
         simpl in Hpx. apply elem_of_cons in Hpx as [->|Hpx].
         - apply (map_get_NoDup _ _ _ Hkeys) in Hab.
           rewrite Hab in Hget. injection Hget as ->. right. left.
         - apply list_elem_of_singleton in Hpx as ->.
           rewrite Hba in Hget. injection Hget as ->. left. }
       apply Hrej in Hu as [_ Hu]. by apply Hu. }
  apply has_spec in Hp.
  destruct (bool_decide _) eqn:Hg; simpl; [apply bool_decide_eq_true in Hg|].
  2: { apply Hskip. intros p [= <-] _ _ Hget.
       apply bool_decide_eq_false in Hg. congruence. }
  (* a match *)
  assert (Hppool : partner ∈ pool) by by apply Hrej.
  split.
  - by do 2 apply NoDup_delete.
  - intros y. rewrite !elem_of_delete, Hrej, bind_app, elem_of_app. simpl.
    rewrite !elem_of_cons, elem_of_nil. tauto.
  - intros x [Hx|Hx%list_elem_of_singleton]%elem_of_app; [by apply Hmut|].
    exists user, partner. by split_and!.
  - rewrite !fmap_app. simpl. by apply sublist_app.
  - intros u p [Hin|Hin%list_elem_of_singleton]%elem_of_app Hpne Hpp Hget.
    + rewrite bind_app, elem_of_app. left. by eapply Hcomp.
    + injection Hin as -> _. rewrite bind_app, elem_of_app. right. left.
Qed.

Lemma walk_inv_foldl done_ todo teams rejects :
  NoDup (shuffled.*1) → todo ⊆ shuffled →
  walk_inv done_ teams rejects →
  walk_inv (done_ ++ todo)
           (foldl (match_partner shuffled) (teams, rejects) todo).1
           (foldl (match_partner shuffled) (teams, rejects) todo).2.
Proof.
  intros Hkeys. revert done_ teams rejects.
  induction todo as [|e todo IH]; intros done_ teams rejects Hsub Hinv; cbn [foldl].
  - by rewrite app_nil_r.
  - rewrite (assoc_L (++) done_ [e] todo : done_ ++ e :: todo = (done_ ++ [e]) ++ todo).
    pose proof (walk_inv_step done_ teams rejects e Hkeys) as Hstep.
    destruct (match_partner shuffled (teams, rejects) e) as [teams' rejects'].
    apply IH; [set_solver|]. apply Hstep; [set_solver|done].
Qed.

Lemma walk_inv_init : walk_inv [] [] pool.
Proof.
  split.
  - apply NoDup_pool.
  - intros y. simpl. rewrite elem_of_nil. tauto.
  - intros x Hx. by apply elem_of_nil in Hx.
  - done.
  - intros u p Hin. by apply elem_of_nil in Hin.
Qed.

(** The state the walk ends in, when partners are honoured. *)
Lemma matched_walk_inv :
  choosePartner t = true → NoDup (shuffled.*1) →
  walk_inv shuffled (matched t shuffled nextBotName).1
                    (matched t shuffled nextBotName).2.
Proof.
  intros Hc Hkeys. unfold matched. rewrite Hc.
  apply (walk_inv_foldl [] shuffled [] pool Hkeys); [done|apply walk_inv_init].
Qed.

End Walk.

Section WalkPartition.

Context (shuffled : list (string * option string)).

(** The walk only ever takes members out of the pool. *)
Lemma walk_rejects todo teams rejects :
  NoDup rejects →
  NoDup (foldl (match_partner shuffled) (teams, rejects) todo).2 ∧
  (foldl (match_partner shuffled) (teams, rejects) todo).2 ⊆ rejects.
Proof.
  revert teams rejects.
  induction todo as [|[user partner] todo IH]; intros teams rejects Hnd; cbn [foldl].
  - done.
  - assert (Hsame := IH teams rejects Hnd).
    unfold match_partner at 2 4.
    destruct (negb (JsSet.has user rejects)); [done|].
    destruct partner as [partner|]; [|done].
    destruct (negb (truthy partner)); [done|].
    destruct (negb (JsSet.has partner rejects)); [done|].
    destruct (negb (bool_decide _)); [done|].
    destruct (IH (teams ++ [Team.new user partner])
                 (JsSet.delete partner (JsSet.delete user rejects))) as [H1 H2].
    { by do 2 apply NoDup_delete. }
    split; [done|]. intros y Hy%H2.
    by apply elem_of_delete in Hy as [_ [_ Hy]%elem_of_delete].
Qed.

(** When nobody names themselves, the walk moves users from the pool
    onto teams without losing or doubling anyone. *)
Lemma walk_partition todo teams rejects :
  (∀ u, (u, Some u) ∉ todo) → NoDup rejects →
  ((foldl (match_partner shuffled) (teams, rejects) todo).1 ≫= Team.users)
    ++ (foldl (match_partner shuffled) (teams, rejects) todo).2
  ≡ₚ (teams ≫= Team.users) ++ rejects.
Proof.
  revert teams rejects.
  induction todo as [|[user partner] todo IH]; intros teams rejects Hself Hnd;
    cbn [foldl]; [done|].
  assert (Hself' : ∀ u, (u, Some u) ∉ todo).
  { intros u Hu. apply (Hself u). by right. }
  assert (Hsame := IH teams rejects Hself' Hnd).
  unfold match_partner at 2 4.
  destruct (JsSet.has user rejects) eqn:Hu; [|done]. cbn [negb].
  destruct partner as [partner|]; [|done].
  destruct (negb (truthy partner)); [done|].
  destruct (JsSet.has partner rejects) eqn:Hp; [|done]. cbn [negb].
  destruct (negb (bool_decide _)); [done|].
  apply has_spec in Hu, Hp.
  assert (user ≠ partner) as Hne.
  { intros ->. apply (Hself partner). left. }
  rewrite IH by (done || by do 2 apply NoDup_delete).
  rewrite bind_app, <- app_assoc. apply Permutation_app_head. cbn.
  rewrite (delete_Permutation user rejects Hnd Hu) at 2.
  rewrite (delete_Permutation partner (JsSet.delete user rejects)) at 2;
    [done|by apply NoDup_delete|].
  apply elem_of_delete. by split.
Qed.

End WalkPartition.

Lemma matched_rejects t shuffled nextBotName :
  NoDup (matched t shuffled nextBotName).2 ∧
  (matched t shuffled nextBotName).2 ⊆ pool t shuffled nextBotName.
Proof.
  unfold matched. destruct (choosePartner t).
  - apply walk_rejects, NoDup_pool.
  - split; [apply NoDup_pool|done].
Qed.

Lemma matched_partition t shuffled nextBotName :
  (∀ u, (u, Some u) ∉ shuffled) →
  ((matched t shuffled nextBotName).1 ≫= Team.users)
    ++ (matched t shuffled nextBotName).2
  ≡ₚ pool t shuffled nextBotName.
Proof.
  intros Hself. unfold matched. destruct (choosePartner t); [|done].
  rewrite walk_partition; [done|done|apply NoDup_pool].
Qed.

(** *** The shuffled entries of a signup map *)

Lemma shuffled_keys_NoDup (m : gmap string (option string)) shuffled :
  shuffled ≡ₚ map_to_list m → NoDup (shuffled.*1).
Proof. intros ->. apply NoDup_fst_map_to_list. Qed.

Lemma shuffled_elem (m : gmap string (option string)) shuffled u p :
  shuffled ≡ₚ map_to_list m → (u, p) ∈ shuffled ↔ m !! u = Some p.
Proof. intros ->. apply elem_of_map_to_list. Qed.

Lemma shuffled_get (m : gmap string (option string)) shuffled u :
  shuffled ≡ₚ map_to_list m → map_get u shuffled = m !! u.
Proof.
  intros Hs. destruct (m !! u) as [p|] eqn:E.
  - apply map_get_NoDup; [by eapply shuffled_keys_NoDup|].
    by apply (shuffled_elem m).
  - destruct (map_get u shuffled) as [p|] eqn:G; [|done].
    apply map_get_Some_elem, (shuffled_elem m) in G; [congruence|done].
Qed.

(** *** The drop step *)

Lemma sample_elem rnd array :
  array ≠ [] → ∃ d, sample rnd array = Some d ∧ d ∈ array.
Proof.
  intros Hne. unfold sample. destruct array as [|a array]; [done|].
  destruct (lookup_lt_is_Some_2 (a :: array) (rnd mod length (a :: array))) as [d Hd].
  { apply Nat.mod_upper_bound. simpl. lia. }
  exists d. split; [done|]. by eapply list_elem_of_lookup_2.
Qed.

Lemma length_delete d rejects :
  NoDup rejects → d ∈ rejects →
  length rejects = S (length (JsSet.delete d rejects)).
Proof. intros Hnd Hd. by rewrite (delete_Permutation d rejects Hnd Hd) at 1. Qed.

(** *** Properties of [pickTeams] *)

(** What [pickTeams] returns, from the state the partner walk ends in:
    the teams of the walk, then teams made of what is left of the pool
    once the dropped player is out. *)
Lemma pickTeams_Ok t shuffled nextBotName rnd teams dropped :
  pickTeams t shuffled nextBotName rnd = Ok (teams, dropped) →
  ∃ rest, teams = (matched t shuffled nextBotName).1 ++ rest ∧
    dropped_list dropped ++ (rest ≫= Team.users)
      ≡ₚ (matched t shuffled nextBotName).2.
Proof.
  unfold pickTeams.
  destruct (matched_rejects t shuffled nextBotName) as [Hnd _].
  destruct (matched t shuffled nextBotName) as [mutual rejects]. cbn [fst snd] in *.
  destruct (length rejects mod 2 =? 0) eqn:Hpar; cbn.
  - rewrite Hpar. cbn.
    destruct (pair_up (rev rejects) mutual) as [teams'|] eqn:Hpair; [|done].
    cbn. intros [= <- <-]. apply pair_up_Ok in Hpair as (rest & -> & Hrest).
    exists rest. split; [done|]. cbn. by rewrite Hrest, <- Permutation_rev.
  - destruct (sample rnd rejects) as [d|] eqn:Hd; [|done]. cbn.
    destruct (truthy d); [|done]. cbn.
    destruct (length (JsSet.delete d rejects) mod 2 =? 0); [|done]. cbn.
    destruct (pair_up (rev (JsSet.delete d rejects)) mutual) as [teams'|] eqn:Hpair;
      [|done].
    cbn. intros [= <- <-]. apply pair_up_Ok in Hpair as (rest & -> & Hrest).
    exists rest. split; [done|]. cbn.
    rewrite Hrest, <- Permutation_rev. symmetry. apply delete_Permutation; [done|].
    unfold sample in Hd. destruct rejects; [done|]. by eapply list_elem_of_lookup_2.
Qed.

(** No team [pickTeams] makes is the [Team.bye] object: each comes
    from [new Team]. *)
Lemma pair_up_real l teams teams' :
  pair_up l teams = Ok teams' → Team.bye ∉ teams → Team.bye ∉ teams'.
Proof.
  revert teams. induction l as [| a | a b l IH] using pair_ind; intros teams.
  - by intros [= <-].
  - cbn. destruct (truthy a); done.
  - cbn [pair_up]. cbn. destruct (truthy a); [|done]. cbn.
    destruct (truthy b); [|done]. cbn. intros Hpair Hreal. apply (IH _ Hpair).
    intros [Hin|Hin%list_elem_of_singleton]%elem_of_app; [done|discriminate].
Qed.

Lemma walk_real shuffled todo acc :
  Team.bye ∉ acc.1 → Team.bye ∉ (foldl (match_partner shuffled) acc todo).1.
Proof.
  revert acc. induction todo as [|[user partner] todo IH]; intros [ts rej] Hacc;
    cbn [foldl]; [done|].
  apply IH. unfold match_partner.
  destruct (negb (JsSet.has user rej)); [done|].
  destruct partner as [partner|]; [|done].
  destruct (negb (truthy partner)); [done|].
  destruct (negb (JsSet.has partner rej)); [done|].
  destruct (negb (bool_decide _)); [done|]. cbn [fst] in *.
  intros [Hin|Hin%list_elem_of_singleton]%elem_of_app; [done|discriminate].
Qed.

Lemma pickTeams_real t shuffled nextBotName rnd teams dropped :
  pickTeams t shuffled nextBotName rnd = Ok (teams, dropped) →
  Team.bye ∉ teams.
Proof.
  assert (Hmatched : Team.bye ∉ (matched t shuffled nextBotName).1).
  { unfold matched. destruct (choosePartner t); [|apply not_elem_of_nil].
    apply walk_real. apply not_elem_of_nil. }
  unfold pickTeams. destruct (matched t shuffled nextBotName) as [mutual rejects].
  cbn [fst] in Hmatched.
  destruct (negb (length rejects mod 2 =? 0)); cbn.
  - destruct (assert_defined (sample rnd rejects)) as [d|]; [|done]. cbn.
    destruct (assert _); [|done]. cbn.
    destruct (pair_up _ mutual) as [teams'|] eqn:Hpair; [|done]. cbn.
    intros [= <- <-]. by eapply pair_up_real.
  - destruct (assert _); [|done]. cbn.
    destruct (pair_up _ mutual) as [teams'|] eqn:Hpair; [|done]. cbn.
    intros [= <- <-]. by eapply pair_up_real.
Qed.

Lemma precedes_split {V} a b (v : V) l1 l2 :
  b ∉ l1.*1 →
  precedes a b (l1 ++ (b, v) :: l2) = bool_decide (a ∈ l1.*1).
Proof.
  induction l1 as [|[k w] l1 IH]; cbn; intros Hb.
  - rewrite String.eqb_refl. symmetry. apply bool_decide_eq_false. apply not_elem_of_nil.
  - apply not_elem_of_cons in Hb as [Hne Hb].
    destruct (String.eqb_spec k b) as [->|_]; [done|].
    destruct (String.eqb_spec k a) as [->|Hka].
    + symmetry. apply bool_decide_eq_true. left.
    + rewrite (IH Hb). apply bool_decide_ext. rewrite elem_of_cons. split; [by right|].
      by intros [->|?].
Qed.

Lemma precedes_later {V} a b (l1 l2 : list (string * V)) :
  b ∈ l1.*1 → a ∉ l1.*1 → precedes a b (l1 ++ l2) = false.
Proof.
  induction l1 as [|[k w] l1 IH]; cbn; intros Hb Ha.
  - by apply elem_of_nil in Hb.
  - apply not_elem_of_cons in Ha as [Hne Ha].
    destruct (String.eqb_spec k b) as [->|Hkb]; [done|].
    destruct (String.eqb_spec k a) as [->|_]; [done|].
    apply elem_of_cons in Hb as [->|Hb]; [done|]. by apply IH.
Qed.

Lemma discovered_Some shuffled u op x :
  discovered shuffled (u, op) = Some x ↔
  ∃ p, op = Some p ∧ x = Team.new u p ∧ p ≠ "" ∧
       map_get p shuffled = Some (Some u) ∧
       ¬ (u ≠ "" ∧ precedes p u shuffled = true).
Proof.
  unfold discovered. destruct op as [p|].
  2: { split; [done|]. by intros (p & [=] & _). }
  pose proof (truthy_spec p) as Hp. pose proof (truthy_spec u) as Hu.
  destruct (truthy p); cbn [andb].
  2: { split; [done|]. intros (p' & [= <-] & _ & Hne & _).
       apply Hp in Hne. discriminate. }
  case_bool_decide as Hg; cbn [andb].
  2: { split; [done|]. by intros (p' & [= <-] & _ & _ & Hget & _). }
  assert (Hpne : p ≠ "") by by apply Hp.
  destruct (truthy u); cbn [andb negb].
  - destruct (precedes p u shuffled) eqn:Hpre; cbn [negb].
    + split; [done|]. intros (p' & [= <-] & _ & _ & _ & Hn).
      destruct Hn. split; [|done]. by apply Hu.
    + split.
      * intros [= <-]. exists p. split_and!; try done. intros [_ ?]. congruence.
      * by intros (p' & [= <-] & -> & _).
  - split.
    + intros [= <-]. exists p. split_and!; try done.
      intros [Hne _]. apply Hu in Hne. discriminate.
    + by intros (p' & [= <-] & -> & _).
Qed.

Section WalkExact.

Context (t : Tournament) (shuffled : list (string * option string))
        (nextBotName : nat → string).

Local Abbreviation pool := (pool t shuffled nextBotName).

Local Abbreviation walked := (walked t shuffled nextBotName).

Lemma walked_step done_ e todo :
  NoDup (shuffled.*1) → shuffled = done_ ++ e :: todo →
  match_partner shuffled (walked done_) e = walked (done_ ++ [e]).
Proof.
  intros Hkeys Hs. destruct e as [u op].
  set (T := omap (discovered shuffled) done_).
  assert (Hnd : NoDup (done_.*1 ++ u :: todo.*1)).
  { rewrite Hs, fmap_app in Hkeys. exact Hkeys. }
  apply NoDup_app in Hnd as (_ & Hdone & _).
  assert (F0 : u ∉ done_.*1).
  { intros Hu. apply (Hdone u Hu). left. }
  assert (F1 : ∀ a v, (a, v) ∈ done_ → map_get a shuffled = Some v).
  { intros a v Hin. apply map_get_NoDup; [done|]. rewrite Hs.
    apply elem_of_app. by left. }
  assert (F2 : map_get u shuffled = Some op).
  { apply map_get_NoDup; [done|]. rewrite Hs. apply elem_of_app. right. left. }
  assert (F3 : ∀ a, precedes a u shuffled = bool_decide (a ∈ done_.*1)).
  { intros a. rewrite Hs. by apply precedes_split. }
  assert (F4 : ∀ a, a ∈ done_.*1 → precedes u a shuffled = false).
  { intros a Ha. rewrite Hs. by apply precedes_later. }
  assert (F5 : u ∈ pool).
  { apply elem_of_pool_key. rewrite Hs, fmap_app. apply elem_of_app. right. left. }
  assert (Hkey : ∀ a v, (a, v) ∈ done_ → a ∈ done_.*1).
  { intros a v Hin. apply list_elem_of_fmap. by exists (a, v). }
  (* the teams so far *)
  assert (HT : ∀ y, y ∈ T ≫= Team.users ↔
            ∃ a b, (a, Some b) ∈ done_ ∧
                   discovered shuffled (a, Some b) = Some (Team.new a b) ∧
                   (y = a ∨ y = b)).
  { intros y. unfold T. rewrite list_elem_of_bind. split.
    - intros (x & Hy & ([a v] & Hin & Hd)%list_elem_of_omap).
      pose proof Hd as (b & -> & -> & _)%discovered_Some.
      exists a, b. split_and!; [done..|].
      cbn in Hy. rewrite !elem_of_cons, elem_of_nil in Hy. tauto.
    - intros (a & b & Hin & Hd & Hy). exists (Team.new a b). split.
      + cbn. rewrite !elem_of_cons. tauto.
      + apply list_elem_of_omap. by exists (a, Some b). }
  (* a pair teamed at the partner's entry *)
  assert (Hearlier : ∀ p, op = Some p → p ∈ done_.*1 →
            map_get p shuffled = Some (Some u) → u ≠ "" →
            u ∈ T ≫= Team.users ∧ p ∈ T ≫= Team.users).
  { intros p -> Hp Hget Hu.
    apply list_elem_of_fmap in Hp as ([p' v] & -> & Hin). cbn in *.
    pose proof (F1 _ _ Hin) as Hv. rewrite Hget in Hv. injection Hv as <-.
    assert (discovered shuffled (p', Some u) = Some (Team.new p' u)) as Hd.
    { apply discovered_Some. exists u. split_and!; try done.
      intros [_ Hpre]. rewrite F4 in Hpre by by eapply Hkey. done. }
    split; apply HT; exists p', u; auto. }
  assert (HuT : u ∈ T ≫= Team.users →
            ∃ p, op = Some p ∧ p ∈ done_.*1 ∧
                 map_get p shuffled = Some (Some u) ∧ u ≠ "").
  { intros (a & b & Hin & Hd & [->| ->])%HT.
    - destruct F0. by eapply Hkey.
    - apply discovered_Some in Hd as (b' & [= <-] & _ & Hb & Hget & _).
      rewrite F2 in Hget. injection Hget as ->.
      exists a. split_and!; [done|by eapply Hkey|by apply F1|done]. }
  assert (HpT : ∀ p, map_get p shuffled = Some (Some u) → p ∈ T ≫= Team.users →
            p ∈ done_.*1 ∧ u ≠ "").
  { intros p Hget (a & b & Hin & Hd & [->| ->])%HT.
    - pose proof (F1 _ _ Hin) as Hv. rewrite Hget in Hv. injection Hv as <-.
      apply discovered_Some in Hd as (b' & [= <-] & _ & Hb & _).
      split; [by eapply Hkey|done].
    - apply discovered_Some in Hd as (b' & [= <-] & _ & _ & Hget' & _).
      rewrite Hget in Hget'. injection Hget' as <-.
      destruct F0. by eapply Hkey. }
  (* the entries that leave the state as it is *)
  assert (Hskip : discovered shuffled (u, op) = None →
            walked done_ = walked (done_ ++ [(u, op)])).
  { intros Hd. unfold walked. rewrite omap_app.
    replace (omap (discovered shuffled) [(u, op)]) with (@nil Team.t)
      by (cbn -[discovered]; by rewrite Hd).
    by rewrite app_nil_r. }
  unfold walked at 1. fold T. unfold match_partner.
  destruct (JsSet.has u _) eqn:Hu; cbn [negb].
  2: { apply Hskip. destruct (discovered shuffled (u, op)) eqn:Hd; [|done]. exfalso.
       apply discovered_Some in Hd as (p & -> & -> & Hp & Hget & Hfirst).
       assert (u ∈ T ≫= Team.users) as Hin.
       { destruct (decide (u ∈ T ≫= Team.users)) as [|Hn]; [done|].
         assert (JsSet.has u (filter (fun y => y ∉ T ≫= Team.users) pool) = true)
           by (apply has_spec, list_elem_of_filter; done).
         congruence. }
       apply HuT in Hin as (p' & [= <-] & Hin & _ & Hune).
       apply Hfirst. split; [done|]. rewrite F3. by apply bool_decide_eq_true. }
  apply has_spec, list_elem_of_filter in Hu as [HuT' _].
  destruct op as [p|]; [|by apply Hskip].
  destruct (truthy p) eqn:Htp; cbn [negb].
  2: { apply Hskip. unfold discovered. by rewrite Htp. }
  destruct (JsSet.has p _) eqn:Hp; cbn [negb].
  2: { apply Hskip. destruct (discovered shuffled (u, Some p)) eqn:Hd; [|done]. exfalso.
       apply discovered_Some in Hd as (p' & [= <-] & -> & Hpne & Hget & Hfirst).
       assert (p ∈ T ≫= Team.users) as Hin.
       { destruct (decide (p ∈ T ≫= Team.users)) as [|Hn]; [done|].
         assert (JsSet.has p (filter (fun y => y ∉ T ≫= Team.users) pool) = true).
         { apply has_spec, list_elem_of_filter. split; [done|].
           apply elem_of_pool_key, list_elem_of_fmap. exists (p, Some u).
           split; [done|]. by apply map_get_Some_elem. }
         congruence. }
       destruct (HpT p Hget Hin) as [Hpd Hune].
       apply HuT'. by apply (Hearlier p). }
  apply has_spec, list_elem_of_filter in Hp as [HpT' Hppool].
  case_bool_decide as Hget; cbn [negb].
  2: { apply Hskip. destruct (discovered shuffled (u, Some p)) eqn:Hd; [|done].
       by apply discovered_Some in Hd as (p' & [= <-] & _ & _ & Hget' & _). }
  (* a match *)
  assert (Hd : discovered shuffled (u, Some p) = Some (Team.new u p)).
  { apply discovered_Some. exists p. split_and!; [done|done|by apply truthy_spec|done|].
    intros [Hune Hpre]. rewrite F3 in Hpre. apply bool_decide_eq_true in Hpre.
    apply HuT'. by apply (Hearlier p). }
  unfold walked. rewrite omap_app.
  replace (omap (discovered shuffled) [(u, Some p)]) with [Team.new u p]
    by (cbn -[discovered]; by rewrite Hd).
  fold T. f_equal. unfold JsSet.delete. rewrite !list_filter_filter.
  apply list_filter_iff. intros y. rewrite bind_app, elem_of_app. cbn.
  rewrite !elem_of_cons, elem_of_nil. tauto.
Qed.

Lemma walked_foldl done_ todo :
  NoDup (shuffled.*1) → shuffled = done_ ++ todo →
  foldl (match_partner shuffled) (walked done_) todo = walked shuffled.
Proof.
  intros Hkeys. revert done_.
  induction todo as [|e todo IH]; intros done_ Hs; cbn [foldl].
  - by rewrite Hs, app_nil_r.
  - rewrite (walked_step done_ e todo Hkeys Hs). apply IH.
    by rewrite <- app_assoc.
Qed.

Lemma walked_nil : walked [] = ([], pool).
Proof.
  unfold walked. cbn. f_equal.
  induction pool as [|y l IH]; [done|].
  rewrite filter_cons_True by apply not_elem_of_nil. by rewrite IH.
Qed.

(** The state the walk ends in, when partners are honoured: the mutual
    teams, and the pool without their users. *)
Lemma matched_exact :
  choosePartner t = true → NoDup (shuffled.*1) →
  matched t shuffled nextBotName
  = (mutual_teams shuffled, left_over (mutual_teams shuffled) None pool).
Proof.
  intros Hc Hkeys. unfold matched. rewrite Hc, <- walked_nil.
  rewrite (walked_foldl [] shuffled Hkeys eq_refl). unfold walked, mutual_teams, left_over.
  f_equal. apply list_filter_iff. intros y. split; [by split|by intros [? _]].
Qed.

End WalkExact.

(** On an array of even length, the loop pairs the elements off in
    order. *)
Lemma pair_up_exact l teams teams' :
  pair_up l teams = Ok teams' →
  ∃ rest, teams' = teams ++ rest ∧ rest ≫= Team.users = l ∧ Team.bye ∉ rest.
Proof.
  revert teams. induction l as [| a | a b l IH] using pair_ind; intros teams.
  - intros [= <-]. exists []. rewrite app_nil_r. split_and!; [done..|apply not_elem_of_nil].
  - cbn. destruct (truthy a); done.
  - cbn [pair_up]. cbn. destruct (truthy a); [|done]. cbn.
    destruct (truthy b); [|done]. cbn.
    intros (rest & -> & Hp & Hreal)%IH. exists (Team.new a b :: rest).
    rewrite <- app_assoc. split_and!; [done|cbn; by rewrite Hp|].
    intros [Hin|Hin]%elem_of_cons; [discriminate|done].
Qed.

Lemma delete_left_over d mutual pool :
  JsSet.delete d (left_over mutual None pool) = left_over mutual (Some d) pool.
Proof.
  unfold JsSet.delete, left_over. rewrite list_filter_filter.
  apply list_filter_iff. intros y. split.
  - intros (Hne & Hy & _). split; [done|]. congruence.
  - intros (Hy & Hne). split_and!; [congruence|done|done].
Qed.

(** What [pickTeams] returns after the walk: the dropped player, if
    the pool left is odd, is one of its members; the teams are those of
    the walk, then the rest of the pool paired off from its end. *)
Lemma pickTeams_exact t shuffled nextBotName rnd teams dropped mutual :
  matched t shuffled nextBotName
    = (mutual, left_over mutual None (pool t shuffled nextBotName)) →
  pickTeams t shuffled nextBotName rnd = Ok (teams, dropped) →
  ∃ rest, teams = mutual ++ rest ∧ (Team.bye ∉ rest) ∧
    rest ≫= Team.users
      = rev (left_over mutual dropped (pool t shuffled nextBotName)) ∧
    (dropped = None ↔
       Nat.Even (length (left_over mutual None (pool t shuffled nextBotName)))) ∧
    (∀ d, dropped = Some d →
       d ∈ left_over mutual None (pool t shuffled nextBotName)).
Proof.
  intros Hm. unfold pickTeams. rewrite Hm.
  set (rejects := left_over mutual None (pool t shuffled nextBotName)).
  destruct (length rejects mod 2 =? 0) eqn:Hpar; cbn.
  - rewrite Hpar. cbn.
    destruct (pair_up (rev rejects) mutual) as [teams'|] eqn:Hpair; [|done].
    cbn. intros [= <- <-]. apply pair_up_exact in Hpair as (rest & -> & Hrest & Hreal).
    exists rest. split_and!; [done..| |done].
    split; [|done]. intros _. apply Nat.eqb_eq in Hpar.
    exists (length rejects / 2). lia.
  - destruct (sample rnd rejects) as [d|] eqn:Hd; [|done]. cbn.
    destruct (truthy d); [|done]. cbn.
    destruct (length (JsSet.delete d rejects) mod 2 =? 0); [|done]. cbn.
    destruct (pair_up (rev (JsSet.delete d rejects)) mutual) as [teams'|] eqn:Hpair;
      [|done].
    cbn. intros [= <- <-]. apply pair_up_exact in Hpair as (rest & -> & Hrest & Hreal).
    exists rest. split_and!; [done|done| | |].
    + rewrite Hrest. unfold rejects. by rewrite delete_left_over.
    + split; [done|]. intros [k Hk]. apply Nat.eqb_neq in Hpar. lia.
    + intros d' [= <-]. unfold sample in Hd. destruct rejects; [done|].
      by eapply list_elem_of_lookup_2.
Qed.

(** C6: with [choosePartner] set, the teams returned are the mutual
    teams the walk through the shuffled entries discovers, in discovery
    order, followed by the teams paired up from the rest of the pool.
    The mutual teams are exactly [mutual_teams]: one for each entry whose
    user named a partner that named the user back, made at the first of
    the two entries, of that user and that partner in this order.  Each
    is a user and the partner that user named, both in the pool; every
    user whose named partner named them back is on one.  The later teams
    are made by [new Team] of the pool members left, two by two from the
    end of the pool, once the dropped player is out; a player is dropped
    exactly when an odd number is left, and is one of those left. *)
Theorem pickTeams_mutual_partners_first t shuffled nextBotName rnd teams dropped :
  choosePartner t = true →
  shuffled ≡ₚ map_to_list (signups t) →
  pickTeams t shuffled nextBotName rnd = Ok (teams, dropped) →
  ∃ mutual rest,
    teams = mutual ++ rest ∧
    (∀ x, x ∈ mutual → ∃ u p,
        x = Team.new u p ∧
        signups t !! u = Some (Some p) ∧ signups t !! p = Some (Some u) ∧
        u ∈ pool t shuffled nextBotName ∧ p ∈ pool t shuffled nextBotName) ∧
    first_user <$> mutual `sublist_of` shuffled.*1 ∧
    (∀ u p, signups t !! u = Some (Some p) → p ≠ "" →
            signups t !! p = Some (Some u) → u ∈ mutual ≫= Team.users) ∧
    (∀ y, y ∈ rest ≫= Team.users →
          y ∈ pool t shuffled nextBotName ∧ y ∉ mutual ≫= Team.users) ∧
    mutual = mutual_teams shuffled ∧
    (Team.bye ∉ rest) ∧
    rest ≫= Team.users
      = rev (left_over mutual dropped (pool t shuffled nextBotName)) ∧
    (dropped = None ↔
       Nat.Even (length (left_over mutual None (pool t shuffled nextBotName)))) ∧
    (∀ d, dropped = Some d →
       d ∈ left_over mutual None (pool t shuffled nextBotName)).
Proof.
  intros Hc Hshuf Hpick.
  pose proof (shuffled_keys_NoDup _ _ Hshuf) as Hkeys.
  destruct (matched_walk_inv t shuffled nextBotName Hc Hkeys)
    as [Hnd Hrej Hmut Hord Hcomp].
  pose proof (matched_exact t shuffled nextBotName Hc Hkeys) as Hm.
  rewrite Hm in Hrej, Hmut, Hord, Hcomp. cbn [fst snd] in *.
  destruct (pickTeams_exact _ _ _ _ _ _ _ Hm Hpick)
    as (rest & -> & Hreal & Hrest & Hnone & Hsome).
  exists (mutual_teams shuffled), rest. split_and!; try done.
  - intros x (u & p & -> & Hup & _ & Hpu & Hu & Hp)%Hmut.
    exists u, p. split_and!; try done.
    + by apply (shuffled_elem _ _ _ _ Hshuf).
    + by rewrite <- (shuffled_get _ _ _ Hshuf).
  - intros u p Hup Hpne Hpu. apply (Hcomp u p); try done.
    + by apply (shuffled_elem _ _ _ _ Hshuf).
    + apply elem_of_pool_key, list_elem_of_fmap. exists (p, Some u).
      split; [done|]. by apply (shuffled_elem _ _ _ _ Hshuf).
    + by rewrite (shuffled_get _ _ _ Hshuf).
  - intros y Hy. rewrite Hrest in Hy.
    apply list_elem_of_In, in_rev, list_elem_of_In in Hy.
    apply list_elem_of_filter in Hy as [[Hy _] Hpool]. done.
Qed.

(** C8: when every signed-up user has a non-empty identifier, no
    [assert] of [pickTeams] fails: an odd pool yields a drop candidate,
    truthy and in the pool, whose removal leaves an even pool, and the
    call returns its teams. *)
Theorem pickTeams_assertions_hold t shuffled nextBotName rnd :
  shuffled ≡ₚ map_to_list (signups t) →
  (∀ u, is_Some (signups t !! u) → u ≠ "") →
  let rejects := (matched t shuffled nextBotName).2 in
  (length rejects mod 2 ≠ 0 →
     ∃ d, sample rnd rejects = Some d ∧ d ≠ "" ∧ d ∈ rejects ∧
          length (JsSet.delete d rejects) mod 2 = 0) ∧
  ∃ teams dropped, pickTeams t shuffled nextBotName rnd = Ok (teams, dropped).
Proof.
  intros Hshuf Hids. cbv zeta.
  destruct (matched_rejects t shuffled nextBotName) as [Hnd Hsub].
  unfold pickTeams.
  destruct (matched t shuffled nextBotName) as [mutual rejects].
  cbn [fst snd] in *.
  assert (Htruthy : ∀ y, y ∈ rejects → y ≠ "").
  { intros y [Hy|[i ->]]%Hsub%elem_of_pool_inv; [|done].
    apply list_elem_of_fmap in Hy as ([u p] & -> & Hin).
    apply Hids. exists p. by apply (shuffled_elem _ _ _ _ Hshuf). }
  assert (Hdrop : length rejects mod 2 ≠ 0 →
     ∃ d, sample rnd rejects = Some d ∧ d ≠ "" ∧ d ∈ rejects ∧
          length (JsSet.delete d rejects) mod 2 = 0).
  { intros Hodd. destruct (sample_elem rnd rejects) as (d & Hd & Hin).
    { intros E. rewrite E in Hodd. by apply Hodd. }
    exists d. split_and!; [done|by apply Htruthy|done|].
    pose proof (length_delete d rejects Hnd Hin). lia. }
  split; [done|].
  assert (Hpairs : ∀ l teams, l ⊆ rejects → length l mod 2 = 0 →
            ∃ teams', pair_up (rev l) teams = Ok teams').
  { intros l teams Hl Hev. apply pair_up_total.
    - rewrite length_rev. exists (length l / 2). lia.
    - apply Forall_forall. intros y Hy.
      apply list_elem_of_In, in_rev, list_elem_of_In in Hy. auto. }
  destruct (length rejects mod 2 =? 0) eqn:Hpar; cbn.
  - rewrite Hpar. cbn. apply Nat.eqb_eq in Hpar.
    destruct (Hpairs rejects mutual) as [teams' ->]; [done..|].
    cbn. eauto.
  - apply Nat.eqb_neq in Hpar. destruct (Hdrop Hpar) as (d & -> & Hd & Hin & Hev).
    cbn. apply truthy_spec in Hd. rewrite Hd. cbn.
    rewrite Hev. cbn.
    destruct (Hpairs (JsSet.delete d rejects) mutual) as [teams' ->]; [|done|].
    + intros y Hy. by apply elem_of_delete in Hy as [_ Hy].
    + cbn. eauto.
Qed.

(** C10: when no user names themselves as partner, the teams returned
    and the dropped player together hold every member of the pool
    (bots included) exactly once. *)
Theorem pickTeams_partitions_pool t shuffled nextBotName rnd teams dropped :
  shuffled ≡ₚ map_to_list (signups t) →
  (∀ u, signups t !! u ≠ Some (Some u)) →
  pickTeams t shuffled nextBotName rnd = Ok (teams, dropped) →
  NoDup (pool t shuffled nextBotName) ∧
  (teams ≫= Team.users) ++ dropped_list dropped ≡ₚ pool t shuffled nextBotName ∧
  NoDup ((teams ≫= Team.users) ++ dropped_list dropped).
Proof.
  intros Hshuf Hself (rest & -> & Hrest)%pickTeams_Ok.
  assert (Hperm : (((matched t shuffled nextBotName).1 ++ rest) ≫= Team.users)
                    ++ dropped_list dropped ≡ₚ pool t shuffled nextBotName).
  { rewrite <- (matched_partition t shuffled nextBotName).
    - rewrite bind_app, <- app_assoc. apply Permutation_app_head.
      rewrite <- Hrest. apply Permutation_app_comm.
    - intros u Hu%(shuffled_elem _ _ _ _ Hshuf). by apply (Hself u). }
  split_and!; [apply NoDup_pool|done|].
  rewrite Hperm. apply NoDup_pool.
Qed.

(** C7, as the code has it: when the host is not ['bots'], zero
    signups give no team and no dropped player, and a single signup, of
    a user with a non-empty identifier who did not name themselves as
    partner, gives no team and that user dropped. *)
Theorem pickTeams_few_signups t shuffled nextBotName rnd :
  host t ≠ "bots" →
  shuffled ≡ₚ map_to_list (signups t) →
  (signups t = ∅ → pickTeams t shuffled nextBotName rnd = Ok ([], None)) ∧
  (∀ u p, signups t = {[u := p]} → u ≠ "" →
          (choosePartner t = true → p ≠ Some u) →
          pickTeams t shuffled nextBotName rnd = Ok ([], Some u)).
Proof.
  intros Hhost Hshuf. split.
  - intros Hempty. rewrite Hempty, map_to_list_empty in Hshuf.
    apply Permutation_nil_r in Hshuf as ->.
    unfold pickTeams, matched, pool, fill_bots.
    destruct (String.eqb_spec (host t) "bots"); [done|].
    by destruct (choosePartner t).
  - intros u p Hone Hu Hself. rewrite Hone, map_to_list_singleton in Hshuf.
    apply Permutation_singleton_r in Hshuf as ->.
    assert (Hm : matched t [(u, p)] nextBotName = ([], [u])).
    { unfold matched, pool, fill_bots.
      destruct (String.eqb_spec (host t) "bots"); [done|].
      change (JsSet.of_list ([(u, p)].*1)) with [u].
      destruct (choosePartner t); [|done]. cbn [foldl match_partner].
      rewrite (proj2 (has_spec u [u])) by left. cbn [negb].
      destruct p as [q|]; [|done].
      destruct (truthy q); [|done]. cbn [negb].
      destruct (decide (q = u)) as [->|Hne]; [by destruct Hself|].
      destruct (JsSet.has q [u]) eqn:Hq; [|done].
      by apply has_spec, list_elem_of_singleton in Hq. }
    unfold pickTeams. rewrite Hm. cbn.
    apply truthy_spec in Hu. rewrite Nat.mod_1_r. cbn. rewrite Hu. cbn.
    change (1 `mod` 2) with 1. cbn.
    destruct (decide (u ≠ u)); [done|]. reflexivity.
Qed.

(** C7 fails as stated: a tournament hosted by ['bots'] with no signup
    at all is filled with eight bots, which make four teams. *)
Lemma pickTeams_zero_signups_bots :
  signups {| host := "bots"; choosePartner := false; signups := ∅ |} = ∅ ∧
  pickTeams {| host := "bots"; choosePartner := false; signups := ∅ |}
            [] letter_names 0
  = Ok ([Team.new ":bot:H" ":bot:G"; Team.new ":bot:F" ":bot:E";
         Team.new ":bot:D" ":bot:C"; Team.new ":bot:B" ":bot:A"], None) ∧
  pickTeams {| host := "bots"; choosePartner := false; signups := ∅ |}
            [] letter_names 0 ≠ Ok ([], None).
Proof. split_and!; [reflexivity|reflexivity|discriminate]. Qed.

Lemma five_shuffled_perm : five_shuffled ≡ₚ map_to_list (signups five_signups).
Proof.
  apply NoDup_Permutation.
  - apply (NoDup_fmap_1 fst).
    by apply (bool_decide_eq_true_1 (NoDup (five_shuffled.*1))); vm_compute.
  - apply NoDup_map_to_list.
  - intros [u p]. rewrite elem_of_map_to_list. unfold five_shuffled, five_signups; cbn.
    rewrite !elem_of_cons, elem_of_nil. split.
    + intros H. repeat (destruct H as [[= -> ->]|H]; [by vm_compute|]). done.
    + intros H.
      repeat (apply lookup_insert_Some in H as [[<- <-]|[? H]]; [tauto|]). done.
Qed.

Lemma pickTeams_few_signups_witness :
  pickTeams {| host := ""; choosePartner := true; signups := {["z" := Some "q"]} |}
            [("z", Some "q")] letter_names 7 = Ok ([], Some "z").
Proof.
  refine (proj2 (pickTeams_few_signups
            {| host := ""; choosePartner := true; signups := {["z" := Some "q"]} |}
            [("z", Some "q")] letter_names 7 _ _) "z" (Some "q") _ _ _).
  - discriminate.
  - cbn [signups]. rewrite map_to_list_singleton. reflexivity.
  - reflexivity.
  - discriminate.
  - discriminate.
Defined.

Lemma pickTeams_mutual_partners_first_witness :
  ∃ mutual rest,
    [Team.new "b" "a"; Team.new "d" "e"] = mutual ++ rest ∧
    mutual = mutual_teams five_shuffled ∧
    rest ≫= Team.users
      = rev (left_over mutual (Some "c") (pool five_signups five_shuffled letter_names)).
Proof.
  destruct (pickTeams_mutual_partners_first five_signups five_shuffled letter_names 0
              [Team.new "b" "a"; Team.new "d" "e"] (Some "c"))
    as (mutual & rest & H1 & _ & _ & _ & _ & H6 & _ & H8 & _).
  - reflexivity.
  - apply five_shuffled_perm.
  - vm_compute. reflexivity.
  - exists mutual, rest. split_and!; assumption.
Defined.

(** The walk teams a pair at the first of its two entries, in the
    order of that entry; an entry of the empty string is teamed at its
    own turn, since its partner's turn passes it by. *)
Example mutual_teams_in_order :
  mutual_teams [("a", Some "b"); ("b", Some "a"); ("d", Some "c"); ("c", Some "d")]
  = [Team.new "a" "b"; Team.new "d" "c"] ∧
  mutual_teams [("p", Some ""); ("", Some "p")] = [Team.new "" "p"] ∧
  foldl (match_partner [("p", Some ""); ("", Some "p")]) ([], ["p"; ""])
        [("p", Some ""); ("", Some "p")]
  = ([Team.new "" "p"], []).
Proof. split_and!; reflexivity. Qed.

Lemma pickTeams_assertions_hold_witness :
  ∃ teams dropped,
    pickTeams five_signups five_shuffled letter_names 0 = Ok (teams, dropped).
Proof.
  refine (proj2 (pickTeams_assertions_hold five_signups five_shuffled letter_names 0 _ _)).
  - apply five_shuffled_perm.
  - intros u [p Hp] ->. vm_compute in Hp. discriminate.
Defined.

Lemma pickTeams_partitions_pool_witness :
  ([Team.new "b" "a"; Team.new "d" "e"] ≫= Team.users) ++ ["c"]
  ≡ₚ pool five_signups five_shuffled letter_names.
Proof.
  refine (proj1 (proj2 (pickTeams_partitions_pool five_signups five_shuffled
            letter_names 0 [Team.new "b" "a"; Team.new "d" "e"] (Some "c") _ _ _))).
  - apply five_shuffled_perm.
  - intros u Hu. unfold five_signups in Hu; cbn in Hu.
    repeat (apply lookup_insert_Some in Hu as [[<- [=]]|[? Hu]]). done.
  - vm_compute. reflexivity.
Defined.

(** ** Properties of [createBracket] *)

Section BracketFacts.

Local Open Scope Z_scope.

(** *** Loops *)

Lemma for_loop_inv {St} (P : Z → St → Prop) (n : nat) (i0 : Z)
    (body : Z → St → result St) (s : St) :
  P i0 s →
  (∀ i s, i0 ≤ i < i0 + Z.of_nat n → P i s → ∃ s', body i s = Ok s' ∧ P (i + 1) s') →
  ∃ s', for_loop n i0 body s = Ok s' ∧ P (i0 + Z.of_nat n) s'.
Proof.
  revert i0 s. induction n as [|n IH]; intros i0 s H0 Hstep; cbn [for_loop].
  - exists s. split; [done|]. by replace (i0 + Z.of_nat 0) with i0 by lia.
  - destruct (Hstep i0 s) as (s1 & -> & H1); [lia|done|]. cbn.
    destruct (IH (i0 + 1) s1 H1) as (s' & Hs' & HP).
    { intros i s2 Hi. apply Hstep. lia. }
    exists s'. split; [done|].
    by replace (i0 + Z.of_nat (S n)) with (i0 + 1 + Z.of_nat n) by lia.
Qed.

(** *** The size of the bracket *)

(** The doubling loop stops at the first [game_count] with
    [team_count ≤ 2 * game_count]; the fuel it is given is enough. *)
Lemma grow_game_count_spec (fuel : nat) (n g0 : Z) :
  0 < g0 → n ≤ 2 * g0 + Z.of_nat fuel →
  ∃ m, 0 ≤ m ∧ grow_game_count fuel n g0 = g0 * 2 ^ m ∧
       n ≤ 2 * (g0 * 2 ^ m) ∧ (m = 0 ∨ g0 * 2 ^ m < n).
Proof.
  revert g0. induction fuel as [|fuel IH]; intros g0 Hpos Hfuel; cbn [grow_game_count].
  - exists 0. rewrite Z.mul_1_r. split_and!; [done|done|lia|by left].
  - destruct (Z.gtb_spec n (2 * g0)) as [Hgt|Hle].
    + destruct (IH (g0 * 2)) as (m & Hm & -> & Hle & Hmin); [lia|lia|].
      exists (m + 1). rewrite Z.pow_add_r, Z.pow_1_r by lia.
      replace (g0 * (2 ^ m * 2)) with (g0 * 2 * 2 ^ m) by lia.
      split_and!; [lia|done|done|]. right.
      destruct Hmin as [->|Hmin]; [|done]. rewrite Z.pow_0_r. lia.
    + exists 0. rewrite Z.mul_1_r. split_and!; [done|done|lia|by left].
Qed.

Lemma game_count_spec (teams : list Team.t) :
  ∃ k, 1 ≤ k ∧ game_count teams = 2 ^ k ∧
       team_count teams ≤ 2 * game_count teams ∧
       (k = 1 ∨ game_count teams < team_count teams).
Proof.
  unfold game_count.
  destruct (grow_game_count_spec (length teams) (team_count teams) 2)
    as (m & Hm & -> & Hle & Hmin); [lia|unfold team_count; lia|].
  exists (m + 1). rewrite Z.pow_add_r, Z.pow_1_r by lia.
  replace (2 ^ m * 2) with (2 * 2 ^ m) by lia.
  split_and!; [lia|done|done|]. destruct Hmin as [->|Hmin]; [by left|by right].
Qed.

Lemma round_count_spec (teams : list Team.t) :
  1 ≤ round_count teams - 1 ∧ game_count teams = 2 ^ (round_count teams - 1).
Proof.
  unfold round_count. destruct (game_count_spec teams) as (k & Hk & -> & _).
  rewrite Z.log2_pow2 by lia. replace (k + 1 - 1) with k by lia. done.
Qed.

(** With four teams or more, every team takes part: there are at least
    as many teams as first-round games, and fewer byes than games. *)
Lemma byes_bounds (teams : list Team.t) :
  4 ≤ team_count teams →
  game_count teams ≤ team_count teams ∧
  0 ≤ byes teams < game_count teams.
Proof.
  intros H4. unfold byes.
  destruct (game_count_spec teams) as (k & Hk & Hg & Hle & [->|Hlt]).
  - rewrite Hg in *. change (2 ^ 1) with 2 in *. lia.
  - lia.
Qed.


(** *** Arrays and the store *)

Lemma at_index_Some {A} (l : list A) i x :
  at_index l i = Some x ↔ 0 ≤ i ∧ l !! Z.to_nat i = Some x.
Proof.
  unfold at_index. destruct (Z.ltb_spec i 0); split.
  - done.
  - intros [? _]. lia.
  - intros Hx. by split.
  - by intros [_ ?].
Qed.

Lemma at_index_lt {A} (l : list A) i :
  0 ≤ i < Z.of_nat (length l) → ∃ x, at_index l i = Some x.
Proof.
  intros Hi. destruct (lookup_lt_is_Some_2 l (Z.to_nat i)) as [x Hx]; [lia|].
  exists x. apply at_index_Some. split; [lia|done].
Qed.

Lemma at_index_seqZ m n i : 0 ≤ i < n → at_index (seqZ m n) i = Some (m + i).
Proof.
  intros Hi. apply at_index_Some. split; [lia|].
  rewrite lookup_seqZ_lt by lia. f_equal. lia.
Qed.

Lemma seqZ_snoc m n : 0 ≤ n → seqZ m n ++ [m + n] = seqZ m (n + 1).
Proof.
  intros Hn. by rewrite seqZ_app by lia.
Qed.

Lemma push_round_spec k game rounds r :
  at_index rounds k = Some r →
  ∃ rounds', push_round k game rounds = Ok rounds' ∧
    length rounds' = length rounds ∧
    at_index rounds' k = Some (r ++ [game]) ∧
    ∀ j, j ≠ k → at_index rounds' j = at_index rounds j.
Proof.
  intros Hr. unfold push_round. rewrite Hr. cbn.
  apply at_index_Some in Hr as [Hk Hr].
  eexists. split; [done|]. split_and!.
  - apply length_insert.
  - apply at_index_Some. split; [done|].
    apply list_lookup_insert_eq. by eapply lookup_lt_Some.
  - intros j Hj. unfold at_index. destruct (Z.ltb_spec j 0); [done|].
    apply list_lookup_insert_ne. lia.
Qed.


(** *** Sizes and ids of the rounds *)

Section Rounds.

Context (teams : list Team.t).

Local Abbreviation g := (game_count teams).
Local Abbreviation rc := (round_count teams).
Local Abbreviation size := (round_size teams).
Local Abbreviation first := (first_id teams).

Lemma round_size_1 : size 1 = g.
Proof. unfold round_size. by destruct (round_count_spec teams) as [_ ->]. Qed.

Lemma round_size_pos j : j ≤ rc → 0 < size j.
Proof. intros Hj. unfold round_size. apply Z.pow_pos_nonneg; lia. Qed.

Lemma round_size_step j : j < rc → size j = 2 * size (j + 1).
Proof.
  intros Hj. unfold round_size.
  replace (rc - j) with (rc - (j + 1) + 1) by lia.
  rewrite Z.pow_add_r by lia. lia.
Qed.

Lemma round_size_last : size rc = 1.
Proof. unfold round_size. by rewrite Z.sub_diag. Qed.

Lemma round_size_mono j j' : j ≤ j' ≤ rc → size j' ≤ size j.
Proof. intros Hj. unfold round_size. apply Z.pow_le_mono_r; lia. Qed.

Lemma first_id_1 : first 1 = 1.
Proof. unfold first_id. rewrite round_size_1. lia. Qed.

Lemma first_id_step j : j < rc → first (j + 1) = first j + size j.
Proof. intros Hj. unfold first_id. rewrite (round_size_step j Hj). lia. Qed.

Lemma first_id_mono j j' : j ≤ j' ≤ rc → first j ≤ first j'.
Proof. intros Hj. unfold first_id. pose proof (round_size_mono j j' Hj). lia. Qed.

(** The rounds occupy consecutive, disjoint ranges of ids. *)
Lemma first_id_next j j' : j < j' ≤ rc → first j + size j ≤ first j'.
Proof.
  intros Hj. rewrite <- first_id_step by lia. apply first_id_mono. lia.
Qed.

Lemma first_id_last : first rc + size rc = 2 * g.
Proof. unfold first_id. rewrite round_size_last. lia. Qed.

Lemma game_count_even : g = 2 * (g / 2) ∧ 1 ≤ g / 2.
Proof.
  destruct (round_count_spec teams) as [Hk Hg].
  replace (rc - 1) with (rc - 2 + 1) in Hg by lia.
  rewrite Z.pow_add_r in Hg by lia.
  pose proof (Z.pow_pos_nonneg 2 (rc - 2)). lia.
Qed.

Lemma game_count_over_size j :
  1 ≤ j ≤ rc → g / size j = 2 ^ (j - 1).
Proof.
  intros Hj. destruct (round_count_spec teams) as [_ ->]. unfold round_size.
  replace (rc - 1) with (j - 1 + (rc - j)) by lia.
  rewrite Z.pow_add_r by lia. apply Z.div_mul.
  pose proof (Z.pow_pos_nonneg 2 (rc - j)). lia.
Qed.

End Rounds.


(** *** The construction, loop by loop *)

Section Build.

Context (teams : list Team.t).
Hypothesis enough_teams : 4 ≤ team_count teams.

Local Abbreviation n_teams := (team_count teams).
Local Abbreviation g := (game_count teams).
Local Abbreviation rc := (round_count teams).
Local Abbreviation size := (round_size teams).
Local Abbreviation first := (first_id teams).

(** The array of empty rounds. *)
Lemma build_rounds (n : nat) :
  for_loop n 0
    (fun _ b => Ok {| games := games b; rounds := rounds b ++ [[]] |})
    {| games := ∅; rounds := [] |}
  = Ok {| games := ∅; rounds := replicate n [] |}.
Proof.
  destruct (for_loop_inv
    (fun i b => b = {| games := ∅; rounds := replicate (Z.to_nat i) [] |}) n 0
    (fun _ b => Ok {| games := games b; rounds := rounds b ++ [[]] |})
    {| games := ∅; rounds := [] |}) as (b & -> & ->).
  - done.
  - intros i b Hi ->. eexists. split; [done|]. cbn.
    replace (Z.to_nat (i + 1)) with (S (Z.to_nat i)) by lia.
    by rewrite replicate_S_end.
  - do 3 f_equal. lia.
Qed.

(** The games of round 1, as [new Game(i + 1, 1)] leaves them. *)
Lemma build_round1 :
  ∃ b,
    for_loop (Z.to_nat g) 0
      add_round1_game
      {| games := ∅; rounds := replicate (Z.to_nat rc) [] |} = Ok b ∧
    rounds_inv teams 1 g (rounds b) ∧
    ∀ id, games b !! id =
          if bool_decide (1 ≤ id ≤ g) then Some (Game.new id 1) else None.
Proof.
  destruct (round_count_spec teams) as [Hrc Hg].
  pose proof (game_count_even teams) as [_ Hg1].
  destruct (for_loop_inv
    (fun i b => rounds_inv teams 1 i (rounds b) ∧
       ∀ id, games b !! id =
             if bool_decide (1 ≤ id ≤ i) then Some (Game.new id 1) else None)
    (Z.to_nat g) 0
    add_round1_game
    {| games := ∅; rounds := replicate (Z.to_nat rc) [] |}) as (b & Hb & Hinv).
  - split.
    + split; cbn [rounds]; [by rewrite length_replicate|]. intros j Hj.
      apply at_index_Some. split; [lia|].
      rewrite lookup_replicate_2 by lia. f_equal. unfold round_ids.
      destruct (Z.ltb_spec j 1); [lia|]. destruct (Z.eqb_spec j 1); [|done].
      by rewrite seqZ_nil.
    + intros id. cbn [games]. rewrite lookup_empty.
      by rewrite bool_decide_eq_false_2 by lia.
  - intros i b Hi [[Hlen Hrs] Hgs]. unfold add_round1_game. cbn zeta.
    destruct (push_round_spec 0 (i + 1) (rounds b) (seqZ 1 i))
      as (rs' & Hpush & Hlen' & H0 & Hother).
    { rewrite <- (first_id_1 teams). specialize (Hrs 1).
      unfold round_ids in Hrs. rewrite Z.ltb_irrefl, Z.eqb_refl in Hrs.
      apply Hrs. lia. }
    cbn [Game.id Game.new]. rewrite Hpush. cbn. eexists. split; [done|].
    cbn [rounds games]. split.
    + split; [congruence|]. intros j Hj. destruct (decide (j = 1)) as [->|Hne].
      * change (1 - 1) with 0. rewrite H0. f_equal. unfold round_ids.
        rewrite Z.ltb_irrefl, Z.eqb_refl, (first_id_1 teams).
        rewrite <- seqZ_snoc by lia. do 2 f_equal. lia.
      * rewrite Hother by lia. rewrite Hrs by done. f_equal. unfold round_ids.
        destruct (Z.ltb_spec j 1); [lia|]. by destruct (Z.eqb_spec j 1).
    + intros id. rewrite lookup_insert, Hgs.
      destruct (decide (i + 1 = id)) as [<-|Hne].
      * by rewrite bool_decide_eq_true_2 by lia.
      * rewrite (bool_decide_ext (1 ≤ id ≤ i) (1 ≤ id ≤ i + 1)); [done|lia].
  - exists b. split; [done|]. by replace (0 + Z.of_nat (Z.to_nat g)) with g in Hinv by lia.
Qed.


(** Every call of [populate_game] finds its game and its teams. *)
Lemma populate_game_spec c p b :
  0 ≤ c < g → 0 ≤ p < g →
  rounds_inv teams 1 g (rounds b) →
  games b !! (p + 1) = Some (Game.new (p + 1) 1) →
  ∃ b',
    populate_game teams p 0 (Z.max 0 (byes teams - c)) c
      (n_teams - 1 - Z.max 0 (c - byes teams)) b
    = Ok (b', cursors teams (c + 1)) ∧
    rounds b' = rounds b ∧
    games b' !! (p + 1) = Some (filled_game teams p c None) ∧
    ∀ id, id ≠ p + 1 → games b' !! id = games b !! id.
Proof.
  intros Hc Hp [_ Hrs] Hnew.
  pose proof (byes_bounds teams enough_teams) as [HgN HB].
  destruct (round_count_spec teams) as [Hrc _].
  specialize (Hrs 1 ltac:(lia)). change (1 - 1) with 0 in Hrs.
  unfold round_ids in Hrs.
  rewrite Z.ltb_irrefl, Z.eqb_refl, (first_id_1 teams) in Hrs.
  destruct (at_index_lt teams c) as [t1 Ht1]; [unfold team_count in *; lia|].
  unfold populate_game. rewrite Hrs. cbn.
  rewrite (at_index_seqZ 1 g p Hp). cbn. rewrite Ht1. cbn.
  replace (1 + p) with (p + 1) by lia.
  destruct (Z.ltb_spec c (byes teams)) as [Hbye|Hbye].
  - destruct (Z.gtb_spec (Z.max 0 (byes teams - c)) 0) as [_|?]; [|lia]. cbn.
    eexists. split_and!.
    + do 2 f_equal. unfold cursors. f_equal; [f_equal|]; lia.
    + done.
    + cbn [games]. rewrite !lookup_alter_eq, Hnew. cbn. f_equal.
      unfold filled_game, seats, second_seat, Game.set_row, Game.set_resolved,
        Game.push_team; cbn.
      rewrite Ht1. destruct (Z.ltb_spec c (byes teams)); [done|lia].
    + intros id Hid. cbn [games]. by rewrite !lookup_alter_ne.
  - destruct (Z.gtb_spec (Z.max 0 (byes teams - c)) 0) as [?|_]; [lia|]. cbn.
    destruct (at_index_lt teams (n_teams - 1 - Z.max 0 (c - byes teams)))
      as [t2 Ht2]; [unfold byes, team_count in *; lia|].
    rewrite Ht2. cbn. eexists. split_and!.
    + do 2 f_equal. unfold cursors. f_equal; [f_equal|]; lia.
    + done.
    + cbn [games]. rewrite !lookup_alter_eq, Hnew. cbn. f_equal.
      unfold filled_game, seats, second_seat, Game.set_row, Game.push_team; cbn.
      rewrite Ht1. destruct (Z.ltb_spec c (byes teams)); [lia|].
      replace (n_teams - 1 - (c - byes teams))
        with (n_teams - 1 - Z.max 0 (c - byes teams)) by lia.
      by rewrite Ht2.
    + intros id Hid. cbn [games]. by rewrite !lookup_alter_ne.
Qed.


(** The first round once the populate loop has run: every position
    holds the game filled by the call of its rank. *)
Lemma populate_round1 b :
  rounds_inv teams 1 g (rounds b) →
  (∀ id, games b !! id =
         if bool_decide (1 ≤ id ≤ g) then Some (Game.new id 1) else None) →
  ∃ b' cur,
    for_loop (Z.to_nat (g / 2)) 0 (populate_pair teams)
      (b, (byes teams, 0, n_teams - 1)) = Ok (b', cur) ∧
    rounds b' = rounds b ∧
    ∀ id, games b' !! id =
          if bool_decide (1 ≤ id ≤ g)
          then Some (round1_game teams (id - 1) None) else None.
Proof.
  intros Hrs Hgs.
  pose proof (byes_bounds teams enough_teams) as [HgN HB].
  pose proof (game_count_even teams) as [Heven Hhalf].
  destruct (for_loop_inv
    (fun i '(b', cur) =>
       cur = cursors teams (2 * i) ∧ rounds b' = rounds b ∧
       ∀ id, games b' !! id =
             if bool_decide (1 ≤ id ≤ g)
             then Some (round1_progress teams i (id - 1)) else None)
    (Z.to_nat (g / 2)) 0 (populate_pair teams)
    (b, (byes teams, 0, n_teams - 1))) as ([b' cur] & Hloop & Hcur & Hrs' & Hgs').
  - split_and!.
    + unfold cursors. f_equal; [f_equal|]; lia.
    + done.
    + intros id. rewrite Hgs. case_bool_decide; [|done]. f_equal.
      unfold round1_progress, populated.
      destruct (Z.ltb_spec (id - 1) 0); [lia|].
      destruct (Z.ltb_spec (g - 1 - 0) (id - 1)); [lia|]. cbn.
      f_equal. lia.
  - intros i [b1 cur1] Hi (-> & Hrs1 & Hgs1).
    (* the call for the top position *)
    destruct (populate_game_spec (2 * i) i b1) as (b2 & Hcall2 & Hrs2 & Hnew2 & Hold2).
    { lia. } { lia. } { by rewrite Hrs1. }
    { rewrite Hgs1, bool_decide_eq_true_2 by lia. f_equal.
      unfold round1_progress, populated. replace (i + 1 - 1) with i by lia.
      rewrite Z.ltb_irrefl. destruct (Z.ltb_spec (g - 1 - i) i); [lia|done]. }
    (* the call for the bottom position *)
    destruct (populate_game_spec (2 * i + 1) (g - (1 + i)) b2)
      as (b3 & Hcall3 & Hrs3 & Hnew3 & Hold3).
    { lia. } { lia. } { by rewrite Hrs2, Hrs1. }
    { rewrite Hold2, Hgs1, bool_decide_eq_true_2 by lia. f_equal.
      unfold round1_progress, populated.
      replace (g - (1 + i) + 1 - 1) with (g - 1 - i) by lia.
      rewrite Z.ltb_irrefl. destruct (Z.ltb_spec (g - 1 - i) i); [lia|].
      cbn. f_equal. lia. }
    unfold populate_pair, cursors. rewrite Hcall2. cbn.
    unfold cursors. rewrite Hcall3. eexists. split; [done|]. split_and!.
    + by replace (2 * i + 1 + 1) with (2 * (i + 1)) by lia.
    + by rewrite Hrs3, Hrs2.
    + intros id. destruct (decide (id = g - (1 + i) + 1)) as [->|Hne3].
      { rewrite Hnew3, bool_decide_eq_true_2 by lia. f_equal.
        unfold round1_progress, populated, round1_game, call_order.
        replace (g - (1 + i) + 1 - 1) with (g - (1 + i)) by lia.
        destruct (Z.ltb_spec (g - 1 - (i + 1)) (g - (1 + i))); [|lia].
        rewrite orb_true_r.
        destruct (Z.ltb_spec (g - (1 + i)) (g / 2)); [lia|].
        f_equal. lia. }
      rewrite Hold3 by done. destruct (decide (id = i + 1)) as [->|Hne2].
      { rewrite Hnew2, bool_decide_eq_true_2 by lia. f_equal.
        unfold round1_progress, populated, round1_game, call_order.
        replace (i + 1 - 1) with i by lia.
        destruct (Z.ltb_spec i (i + 1)); [|lia]. cbn.
        destruct (Z.ltb_spec i (g / 2)); [done|lia]. }
      rewrite Hold2, Hgs1 by done. case_bool_decide; [|done]. f_equal.
      unfold round1_progress, populated.
      destruct (Z.ltb_spec (id - 1) i), (Z.ltb_spec (id - 1) (i + 1)),
        (Z.ltb_spec (g - 1 - i) (id - 1)), (Z.ltb_spec (g - 1 - (i + 1)) (id - 1));
        try lia; done.
  - exists b', cur. split; [done|]. split; [done|].
    intros id. rewrite Hgs'. case_bool_decide; [|done]. f_equal.
    unfold round1_progress, populated.
    destruct (Z.ltb_spec (id - 1) (0 + Z.of_nat (Z.to_nat (g / 2)))),
      (Z.ltb_spec (g - 1 - (0 + Z.of_nat (Z.to_nat (g / 2)))) (id - 1));
      try lia; done.
Qed.


(** *** Progress of the later rounds *)

Lemma set_next_expected r n r' n' j i next :
  next_link teams r' n' j i = Some next →
  Game.set_next next (expected_game teams r n j i) = expected_game teams r' n' j i.
Proof. intros Hn. unfold expected_game. rewrite Hn. by destruct (j =? 1). Qed.

Lemma built_half j i : j < rc → 0 ≤ i < size j → 0 ≤ i / 2 < size (j + 1).
Proof.
  intros Hj Hi. rewrite (round_size_step teams j Hj) in Hi. lia.
Qed.

(** A complete round [r] is the same state as round [r + 1] not yet
    begun. *)
Lemma built_next r j i :
  0 ≤ i → (j = r → i < size r) →
  built (r + 1) 0 j i = built r (size r) j i.
Proof.
  intros Hi Hr. unfold built.
  destruct (Z.ltb_spec j (r + 1)), (Z.ltb_spec j r), (Z.eqb_spec j (r + 1)),
    (Z.eqb_spec j r), (Z.ltb_spec i 0), (Z.ltb_spec i (size r)); try lia; done.
Qed.

Lemma expected_game_next r j i :
  r < rc → 1 ≤ j ≤ rc → 0 ≤ i < size j →
  expected_game teams (r + 1) 0 j i = expected_game teams r (size r) j i.
Proof.
  intros Hr Hj Hi. unfold expected_game, next_link.
  rewrite (built_next r (j + 1) (i / 2)); [done|lia|].
  intros <-. apply built_half; lia.
Qed.

Lemma rounds_inv_next r rs :
  1 ≤ r < rc → rounds_inv teams r (size r) rs → rounds_inv teams (r + 1) 0 rs.
Proof.
  intros Hr [Hlen Hrs]. split; [done|]. intros j Hj. rewrite (Hrs j Hj). f_equal.
  unfold round_ids.
  destruct (Z.ltb_spec j (r + 1)), (Z.ltb_spec j r), (Z.eqb_spec j (r + 1)),
    (Z.eqb_spec j r); try lia; subst; done.
Qed.

Lemma store_inv_next r gs :
  1 ≤ r < rc → store_inv teams r (size r) gs → store_inv teams (r + 1) 0 gs.
Proof.
  intros Hr [Hgs Hnone]. split.
  - intros j i Hj Hi Hb. rewrite expected_game_next by (done || lia).
    apply Hgs; [done..|]. rewrite <- built_next; [done|lia|]. intros ->. lia.
  - intros id Hid. apply Hnone. rewrite (first_id_step teams r) in Hid; lia.
Qed.

(** The populated first round is the state "round 1 complete". *)
Lemma round1_store (gs : gmap Z Game.t) :
  (∀ id, gs !! id =
         if bool_decide (1 ≤ id ≤ g)
         then Some (round1_game teams (id - 1) None) else None) →
  store_inv teams 1 (size 1) gs.
Proof.
  intros Hgs. rewrite (round_size_1 teams). split.
  - intros j i Hj Hi Hb. unfold built in Hb.
    destruct (Z.ltb_spec j 1), (Z.eqb_spec j 1); try lia; try done. subst j.
    rewrite (round_size_1 teams) in Hi.
    rewrite Hgs, (first_id_1 teams), bool_decide_eq_true_2 by lia. f_equal.
    unfold expected_game, next_link, built. cbn.
    replace (1 + i - 1) with i by lia. done.
  - intros id Hid. rewrite (first_id_1 teams) in Hid.
    by rewrite Hgs, bool_decide_eq_false_2 by lia.
Qed.


(** One more game of round [r]: it is created, listed, linked to its
    two predecessors and placed. *)
Lemma link_game_spec r i b :
  2 ≤ r ≤ rc → 0 ≤ i < size r →
  store_inv teams r i (games b) → rounds_inv teams r i (rounds b) →
  ∃ b',
    link_game g (size r) r (base_row r) i (b, first r + i)
      = Ok (b', first r + (i + 1)) ∧
    store_inv teams r (i + 1) (games b') ∧
    rounds_inv teams r (i + 1) (rounds b').
Proof.
  intros Hr Hi [Hgs Hnone] [Hlen Hrs].
  pose proof (round_size_step teams (r - 1) ltac:(lia)) as Hsz.
  pose proof (first_id_step teams (r - 1) ltac:(lia)) as Hfst.
  replace (r - 1 + 1) with r in Hsz, Hfst by lia.
  pose proof (first_id_mono teams 1 (r - 1) ltac:(lia)) as Hf1.
  rewrite (first_id_1 teams) in Hf1.
  assert (Hcur : at_index (rounds b) (r - 1) = Some (seqZ (first r) i)).
  { rewrite (Hrs r) by lia. unfold round_ids. by rewrite Z.ltb_irrefl, Z.eqb_refl. }
  assert (Hprev : at_index (rounds b) (r - 2)
                  = Some (seqZ (first (r - 1)) (size (r - 1)))).
  { replace (r - 2) with (r - 1 - 1) by lia. rewrite (Hrs (r - 1)) by lia.
    unfold round_ids. by destruct (Z.ltb_spec (r - 1) r); [|lia]. }
  destruct (push_round_spec (r - 1) (first r + i) (rounds b) _ Hcur)
    as (rs' & Hpush & Hlen' & Hat & Hother).
  unfold link_game. rewrite Hpush. cbn [mbind result_bind].
  rewrite Hother, Hprev by lia. cbn [mbind result_bind or_throw].
  rewrite !at_index_seqZ by lia. cbn [mbind result_bind or_throw].
  eexists. split; [do 2 f_equal; lia|]. cbn [games rounds]. split.
  - split.
    + intros j i' Hj Hi' Hb.
      destruct (decide (j = r ∧ i' = i)) as [[-> ->]|Hnew].
      { (* the game just created *)
        rewrite lookup_alter_eq, !lookup_alter_ne, lookup_alter_eq, lookup_insert_eq
          by lia.
        cbn. f_equal. unfold expected_game, next_link, built.
        destruct (Z.eqb_spec r 1); [lia|].
        destruct (Z.ltb_spec (r + 1) r); [lia|].
        destruct (Z.eqb_spec (r + 1) r); [lia|]. done. }
      assert (Hb' : built r i j i' = true).
      { unfold built in *.
        destruct (Z.ltb_spec j r), (Z.eqb_spec j r), (Z.ltb_spec i' i),
          (Z.ltb_spec i' (i + 1)); try done; lia. }
      assert (Hjr : j ≤ r).
      { unfold built in Hb'. destruct (Z.ltb_spec j r), (Z.eqb_spec j r); try done; lia. }
      assert (Hi'r : j = r → i' < i).
      { intros ->. unfold built in Hb'. rewrite Z.ltb_irrefl, Z.eqb_refl in Hb'.
        destruct (Z.ltb_spec i' i); [done|done]. }
      assert (Hkey : first j + i' < first r + i).
      { destruct (decide (j = r)) as [->|]; [specialize (Hi'r eq_refl); lia|].
        pose proof (first_id_next teams j r ltac:(lia)). lia. }
      rewrite lookup_alter_ne by lia.
      destruct (decide (j = r - 1 ∧ (i' = i * 2 ∨ i' = i * 2 + 1))) as [[-> Hi2]|Hfar].
      { (* a predecessor of the game just created *)
        assert (Hold := Hgs (r - 1) i' Hj Hi' Hb').
        assert (Hlink : next_link teams r (i + 1) (r - 1) i' = Some (first r + i)).
        { unfold next_link, built. replace (r - 1 + 1) with r by lia.
          rewrite Z.ltb_irrefl, Z.eqb_refl. replace (i' / 2) with i by lia.
          destruct (Z.ltb_spec i (i + 1)); [done|lia]. }
        destruct Hi2 as [->| ->].
        - rewrite lookup_alter_ne, lookup_alter_eq, lookup_alter_ne, lookup_insert_ne
            by lia.
          rewrite Hold. cbn. f_equal. by apply set_next_expected.
        - rewrite lookup_alter_eq, lookup_alter_ne, lookup_alter_ne, lookup_insert_ne
            by lia.
          rewrite Hold. cbn. f_equal. by apply set_next_expected. }
      (* any other game *)
      assert (first j + i' ≠ first (r - 1) + i * 2 ∧
              first j + i' ≠ first (r - 1) + (i * 2 + 1)) as [Hk1 Hk2].
      { destruct (decide (j = r)) as [->|]; [lia|].
        destruct (decide (j = r - 1)) as [->|]; [lia|].
        pose proof (first_id_next teams j (r - 1) ltac:(lia)). lia. }
      rewrite !lookup_alter_ne, lookup_insert_ne by lia.
      rewrite (Hgs j i' Hj Hi' Hb'). f_equal.
      unfold expected_game, next_link. f_equal.
      assert (built r i (j + 1) (i' / 2) = built r (i + 1) (j + 1) (i' / 2))
        as ->; [|done].
      unfold built.
      destruct (Z.ltb_spec (j + 1) r), (Z.eqb_spec (j + 1) r),
        (Z.ltb_spec (i' / 2) i), (Z.ltb_spec (i' / 2) (i + 1)); try done; lia.
    + intros id Hid.
      rewrite !lookup_alter_ne, lookup_insert_ne by lia. apply Hnone. lia.
  - split; [congruence|]. intros j Hj. destruct (decide (j = r)) as [->|Hne].
    + rewrite Hat. f_equal. unfold round_ids. rewrite Z.ltb_irrefl, Z.eqb_refl.
      apply seqZ_snoc. lia.
    + rewrite Hother, (Hrs j Hj) by lia. f_equal. unfold round_ids.
      destruct (Z.ltb_spec j r); [done|]. by destruct (Z.eqb_spec j r).
Qed.


(** A whole round. *)
Lemma build_round_spec r b :
  2 ≤ r ≤ rc →
  store_inv teams (r - 1) (size (r - 1)) (games b) →
  rounds_inv teams (r - 1) (size (r - 1)) (rounds b) →
  ∃ b',
    build_round teams r
      (b, (size (r - 1) / 2, base_row r, first (r - 1) + size (r - 1)))
    = Ok (b', (size r / 2, base_row (r + 1), first r + size r)) ∧
    store_inv teams r (size r) (games b') ∧
    rounds_inv teams r (size r) (rounds b').
Proof.
  intros Hr Hgs Hrs.
  pose proof (round_size_step teams (r - 1) ltac:(lia)) as Hsz.
  pose proof (first_id_step teams (r - 1) ltac:(lia)) as Hfst.
  pose proof (round_size_pos teams r ltac:(lia)) as Hpos.
  apply store_inv_next in Hgs; [|lia]. apply rounds_inv_next in Hrs; [|lia].
  replace (r - 1 + 1) with r in * by lia.
  replace (size (r - 1) / 2) with (size r) by lia. rewrite <- Hfst.
  destruct (for_loop_inv
    (fun i '(b', game_id) =>
       game_id = first r + i ∧ store_inv teams r i (games b') ∧
       rounds_inv teams r i (rounds b'))
    (Z.to_nat (size r)) 0 (link_game g (size r) r (base_row r))
    (b, first r)) as ([b' gid] & Hloop & -> & Hgs' & Hrs').
  - split_and!; [lia|done..].
  - intros i [b1 gid] Hi (-> & Hgs1 & Hrs1).
    destruct (link_game_spec r i b1) as (b2 & Hlink & Hgs2 & Hrs2); [lia|lia|done..|].
    rewrite Hlink. eexists. split; [done|]. split_and!; [lia|done..].
  - replace (0 + Z.of_nat (Z.to_nat (size r))) with (size r) in * by lia.
    unfold build_round. rewrite Hloop. cbn [mbind result_bind].
    eexists. split; [|done]. do 3 f_equal. unfold base_row.
    replace (r + 1 - 1) with (r - 1 + 1) by lia.
    rewrite Z.pow_add_r by lia. change (2 ^ 1) with 2. f_equal. lia.
Qed.

(** The shape of the bracket [createBracket] returns. *)
Lemma createBracket_shape :
  ∃ b, createBracket teams = Ok b ∧
       store_inv teams rc 1 (games b) ∧ rounds_inv teams rc 1 (rounds b).
Proof.
  destruct (round_count_spec teams) as [Hrc Hg].
  pose proof (game_count_even teams) as [Heven Hhalf].
  unfold createBracket.
  destruct (Z.ltb_spec n_teams 4) as [?|_]; [lia|].
  rewrite build_rounds. cbn [mbind result_bind].
  destruct build_round1 as (b1 & -> & Hrs1 & Hgs1). cbn [mbind result_bind].
  destruct (populate_round1 b1 Hrs1 Hgs1) as (b2 & cur & -> & Hrs2 & Hgs2).
  cbn [mbind result_bind].
  apply round1_store in Hgs2. rewrite <- Hrs2, <- (round_size_1 teams) in Hrs1.
  destruct (for_loop_inv
    (fun r '(b', (round_games, row, game_id)) =>
       round_games = size (r - 1) / 2 ∧ row = base_row r ∧
       game_id = first (r - 1) + size (r - 1) ∧
       store_inv teams (r - 1) (size (r - 1)) (games b') ∧
       rounds_inv teams (r - 1) (size (r - 1)) (rounds b'))
    (Z.to_nat (rc + 1 - 2)) 2 (build_round teams)
    (b2, (g / 2, 1, g + 1)))
    as ([b3 [[rg row] gid]] & -> & _ & _ & _ & Hgs3 & Hrs3).
  - change (2 - 1) with 1. rewrite (first_id_1 teams).
    split_and!; [by rewrite (round_size_1 teams)|reflexivity
                |rewrite (round_size_1 teams); lia|done..].
  - intros r [b' [[rg row] gid]] Hi (-> & -> & -> & Hgs' & Hrs').
    destruct (build_round_spec r b') as (b'' & -> & Hgs'' & Hrs''); [lia|done..|].
    eexists. split; [done|]. replace (r + 1 - 1) with r by lia. done.
  - cbn [mbind result_bind]. exists b3. split; [done|].
    replace (2 + Z.of_nat (Z.to_nat (rc + 1 - 2)) - 1) with rc in * by lia.
    by rewrite (round_size_last teams) in *.
Qed.


(** *** The finished bracket *)

(** Every id from 1 to [2 * game_count - 1] is the id of one game, at
    some index of some round. *)
Lemma id_round_index id :
  1 ≤ id < 2 * g →
  ∃ j i, 1 ≤ j ≤ rc ∧ 0 ≤ i < size j ∧ id = first j + i.
Proof.
  destruct (round_count_spec teams) as [Hrc _].
  rewrite <- (first_id_last teams).
  assert (Hcover : ∀ n : nat, 1 + Z.of_nat n ≤ rc →
            ∀ id, 1 ≤ id < first (1 + Z.of_nat n) + size (1 + Z.of_nat n) →
                  ∃ j i, 1 ≤ j ≤ rc ∧ 0 ≤ i < size j ∧ id = first j + i).
  { induction n as [|n IH]; intros Hn id' Hid.
    - exists 1, (id' - 1). change (1 + Z.of_nat 0) with 1 in *.
      rewrite (first_id_1 teams) in *. lia.
    - destruct (decide (id' < first (1 + Z.of_nat n) + size (1 + Z.of_nat n)))
        as [Hlt|Hge]; [apply IH; lia|].
      pose proof (first_id_step teams (1 + Z.of_nat n) ltac:(lia)) as Hstep.
      replace (1 + Z.of_nat n + 1) with (1 + Z.of_nat (S n)) in Hstep by lia.
      exists (1 + Z.of_nat (S n)), (id' - first (1 + Z.of_nat (S n))). lia. }
  intros Hid. apply (Hcover (Z.to_nat (rc - 1))); [lia|].
  by replace (1 + Z.of_nat (Z.to_nat (rc - 1))) with rc by lia.
Qed.

(** The position of an id is unique. *)
Lemma id_round_index_inj j i j' i' :
  1 ≤ j ≤ rc → 0 ≤ i < size j → 1 ≤ j' ≤ rc → 0 ≤ i' < size j' →
  first j + i = first j' + i' → j = j' ∧ i = i'.
Proof.
  intros Hj Hi Hj' Hi' Heq.
  destruct (Z.lt_trichotomy j j') as [Hlt|[->|Hgt]].
  - pose proof (first_id_next teams j j' ltac:(lia)). lia.
  - split; [done|lia].
  - pose proof (first_id_next teams j' j ltac:(lia)). lia.
Qed.

Lemma built_final j i : 1 ≤ j ≤ rc → 0 ≤ i < size j → built rc 1 j i = true.
Proof.
  intros Hj Hi. unfold built.
  destruct (Z.ltb_spec j rc); [done|]. cbn.
  destruct (Z.eqb_spec j rc) as [->|]; [|lia]. cbn.
  rewrite (round_size_last teams) in Hi. by destruct (Z.ltb_spec i 1); [|lia].
Qed.

Lemma createBracket_games :
  ∃ b, createBracket teams = Ok b ∧
    length (rounds b) = Z.to_nat rc ∧
    (∀ j, 1 ≤ j ≤ rc → at_index (rounds b) (j - 1) = Some (seqZ (first j) (size j))) ∧
    (∀ j i, 1 ≤ j ≤ rc → 0 ≤ i < size j →
            games b !! (first j + i) = Some (bracket_game teams j i)) ∧
    (∀ id, id < 1 ∨ 2 * g ≤ id → games b !! id = None).
Proof.
  destruct createBracket_shape as (b & Hb & [Hgs Hnone] & [Hlen Hrs]).
  exists b. split_and!; [done|done| | |].
  - intros j Hj. rewrite (Hrs j Hj). f_equal. unfold round_ids.
    destruct (Z.ltb_spec j rc); [done|].
    destruct (Z.eqb_spec j rc) as [->|]; [|lia].
    by rewrite (round_size_last teams).
  - intros j i Hj Hi. apply Hgs; [done..|]. by apply built_final.
  - intros id Hid. apply Hnone. pose proof (first_id_last teams).
    rewrite (round_size_last teams) in *. lia.
Qed.

Lemma game_at_Some b r i id :
  length (rounds b) = Z.to_nat rc →
  (∀ j, 1 ≤ j ≤ rc → at_index (rounds b) (j - 1) = Some (seqZ (first j) (size j))) →
  game_at b r i = Some id ↔ 1 ≤ r ≤ rc ∧ 0 ≤ i < size r ∧ id = first r + i.
Proof.
  intros Hlen Hrs. unfold game_at. split.
  - destruct (at_index (rounds b) (r - 1)) as [ids|] eqn:Hids; [|done]. cbn.
    intros Hi. pose proof Hids as Hids'. apply at_index_Some in Hids' as [Hr Hl].
    apply lookup_lt_Some in Hl.
    assert (1 ≤ r ≤ rc) as Hr' by lia. split; [done|].
    rewrite (Hrs r Hr') in Hids. injection Hids as <-.
    apply at_index_Some in Hi as [Hi0 Hi].
    apply lookup_seqZ in Hi. lia.
  - intros (Hr & Hi & ->). rewrite (Hrs r Hr). cbn. by apply at_index_seqZ.
Qed.


(** Read round after round, the ids are 1, 2, 3, ... *)
Lemma rounds_concat b :
  length (rounds b) = Z.to_nat rc →
  (∀ j, 1 ≤ j ≤ rc → at_index (rounds b) (j - 1) = Some (seqZ (first j) (size j))) →
  concat (rounds b) = seqZ 1 (2 * g - 1).
Proof.
  intros Hlen Hrs. destruct (round_count_spec teams) as [Hrc _].
  assert (Heq : rounds b = (fun j => seqZ (first j) (size j)) <$> seqZ 1 rc).
  { apply list_eq. intros n. rewrite list_lookup_fmap.
    destruct (decide (Z.of_nat n < rc)) as [Hn|Hn].
    - rewrite lookup_seqZ_lt by done. cbn.
      specialize (Hrs (1 + Z.of_nat n) ltac:(lia)).
      apply at_index_Some in Hrs as [_ Hrs].
      by replace (Z.to_nat (1 + Z.of_nat n - 1)) with n in Hrs by lia.
    - rewrite lookup_seqZ_ge by lia. apply lookup_ge_None. lia. }
  rewrite Heq.
  assert (Hcat : ∀ n : nat, 1 + Z.of_nat n ≤ rc →
            concat ((fun j => seqZ (first j) (size j)) <$> seqZ 1 (1 + Z.of_nat n))
            = seqZ 1 (first (1 + Z.of_nat n) + size (1 + Z.of_nat n) - 1)).
  { induction n as [|n IH]; intros Hn.
    - change (1 + Z.of_nat 0) with 1. change (seqZ 1 1) with [1]. cbn.
      rewrite app_nil_r, (first_id_1 teams). f_equal. lia.
    - replace (1 + Z.of_nat (S n)) with (1 + Z.of_nat n + 1) by lia.
      set (j := 1 + Z.of_nat n) in *.
      rewrite <- seqZ_snoc, fmap_app, concat_app, IH by lia. cbn.
      rewrite app_nil_r. replace (1 + j) with (j + 1) by lia.
      pose proof (first_id_step teams j ltac:(lia)) as Hstep.
      pose proof (round_size_pos teams j ltac:(lia)).
      pose proof (round_size_pos teams (j + 1) ltac:(lia)).
      pose proof (first_id_mono teams 1 j ltac:(lia)) as Hm.
      rewrite (first_id_1 teams) in Hm.
      rewrite Hstep.
      replace (first j + size j) with (1 + (first j + size j - 1)) at 2 by lia.
      rewrite <- seqZ_app by lia. f_equal. lia. }
  specialize (Hcat (Z.to_nat (rc - 1)) ltac:(lia)).
  replace (1 + Z.of_nat (Z.to_nat (rc - 1))) with rc in Hcat by lia.
  rewrite Hcat. f_equal. pose proof (first_id_last teams). lia.
Qed.


Lemma call_order_range p : 0 ≤ p < g → 0 ≤ call_order teams p < g.
Proof.
  intros Hp. pose proof (game_count_even teams) as [Heven Hhalf].
  unfold call_order. destruct (Z.ltb_spec p (g / 2)); lia.
Qed.

(** Positions [i] and [g - 1 - i] are filled by the calls of rank
    [2 * i] and [2 * i + 1]. *)
Lemma call_order_top i : 0 ≤ i < g / 2 → call_order teams i = 2 * i.
Proof. intros Hi. unfold call_order. by destruct (Z.ltb_spec i (g / 2)); [|lia]. Qed.

Lemma call_order_bottom i :
  0 ≤ i < g / 2 → call_order teams (g - 1 - i) = 2 * i + 1.
Proof.
  intros Hi. pose proof (game_count_even teams) as [Heven Hhalf].
  unfold call_order. destruct (Z.ltb_spec (g - 1 - i) (g / 2)); lia.
Qed.

(** Both seats of every first-round game are taken. *)
Lemma seats_spec c :
  0 ≤ c < g →
  ∃ a b, at_index teams c = Some a ∧ second_seat teams c = Some b ∧
         seats teams c = [a; b].
Proof.
  intros Hc. pose proof (byes_bounds teams enough_teams) as [HgN HB].
  destruct (at_index_lt teams c) as [a Ha]; [unfold team_count in *; lia|].
  assert (∃ b, second_seat teams c = Some b) as [b Hb].
  { unfold second_seat. destruct (Z.ltb_spec c (byes teams)); [by eexists|].
    apply at_index_lt. unfold byes, team_count in *. lia. }
  exists a, b. unfold seats. by rewrite Ha, Hb.
Qed.

Lemma next_link_final j i :
  1 ≤ j ≤ rc → 0 ≤ i < size j →
  next_link teams rc 1 j i = if j <? rc then Some (first (j + 1) + i / 2) else None.
Proof.
  intros Hj Hi. unfold next_link.
  destruct (Z.ltb_spec j rc) as [Hlt|Hge].
  - rewrite built_final; [done|lia|]. by apply built_half.
  - unfold built. destruct (Z.ltb_spec (j + 1) rc); [lia|].
    by destruct (Z.eqb_spec (j + 1) rc); [lia|].
Qed.

End Build.

End BracketFacts.

(** *** The bracket returned *)

Section BracketClaims.

Local Open Scope Z_scope.

(** C2: with four teams or more, [game_count] is the smallest of 2, 4,
    8, ... whose double reaches the number of teams, [byes] makes up
    the difference, [round_count] is its binary logarithm plus one, and
    the bracket returned has that many rounds, the first of them with
    [game_count] games; with fewer than four teams the games and the
    rounds are empty; [canceled] says exactly that the rounds are
    empty. *)
Theorem createBracket_sizes (teams : list Team.t) :
  (4 ≤ team_count teams →
     (∃ k, 1 ≤ k ∧ game_count teams = 2 ^ k) ∧
     team_count teams ≤ 2 * game_count teams ∧
     (∀ k, 1 ≤ k → team_count teams ≤ 2 * 2 ^ k → game_count teams ≤ 2 ^ k) ∧
     byes teams = 2 * game_count teams - team_count teams ∧
     2 * game_count teams = team_count teams + byes teams ∧
     0 ≤ byes teams ∧
     round_count teams = Z.log2 (game_count teams) + 1 ∧
     ∃ b, createBracket teams = Ok b ∧
          Z.of_nat (length (rounds b)) = round_count teams ∧
          (∃ r1, rounds b !! 0%nat = Some r1 ∧
                 Z.of_nat (length r1) = game_count teams) ∧
          canceled b = false) ∧
  (team_count teams < 4 →
     createBracket teams = Ok {| games := ∅; rounds := [] |} ∧
     canceled {| games := ∅; rounds := [] |} = true) ∧
  (∀ b, canceled b = true ↔ rounds b = []).
Proof.
  split_and!.
  - intros H4. destruct (game_count_spec teams) as (k & Hk & Hg & Hle & Hmin).
    pose proof (byes_bounds teams H4) as [HgN HB].
    destruct (round_count_spec teams) as [Hrc _].
    split_and!; [by exists k|done| |unfold byes; lia|unfold byes; lia|lia|done|].
    + intros k' Hk' Hfit. rewrite Hg in *.
      destruct Hmin as [->|Hlt]; [apply Z.pow_le_mono_r; lia|].
      apply Z.pow_le_mono_r; [lia|].
      assert (2 ^ k < 2 ^ (k' + 1)) as Hpow.
      { rewrite Z.pow_add_r by lia. change (2 ^ 1) with 2. lia. }
      apply Z.pow_lt_mono_r_iff in Hpow; lia.
    + destruct (createBracket_games teams H4) as (b & Hb & Hlen & Hrs & _).
      exists b. split_and!; [done|lia| |].
      * specialize (Hrs 1 ltac:(lia)). apply at_index_Some in Hrs as [_ Hrs].
        eexists. split; [exact Hrs|].
        rewrite length_seqZ, (round_size_1 teams).
        pose proof (game_count_even teams). lia.
      * unfold canceled. apply bool_decide_eq_false_2. lia.
  - intros Hlt. unfold createBracket.
    by destruct (Z.ltb_spec (team_count teams) 4); [|lia].
  - intros b. unfold canceled. rewrite bool_decide_eq_true.
    by destruct (rounds b).
Qed.


(** C4: in a bracket built from four teams or more, the ids read round
    after round are 1, 2, 3, ..., those of round 1 being 1 to
    [game_count]; a game of round 1 has no predecessor and two teams; a
    game at index [i] of a later round has for predecessors the games at
    indices [2 * i] and [2 * i + 1] of the round before, each of which
    has it for successor; and the only game without a successor is the
    last one, the single game of the last round. *)
Theorem bracket_structure (teams : list Team.t) :
  4 ≤ team_count teams →
  ∃ b, createBracket teams = Ok b ∧
    concat (rounds b) = seqZ 1 (2 * game_count teams - 1) ∧
    at_index (rounds b) 0 = Some (seqZ 1 (game_count teams)) ∧
    (∀ id, is_Some (games b !! id) ↔ id ∈ concat (rounds b)) ∧
    (∀ i id, game_at b 1 i = Some id →
       ∃ game, games b !! id = Some game ∧
         Game.id game = id ∧ Game.round game = 1 ∧
         Game.previous_games game = [] ∧ length (Game.teams game) = 2%nat) ∧
    (∀ r i id, 2 ≤ r → game_at b r i = Some id →
       ∃ game p1 p2 g1 g2,
         games b !! id = Some game ∧ Game.id game = id ∧ Game.round game = r ∧
         game_at b (r - 1) (2 * i) = Some p1 ∧
         game_at b (r - 1) (2 * i + 1) = Some p2 ∧
         Game.previous_games game = [p1; p2] ∧
         games b !! p1 = Some g1 ∧ Game.next_game g1 = Some id ∧
         games b !! p2 = Some g2 ∧ Game.next_game g2 = Some id) ∧
    (∀ id game, games b !! id = Some game →
       (Game.next_game game = None ↔ id = 2 * game_count teams - 1)) ∧
    at_index (rounds b) (round_count teams - 1) = Some [2 * game_count teams - 1].
Proof.
  intros H4.
  destruct (createBracket_games teams H4) as (b & Hb & Hlen & Hrs & Hgs & Hnone).
  destruct (round_count_spec teams) as [Hrc _].
  pose proof (game_at_Some teams b) as Hat.
  pose proof (rounds_concat teams b Hlen Hrs) as Hcat.
  pose proof (first_id_last teams) as Hlast. rewrite (round_size_last teams) in Hlast.
  exists b. split_and!; [done|done| | | | | |].
  - change 0 with (1 - 1). rewrite (Hrs 1) by lia.
    by rewrite (first_id_1 teams), (round_size_1 teams).
  - intros id. rewrite Hcat, elem_of_seqZ. split.
    + intros [game Hgame]. destruct (decide (id < 1 ∨ 2 * game_count teams ≤ id)) as [Hout|]; [|lia].
      rewrite (Hnone id Hout) in Hgame. done.
    + intros Hid. destruct (id_round_index teams id) as (j & i & Hj & Hi & ->); [lia|].
      rewrite (Hgs j i Hj Hi). by eexists.
  - intros i id (Hr & Hi & ->)%Hat; [|done..].
    rewrite (Hgs 1 i Hr Hi). eexists. split; [done|].
    unfold bracket_game, expected_game. cbn.
    rewrite (first_id_1 teams). split_and!; [lia|done|done|].
    rewrite (round_size_1 teams) in Hi.
    destruct (seats_spec teams H4 (call_order teams i)) as (x & y & _ & _ & ->);
      [by apply call_order_range|done].
  - intros r i id Hr2 (Hr & Hi & ->)%Hat; [|done..].
    pose proof (round_size_step teams (r - 1) ltac:(lia)) as Hsz.
    replace (r - 1 + 1) with r in Hsz by lia.
    rewrite (Hgs r i Hr Hi).
    assert (Hp : ∀ d, 0 ≤ d ≤ 1 →
      game_at b (r - 1) (2 * i + d) = Some (first_id teams (r - 1) + (i * 2 + d)) ∧
      ∃ g1, games b !! (first_id teams (r - 1) + (i * 2 + d)) = Some g1 ∧
            Game.next_game g1 = Some (first_id teams r + i)).
    { intros d Hd. split.
      - apply Hat; [done..|]. split_and!; lia.
      - rewrite (Hgs (r - 1) (i * 2 + d)) by lia. eexists. split; [done|].
        unfold bracket_game, expected_game.
        assert (next_link teams (round_count teams) 1 (r - 1) (i * 2 + d)
                = Some (first_id teams r + i)) as Hn.
        { rewrite (next_link_final teams) by lia.
          destruct (Z.ltb_spec (r - 1) (round_count teams)); [|lia].
          replace (r - 1 + 1) with r by lia. do 2 f_equal. lia. }
        rewrite Hn. by destruct (r - 1 =? 1). }
    destruct (Hp 0 ltac:(lia)) as (Hp1 & g1 & Hg1 & Hn1).
    destruct (Hp 1 ltac:(lia)) as (Hp2 & g2 & Hg2 & Hn2).
    rewrite !Z.add_0_r in *.
    exists (bracket_game teams r i), (first_id teams (r - 1) + i * 2),
      (first_id teams (r - 1) + (i * 2 + 1)), g1, g2.
    assert (bracket_game teams r i
            = later_game teams r i (next_link teams (round_count teams) 1 r i)) as Hlater.
    { unfold bracket_game, expected_game. by destruct (Z.eqb_spec r 1); [lia|]. }
    split_and!; try done; by rewrite Hlater.
  - intros id game Hgame.
    destruct (decide (id < 1 ∨ 2 * game_count teams ≤ id)) as [Hout|Hin].
    { by rewrite (Hnone id Hout) in Hgame. }
    destruct (id_round_index teams id) as (j & i & Hj & Hi & ->); [lia|].
    rewrite (Hgs j i Hj Hi) in Hgame. injection Hgame as <-.
    assert (Game.next_game (bracket_game teams j i)
            = next_link teams (round_count teams) 1 j i) as ->.
    { unfold bracket_game, expected_game. by destruct (j =? 1). }
    rewrite (next_link_final teams) by done.
    destruct (Z.ltb_spec j (round_count teams)) as [Hlt|Hge].
    + pose proof (first_id_next teams j (round_count teams) ltac:(lia)).
      split; [done|lia].
    + assert (j = round_count teams) as -> by lia.
      rewrite (round_size_last teams) in Hi. split; [lia|done].
  - rewrite (Hrs (round_count teams)) by lia.
    rewrite (round_size_last teams), seqZ_cons, seqZ_nil by lia.
    do 2 f_equal. lia.
Qed.

(** The layout of a bracket.  A game at position [i] of round 1 has
    row [i * 2] and keeps the column [-1] it was constructed with; a
    game at index [i] of a round [r] from 2 on has column
    [2 * (r - 1)] and row [base + (game_count / round_games) * i * 2],
    where [round_games] is the number of games of the round and [base]
    is [2 ^ (r - 1) - 1]: it is 0 for round 1 and the base of round [r]
    is that of round [r - 1] plus [2 ^ (r - 2)]. *)
Lemma bracket_layout (teams : list Team.t) :
  4 ≤ team_count teams →
  ∃ b, createBracket teams = Ok b ∧
    (∀ i id, game_at b 1 i = Some id →
       ∃ game, games b !! id = Some game ∧
         Game.row game = i * 2 ∧ Game.col game = -1) ∧
    (∀ r i id, 2 ≤ r → game_at b r i = Some id →
       ∃ game ids, games b !! id = Some game ∧
         at_index (rounds b) (r - 1) = Some ids ∧
         2 * Z.of_nat (length ids) * 2 ^ (r - 2) = game_count teams ∧
         Game.col game = 2 * (r - 1) ∧
         Game.row game =
           base_row r + (game_count teams / Z.of_nat (length ids)) * i * 2) ∧
    base_row 1 = 0 ∧
    (∀ r, 2 ≤ r → base_row r = base_row (r - 1) + 2 ^ (r - 2)).
Proof.
  intros H4.
  destruct (createBracket_games teams H4) as (b & Hb & Hlen & Hrs & Hgs & Hnone).
  destruct (round_count_spec teams) as [Hrc Hg].
  pose proof (game_at_Some teams b) as Hat.
  exists b. split_and!; [done| | |done|].
  - intros i id (Hr & Hi & ->)%Hat; [|done..].
    rewrite (Hgs 1 i Hr Hi). eexists. split; [done|].
    by unfold bracket_game, expected_game.
  - intros r i id Hr2 (Hr & Hi & ->)%Hat; [|done..].
    rewrite (Hgs r i Hr Hi), (Hrs r Hr). eexists _, _. split; [done|].
    split; [done|]. rewrite length_seqZ.
    pose proof (round_size_pos teams r ltac:(lia)).
    replace (Z.of_nat (Z.to_nat (round_size teams r))) with (round_size teams r)
      by lia.
    unfold bracket_game, expected_game.
    destruct (Z.eqb_spec r 1); [lia|]. split_and!; [|done|done].
    rewrite Hg. unfold round_size.
    replace (round_count teams - 1) with (1 + (round_count teams - r) + (r - 2))
      by lia.
    rewrite !Z.pow_add_r by lia. change (2 ^ 1) with 2. lia.
  - intros r Hr. unfold base_row. replace (r - 1) with (r - 2 + 1) at 1 by lia.
    replace (r - 1 - 1) with (r - 2) by lia.
    rewrite Z.pow_add_r by lia. change (2 ^ 1) with 2. lia.
Qed.

(** C5 at four teams: the two games of round 1 are built with rows 0
    and 2 and are left with column [-1], not 0; the final has column 2
    and row 1. *)
Lemma four_teams_layout :
  ∃ b, createBracket (demo_teams 4) = Ok b ∧
    (Game.col <$> games b !! 1) = Some (-1) ∧ (Game.row <$> games b !! 1) = Some 0 ∧
    (Game.col <$> games b !! 2) = Some (-1) ∧ (Game.row <$> games b !! 2) = Some 2 ∧
    (Game.col <$> games b !! 3) = Some 2 ∧ (Game.row <$> games b !! 3) = Some 1.
Proof. eexists. split; [vm_compute; reflexivity|]. by vm_compute. Qed.


Lemma createBracket_sizes_witness :
  4 ≤ team_count (demo_teams 5) ∧
  game_count (demo_teams 5) ≤ 2 ^ 2 ∧
  ∃ b, createBracket (demo_teams 5) = Ok b ∧ canceled b = false.
Proof.
  assert (H4 : 4 ≤ team_count (demo_teams 5)) by (vm_compute; discriminate).
  destruct (proj1 (createBracket_sizes (demo_teams 5)) H4)
    as (_ & _ & Hmin & _ & _ & _ & _ & b & Hb & _ & _ & Hc).
  split; [exact H4|]. split.
  - apply Hmin; [lia|]. vm_compute. discriminate.
  - exists b. split; assumption.
Defined.

Lemma bracket_structure_witness :
  4 ≤ team_count (demo_teams 5) ∧
  ∃ b, createBracket (demo_teams 5) = Ok b ∧
       concat (rounds b) = seqZ 1 (2 * game_count (demo_teams 5) - 1).
Proof.
  assert (H4 : 4 ≤ team_count (demo_teams 5)) by (vm_compute; discriminate).
  split; [exact H4|].
  destruct (bracket_structure (demo_teams 5) H4) as (b & Hb & Hcat & _).
  exists b. split; assumption.
Defined.

End BracketClaims.

(** ** Properties of [Game.start] *)

Section AdvanceFacts.

Local Open Scope Z_scope.

Context (isBot : string → bool).

(** *** Single calls *)

Lemma with_teams_id (x : Game.t) : with_teams (Game.teams x) x = x.
Proof. by destruct x. Qed.

(** A game none of whose teams is [Team.bye] has no bye. *)
Lemma bye_None (x : Game.t) : Team.bye ∉ Game.teams x → Game.bye x = None.
Proof.
  intros Hreal. unfold Game.bye.
  destruct (decide (Game.teams x !! 0%nat = Some Team.bye)) as [H0|_].
  { exfalso. apply Hreal. by eapply list_elem_of_lookup_2. }
  destruct (decide (Game.teams x !! 1%nat = Some Team.bye)) as [H1|_]; [|done].
  exfalso. apply Hreal. by eapply list_elem_of_lookup_2.
Qed.

(** A game that holds a team and [Team.bye] has that team for bye. *)
Lemma bye_second (x : Game.t) a :
  Game.teams x = [a; Team.bye] → a ≠ Team.bye → Game.bye x = Some a.
Proof.
  intros Hx Ha. unfold Game.bye. rewrite Hx. cbn.
  destruct (decide (Some a = Some Team.bye)) as [[= ->]|_]; [done|].
  by destruct (decide (Some Team.bye = Some Team.bye)).
Qed.

(** A game of two teams without a bye holds no [Team.bye]. *)
Lemma bye_None_inv (x : Game.t) :
  length (Game.teams x) = 2%nat → Game.bye x = None → Team.bye ∉ Game.teams x.
Proof.
  unfold Game.bye. destruct (Game.teams x) as [|a [|b [|c ts]]]; try done. cbn.
  intros _ Hbye Hin.
  destruct (decide (Some a = Some Team.bye)) as [|Ha]; [done|].
  destruct (decide (Some b = Some Team.bye)) as [|Hb]; [done|].
  apply elem_of_cons in Hin as [Hin|Hin]; [congruence|].
  apply elem_of_cons in Hin as [Hin|Hin]; [congruence|].
  by apply elem_of_nil in Hin.
Qed.

Lemma table_of_length a b : length (table_of a b) = 4%nat.
Proof. by destruct a, b. Qed.

(** [start] on a game without a bye: nothing with fewer than two
    teams, one more room otherwise, whatever was made before. *)
Lemma start_plain fuel id (x : Game.t) w :
  w_games w !! id = Some x → Team.bye ∉ Game.teams x →
  start isBot (S fuel) id w
  = Ok (if (length (Game.teams x) <? 2)%nat then w else opened id x w).
Proof.
  intros Hx Hreal. cbn [start]. rewrite Hx. cbn. rewrite (bye_None x Hreal).
  destruct (Nat.leb_spec (length (Game.teams x)) 1) as [|Hlen]; [done|].
  destruct (Game.teams x) as [|a [|b ts]] eqn:Hts; cbn in Hlen; [lia|lia|].
  cbn. unfold opened, room_for. by rewrite Hts.
Qed.


Lemma start_settle fuel id (x : Game.t) w :
  w_games w !! id = Some x → Team.bye ∉ Game.teams x →
  start isBot (S fuel) id w = Ok (settle id w).
Proof. intros Hx Hreal. unfold settle. rewrite Hx. by apply start_plain. Qed.

(** [start] on a game with a bye: the team that has it goes to the
    next game, which is started in turn. *)
Lemma start_bye fuel id (x : Game.t) a next w :
  w_games w !! id = Some x → Game.bye x = Some a → Game.next_game x = Some next →
  start isBot (S fuel) id w
  = start isBot fuel next (push_into next a (announce isBot (Game.round x) a w)).
Proof. intros Hx Ha Hn. cbn [start]. rewrite Hx. cbn. by rewrite Ha, Hn. Qed.

Lemma at_index_elem {A} (l : list A) i x : at_index l i = Some x → x ∈ l.
Proof. intros [_ Hx]%at_index_Some. by eapply list_elem_of_lookup_2. Qed.

Lemma announce_fields round bye w :
  w_games (announce isBot round bye w) = w_games w ∧
  w_rounds (announce isBot round bye w) = w_rounds w ∧
  w_rooms (announce isBot round bye w) = w_rooms w.
Proof.
  unfold announce. generalize (Team.users bye). intros us. revert w.
  induction us as [|u us IH]; intros w; cbn [foldl]; [done|].
  destruct (isBot u); [apply IH|].
  destruct (IH (emit (announceBye round u) w)) as (-> & -> & ->). done.
Qed.

(** *** What every state keeps *)

Section Sound.

Context (teams : list Team.t).
Hypothesis enough_teams : 4 ≤ team_count teams.
Hypothesis real_teams : Team.bye ∉ teams.

Local Abbreviation g := (game_count teams).
Local Abbreviation rc := (round_count teams).
Local Abbreviation size := (round_size teams).
Local Abbreviation first := (first_id teams).
Local Abbreviation sound := (sound teams).

Lemma sound_same w w' :
  w_games w' = w_games w → w_rounds w' = w_rounds w → w_rooms w' = w_rooms w →
  sound w → sound w'.
Proof.
  intros Hg Hr Hm [H1 H2 H3 H4 H5]. split; rewrite ?Hg, ?Hr, ?Hm; done.
Qed.

Lemma sound_emit e w : sound w → sound (emit e w).
Proof. by apply sound_same. Qed.

Lemma sound_announce round bye w : sound w → sound (announce isBot round bye w).
Proof.
  destruct (announce_fields round bye w) as (Hg & Hr & Hm). by apply sound_same.
Qed.

Lemma sound_close_room k w : sound w → sound (close_room k w).
Proof.
  intros [H1 H2 H3 H4 H5]. split; try done. cbn [close_room w_rooms w_games].
  intros room Hroom. apply list_elem_of_lookup in Hroom as [n Hn].
  destruct (decide (k = n)) as [->|Hne].
  - rewrite list_lookup_alter_eq in Hn.
    destruct (w_rooms w !! n) as [room0|] eqn:Hroom0; [|done].
    injection Hn as <-. cbn. apply H5. by eapply list_elem_of_lookup_2.
  - rewrite list_lookup_alter_ne in Hn by done.
    apply H5. by eapply list_elem_of_lookup_2.
Qed.

Lemma sound_add_room room (x : Game.t) w :
  w_games w !! room_game room = Some x → Team.bye ∉ Game.teams x →
  (2 ≤ length (Game.teams x))%nat → length (room_table room) = 4%nat →
  sound w → sound (add_room room w).
Proof.
  intros Hx Hreal Hlen Htab [H1 H2 H3 H4 H5]. split; try done.
  cbn [add_room w_rooms w_games].
  intros room' [Hroom|Hroom%list_elem_of_singleton]%elem_of_app; [by apply H5|].
  subst room'. by exists x.
Qed.

Lemma sound_opened id (x : Game.t) w :
  w_games w !! id = Some x → Team.bye ∉ Game.teams x →
  (2 ≤ length (Game.teams x))%nat →
  sound w → sound (opened id x w).
Proof.
  intros Hx Hreal Hlen Hw. apply sound_emit.
  apply (sound_add_room _ x); try done. apply table_of_length.
Qed.

(** A team that is not [Team.bye] pushed into a game of a later
    round. *)
Lemma sound_push j i (x : Team.t) w :
  2 ≤ j ≤ rc → 0 ≤ i < size j → x ≠ Team.bye →
  sound w → sound (push_into (first j + i) x w).
Proof.
  intros Hj Hi Hx [H1 H2 H3 H4 H5]. split; try done; cbn [push_into w_games w_rooms].
  - intros j' i' Hj' Hi'. destruct (H3 j' i' Hj' Hi') as (ts & Hts & Hr1 & Hlater).
    destruct (decide (first j + i = first j' + i')) as [Heq|Hne].
    + apply (id_round_index_inj teams) in Heq as [<- <-]; [|lia|done..].
      exists (ts ++ [x]). rewrite lookup_alter_eq, Hts. split_and!; [done| |].
      { intros ->. lia. }
      intros _ [Hin|Hin%list_elem_of_singleton]%elem_of_app;
        [apply Hlater; [lia|done]|congruence].
    + exists ts. by rewrite lookup_alter_ne.
  - intros id Hid. rewrite lookup_alter_ne; [by apply H4|].
    pose proof (first_id_mono teams 1 j ltac:(lia)) as Hm.
    rewrite (first_id_1 teams) in Hm.
    pose proof (first_id_next teams j rc) as Hn.
    pose proof (first_id_last teams). pose proof (round_size_last teams).
    destruct (decide (j = rc)) as [->|]; lia.
  - intros room Hroom. destruct (H5 room Hroom) as (y & Hy & Hreal & Hlen & Htab).
    destruct (decide (first j + i = room_game room)) as [Heq|Hne].
    + rewrite <- Heq, lookup_alter_eq, Heq, Hy. cbn. eexists. split; [done|].
      cbn. rewrite length_app. split_and!; [|lia|done].
      intros [Hin|Hin%list_elem_of_singleton]%elem_of_app;
        [by apply Hreal|congruence].
    + exists y. by rewrite lookup_alter_ne.
Qed.


(** *** The games of the first round *)

Lemma bracket_game_next j i :
  1 ≤ j ≤ rc → 0 ≤ i < size j →
  Game.next_game (bracket_game teams j i)
  = if j <? rc then Some (first (j + 1) + i / 2) else None.
Proof.
  intros Hj Hi. rewrite <- (next_link_final teams) by done.
  unfold bracket_game, expected_game. by destruct (j =? 1).
Qed.

Lemma round1_teams i :
  0 ≤ i < g →
  ∃ a b, Game.teams (bracket_game teams 1 i) = [a; b] ∧ a ≠ Team.bye ∧
    (call_order teams i < byes teams → b = Team.bye) ∧
    (byes teams ≤ call_order teams i → b ≠ Team.bye).
Proof.
  intros Hi. pose proof (call_order_range teams i Hi) as Hc.
  destruct (seats_spec teams enough_teams _ Hc) as (a & b & Ha & Hb & Hab).
  exists a, b. split_and!.
  - done.
  - intros ->. apply real_teams. by eapply at_index_elem.
  - intros Hlt. unfold second_seat in Hb.
    destruct (Z.ltb_spec (call_order teams i) (byes teams)); [congruence|lia].
  - intros Hge ->. unfold second_seat in Hb.
    destruct (Z.ltb_spec (call_order teams i) (byes teams)); [lia|].
    apply real_teams. by eapply at_index_elem.
Qed.

(** A first-round game holds [Team.bye] exactly when the call that
    filled it still had byes to hand out. *)
Lemma round1_bye i :
  0 ≤ i < g →
  Game.bye (bracket_game teams 1 i)
  = if call_order teams i <? byes teams
    then Game.teams (bracket_game teams 1 i) !! 0%nat else None.
Proof.
  intros Hi. destruct (round1_teams i Hi) as (a & b & Hab & Ha & Hbye & Hreal).
  destruct (Z.ltb_spec (call_order teams i) (byes teams)) as [Hlt|Hge].
  - rewrite (Hbye Hlt) in Hab. rewrite Hab. by apply bye_second.
  - apply bye_None. rewrite Hab. specialize (Hreal Hge). intros Hin.
    apply elem_of_cons in Hin as [Hin|Hin]; [congruence|].
    apply elem_of_cons in Hin as [Hin|Hin]; [congruence|].
    by apply elem_of_nil in Hin.
Qed.

(** *** [start] and [gameOver] keep the state sound and return *)

Lemma sound_lookup id (x : Game.t) w :
  sound w → w_games w !! id = Some x →
  ∃ j i ts, 1 ≤ j ≤ rc ∧ 0 ≤ i < size j ∧ id = first j + i ∧
    x = with_teams ts (bracket_game teams j i) ∧
    (j = 1 → ts = Game.teams (bracket_game teams 1 i)) ∧
    (2 ≤ j → Team.bye ∉ ts).
Proof.
  intros Hw Hx.
  destruct (decide (id < 1 ∨ 2 * g ≤ id)) as [Hout|Hin].
  { by rewrite (sound_none _ _ Hw id Hout) in Hx. }
  destruct (id_round_index teams id) as (j & i & Hj & Hi & ->); [lia|].
  destruct (sound_games _ _ Hw j i Hj Hi) as (ts & Hts & H1 & H2).
  exists j, i, ts. split_and!; try done; try lia. congruence.
Qed.

Lemma sound_settle id (x : Game.t) w :
  w_games w !! id = Some x → Team.bye ∉ Game.teams x →
  sound w → sound (settle id w).
Proof.
  intros Hx Hreal Hw. unfold settle. rewrite Hx.
  destruct (Nat.ltb_spec (length (Game.teams x)) 2) as [|Hlen]; [done|].
  by apply (sound_opened _ _ _ Hx).
Qed.

(** [start] on any game of a sound state returns, in a sound state: a
    first-round game with a bye hands its team to the next game and
    settles that one; any other game is settled itself. *)
Lemma start_sound fuel j i w :
  sound w → 1 ≤ j ≤ rc → 0 ≤ i < size j → (2 ≤ fuel)%nat →
  ∃ w', start isBot fuel (first j + i) w = Ok w' ∧ sound w' ∧
    ((j = 1 ∧ call_order teams i < byes teams ∧
      ∃ a, Game.teams (bracket_game teams 1 i) !! 0%nat = Some a ∧ a ≠ Team.bye ∧
        w' = settle (first 2 + i / 2)
               (push_into (first 2 + i / 2) a (announce isBot 1 a w))) ∨
     (¬ (j = 1 ∧ call_order teams i < byes teams) ∧
      w' = settle (first j + i) w)).
Proof.
  intros Hw Hj Hi Hfuel.
  destruct (round_count_spec teams) as [Hrc _].
  destruct fuel as [|[|fuel]]; [lia|lia|].
  destruct (sound_games _ _ Hw j i Hj Hi) as (ts & Hx & H1 & H2).
  destruct (decide (j = 1 ∧ call_order teams i < byes teams)) as [[-> Hbye]|Hplain].
  - (* a first-round game with a bye *)
    rewrite (round_size_1 teams) in Hi.
    rewrite (H1 eq_refl), with_teams_id in Hx.
    destruct (round1_teams i Hi) as (a & b & Hab & Ha & _).
    pose proof (round1_bye i Hi) as Hb.
    destruct (Z.ltb_spec (call_order teams i) (byes teams)); [|lia].
    rewrite Hab in Hb. change ([a; b] !! 0%nat) with (Some a) in Hb.
    pose proof (bracket_game_next 1 i ltac:(lia)) as Hnext.
    rewrite (round_size_1 teams) in Hnext. specialize (Hnext Hi).
    destruct (Z.ltb_spec 1 rc); [|lia]. change (1 + 1) with 2 in Hnext.
    rewrite (start_bye _ _ _ _ _ _ Hx Hb Hnext).
    assert (Game.round (bracket_game teams 1 i) = 1) as -> by done.
    set (w1 := push_into (first 2 + i / 2) a (announce isBot 1 a w)).
    assert (Hw1 : sound w1).
    { apply sound_push; [lia| |done|by apply sound_announce].
      apply (built_half teams 1 i); [lia|]. by rewrite (round_size_1 teams). }
    destruct (sound_games _ _ Hw1 2 (i / 2)) as (ts2 & Hx2 & _ & Hreal2); [lia| |].
    { apply (built_half teams 1 i); [lia|]. by rewrite (round_size_1 teams). }
    rewrite (start_settle _ _ _ _ Hx2) by (apply Hreal2; lia).
    eexists. split; [done|]. split.
    + apply (sound_settle _ _ _ Hx2); [apply Hreal2; lia|done].
    + left. split_and!; [done..|]. exists a. by rewrite Hab.
  - (* any other game *)
    assert (Hreal : Team.bye ∉ ts).
    { destruct (decide (j = 1)) as [->|]; [|apply H2; lia].
      rewrite (round_size_1 teams) in Hi. rewrite (H1 eq_refl).
      apply (bye_None_inv (bracket_game teams 1 i)).
      - by destruct (round1_teams i Hi) as (a & b & -> & _).
      - rewrite (round1_bye i Hi).
        destruct (Z.ltb_spec (call_order teams i) (byes teams)); [|done].
        destruct Hplain. by split. }
    rewrite (start_settle _ _ _ _ Hx) by done.
    eexists. split; [done|]. split; [|by right].
    by apply (sound_settle _ _ _ Hx).
Qed.


Lemma winners_of_new room a b winners :
  winners_of room a b = Ok winners → winners ≠ Team.bye.
Proof.
  unfold winners_of.
  destruct (at_index (room_table room) a); [|done].
  destruct (at_index (room_table room) b); [|done].
  cbn. by intros [= <-].
Qed.

(** The handler of a room that is still open, with winner indices
    that name seats of its table: the winners go to the next game,
    which is settled, or the tournament is over. *)
Lemma gameOver_sound fuel k a b room winners w :
  sound w → (2 ≤ fuel)%nat →
  w_rooms w !! k = Some room → room_over room = false →
  winners_of room a b = Ok winners →
  ∃ j i, 1 ≤ j ≤ rc ∧ 0 ≤ i < size j ∧ room_game room = first j + i ∧
    gameOver isBot fuel k a b w
    = Ok (if j <? rc
          then settle (first (j + 1) + i / 2)
                 (push_into (first (j + 1) + i / 2) winners (close_room k w))
          else emit (tournamentOver winners k) (close_room k w)) ∧
    sound (if j <? rc
           then settle (first (j + 1) + i / 2)
                  (push_into (first (j + 1) + i / 2) winners (close_room k w))
           else emit (tournamentOver winners k) (close_room k w)).
Proof.
  intros Hw Hfuel Hroom Hopen Hwin.
  pose proof (winners_of_new _ _ _ _ Hwin) as Hnew.
  destruct fuel as [|fuel]; [lia|].
  destruct (sound_rooms _ _ Hw room) as (x & Hx & Hreal & Hlen & Htab).
  { by eapply list_elem_of_lookup_2. }
  destruct (sound_lookup _ _ _ Hw Hx) as (j & i & ts & Hj & Hi & Hid & -> & _).
  exists j, i. split_and!; [lia|lia|lia|lia|done| |].
  - unfold gameOver. rewrite Hroom. cbn [mbind result_bind or_throw].
    rewrite Hopen, Hwin. cbn [mbind result_bind]. unfold advance.
    cbn [close_room w_games]. rewrite Hx. cbn [mbind result_bind or_throw].
    cbn [with_teams Game.next_game]. rewrite bracket_game_next by done.
    destruct (Z.ltb_spec j rc) as [Hlt|Hge]; [|done].
    set (w1 := push_into _ winners _).
    assert (Hw1 : sound w1).
    { apply sound_push; [lia|by apply built_half|done|by apply sound_close_room]. }
    destruct (sound_games _ _ Hw1 (j + 1) (i / 2)) as (ts2 & Hx2 & _ & Hreal2);
      [lia|by apply built_half|].
    apply (start_settle _ _ _ _ Hx2). apply Hreal2. lia.
  - destruct (Z.ltb_spec j rc) as [Hlt|Hge].
    + set (w1 := push_into _ winners _).
      assert (Hw1 : sound w1).
      { apply sound_push; [lia|by apply built_half|done|by apply sound_close_room]. }
      destruct (sound_games _ _ Hw1 (j + 1) (i / 2)) as (ts2 & Hx2 & _ & Hreal2);
        [lia|by apply built_half|].
      apply (sound_settle _ _ _ Hx2); [|done]. apply Hreal2. lia.
    + by apply sound_emit, sound_close_room.
Qed.

(** Every step keeps the state sound. *)
Lemma step_sound w w' : sound w → step isBot w w' → sound w'.
Proof.
  intros Hw Hstep. destruct (round_count_spec teams) as [Hrc _].
  assert (Hdepth : (2 ≤ depth w)%nat).
  { unfold depth. rewrite (sound_length _ _ Hw). lia. }
  destruct Hstep as [id w' [x Hx] Hstart|k a b w' Hover|k a b room e Hroom Hopen Hthrow].
  - destruct (sound_lookup _ _ _ Hw Hx) as (j & i & ts & Hj & Hi & -> & _).
    destruct (start_sound (depth w) j i w Hw Hj Hi Hdepth) as (w'' & Hw'' & Hs & _).
    congruence.
  - unfold gameOver in Hover.
    destruct (w_rooms w !! k) as [room|] eqn:Hroom; [|done].
    cbn [mbind result_bind or_throw] in Hover.
    destruct (room_over room) eqn:Hopen; [congruence|].
    destruct (winners_of room a b) as [winners|] eqn:Hwin; [|done].
    destruct (gameOver_sound (depth w) k a b room winners w)
      as (j & i & _ & _ & _ & Hok & Hs); [done..|].
    unfold gameOver in Hok. rewrite Hroom in Hok.
    cbn [mbind result_bind or_throw] in Hok. rewrite Hopen, Hwin in Hok.
    congruence.
  - by apply sound_close_room.
Qed.

Lemma steps_sound w w' : sound w → rtc (step isBot) w w' → sound w'.
Proof. intros Hw Hsteps. induction Hsteps; eauto using step_sound. Qed.

(** The world a tournament starts in. *)
Lemma sound_world_of b :
  createBracket teams = Ok b → sound (world_of b).
Proof.
  intros Hb.
  destruct (createBracket_games teams enough_teams)
    as (b' & Hb' & Hlen & Hrs & Hgs & Hnone).
  assert (b' = b) as -> by congruence.
  split; cbn [world_of w_games w_rounds w_rooms]; try done.
  - intros j i Hj Hi. exists (Game.teams (bracket_game teams j i)).
    rewrite with_teams_id. split_and!; [by apply Hgs|by intros ->|].
    intros Hj2. unfold bracket_game, expected_game.
    destruct (Z.eqb_spec j 1); [lia|]. apply not_elem_of_nil.
  - intros room Hroom. by apply elem_of_nil in Hroom.
Qed.

End Sound.


(** C9: with teams that are not [Team.bye], there are fewer byes than
    first-round games, and in every state a tournament can reach a game
    holds [Team.bye] at most in its second seat, and only in round 1;
    the first seat of a first-round game is a team of the list; and the
    team that has a bye, the one handed to the next game, is never
    [Team.bye]. *)
Theorem bye_only_second_seat_of_round1 (teams : list Team.t) :
  4 ≤ team_count teams → Team.bye ∉ teams →
  byes teams < game_count teams ∧
  ∃ b, createBracket teams = Ok b ∧
    ∀ w, rtc (step isBot) (world_of b) w →
      ∀ id x, w_games w !! id = Some x →
        (∀ n, Game.teams x !! n = Some Team.bye → n = 1%nat ∧ Game.round x = 1) ∧
        (Game.round x = 1 → ∃ a, Game.teams x !! 0%nat = Some a ∧ a ∈ teams) ∧
        (2 ≤ Game.round x → Team.bye ∉ Game.teams x) ∧
        (∀ a, Game.bye x = Some a → a ≠ Team.bye).
Proof.
  intros H4 Hreal. split; [apply (byes_bounds teams H4)|].
  destruct (createBracket_games teams H4) as (b & Hb & _).
  exists b. split; [done|]. intros w Hsteps id x Hx.
  pose proof (steps_sound teams H4 Hreal _ _ (sound_world_of teams H4 b Hb) Hsteps)
    as Hw.
  destruct (sound_lookup teams _ _ _ Hw Hx)
    as (j & i & ts & Hj & Hi & -> & -> & H1 & H2).
  assert (Hround : Game.round (with_teams ts (bracket_game teams j i)) = j).
  { unfold bracket_game, expected_game. cbn. by destruct (Z.eqb_spec j 1) as [->|]. }
  rewrite Hround. cbn [with_teams Game.teams].
  destruct (decide (j = 1)) as [->|Hj1].
  - rewrite (round_size_1 teams) in Hi. rewrite (H1 eq_refl), with_teams_id.
    destruct (round1_teams teams H4 Hreal i Hi) as (a & c & Hac & Ha & Hbye & Hnot).
    pose proof (call_order_range teams i Hi) as Hc.
    destruct (seats_spec teams H4 _ Hc) as (a' & c' & Ha' & _ & Hac').
    assert (a' = a) as ->.
    { unfold bracket_game, expected_game in Hac. cbn in Hac. congruence. }
    split_and!.
    + rewrite Hac. intros [|[|n]] Hn; cbn in Hn; [congruence|done|done].
    + intros _. rewrite Hac. exists a. split; [done|]. by eapply at_index_elem.
    + lia.
    + intros a0. rewrite (round1_bye teams H4 Hreal i Hi), Hac.
      destruct (call_order teams i <? byes teams); [|done]. cbn. congruence.
  - assert (Hts : Team.bye ∉ ts) by (apply H2; lia). split_and!.
    + intros n Hn. destruct Hts. by eapply list_elem_of_lookup_2.
    + lia.
    + done.
    + intros a. by rewrite (bye_None (with_teams ts (bracket_game teams j i))).
Qed.


(** The two games filled by turn [i] of the populate loop. *)
Lemma populate_turn (teams : list Team.t) b i :
  4 ≤ team_count teams → createBracket teams = Ok b →
  0 ≤ i < game_count teams / 2 →
  ∃ top bot t1 t2 s1 s2,
    games b !! (i + 1) = Some top ∧
    games b !! (game_count teams - i) = Some bot ∧
    Game.id top = i + 1 ∧ Game.id bot = game_count teams - i ∧
    at_index teams (2 * i) = Some t1 ∧ second_seat teams (2 * i) = Some s1 ∧
    at_index teams (2 * i + 1) = Some t2 ∧ second_seat teams (2 * i + 1) = Some s2 ∧
    Game.teams top = [t1; s1] ∧ Game.teams bot = [t2; s2] ∧
    Game.started top = (2 * i <? byes teams) ∧
    Game.finished top = (2 * i <? byes teams) ∧
    Game.started bot = (2 * i + 1 <? byes teams) ∧
    Game.finished bot = (2 * i + 1 <? byes teams).
Proof.
  intros H4 Hb Hi.
  destruct (createBracket_games teams H4) as (b' & Hb' & _ & _ & Hgs & _).
  assert (b' = b) as -> by congruence.
  pose proof (game_count_even teams) as [Heven Hhalf].
  destruct (round_count_spec teams) as [Hrc _].
  pose proof (Hgs 1 i ltac:(lia)) as Htop.
  pose proof (Hgs 1 (game_count teams - 1 - i) ltac:(lia)) as Hbot.
  rewrite (round_size_1 teams), (first_id_1 teams) in Htop, Hbot.
  specialize (Htop ltac:(lia)). specialize (Hbot ltac:(lia)).
  replace (1 + i) with (i + 1) in Htop by lia.
  replace (1 + (game_count teams - 1 - i)) with (game_count teams - i) in Hbot by lia.
  destruct (seats_spec teams H4 (2 * i)) as (t1 & s1 & Ht1 & Hs1 & Hseats1); [lia|].
  destruct (seats_spec teams H4 (2 * i + 1)) as (t2 & s2 & Ht2 & Hs2 & Hseats2); [lia|].
  exists (bracket_game teams 1 i), (bracket_game teams 1 (game_count teams - 1 - i)),
    t1, t2, s1, s2.
  unfold bracket_game, expected_game, round1_game in *. cbn [Z.eqb Pos.eqb] in *.
  rewrite (call_order_top teams i Hi), (call_order_bottom teams i Hi) in *.
  cbn [filled_game Game.id Game.teams Game.started Game.finished].
  rewrite Hseats1, Hseats2. split_and!; try done. lia.
Qed.

(** C3: round 1 of a bracket of four teams or more has the ids 1 to
    [game_count], and turn [i] of the populate loop fills the games at
    positions [i] and [game_count - 1 - i]: their first seats are
    [teams[2 * i]] and [teams[2 * i + 1]], the next two teams from the
    top, and the second seat of the call of rank [c] is [Team.bye] while
    [c < byes], and then the next team from the bottom,
    [teams[N - 1 - (c - byes)]]; a game is built started and finished
    exactly when its second seat is [Team.bye].  For five teams there
    are four games and three byes: games 1, 2 and 4 hold a team and
    [Team.bye], game 3 holds two teams.  When the teams of the list are
    not [Team.bye], no room a tournament makes belongs to a game that
    holds [Team.bye]. *)
Theorem round1_population (teams : list Team.t) :
  4 ≤ team_count teams →
  ∃ b, createBracket teams = Ok b ∧
    at_index (rounds b) 0 = Some (seqZ 1 (game_count teams)) ∧
    (∀ i, 0 ≤ i < game_count teams / 2 →
       ∃ top bot t1 t2 s1 s2,
         games b !! (i + 1) = Some top ∧
         games b !! (game_count teams - i) = Some bot ∧
         Game.id top = i + 1 ∧ Game.id bot = game_count teams - i ∧
         at_index teams (2 * i) = Some t1 ∧ second_seat teams (2 * i) = Some s1 ∧
         at_index teams (2 * i + 1) = Some t2 ∧
         second_seat teams (2 * i + 1) = Some s2 ∧
         Game.teams top = [t1; s1] ∧ Game.teams bot = [t2; s2] ∧
         Game.started top = (2 * i <? byes teams) ∧
         Game.finished top = (2 * i <? byes teams) ∧
         Game.started bot = (2 * i + 1 <? byes teams) ∧
         Game.finished bot = (2 * i + 1 <? byes teams)) ∧
    (team_count teams = 5 →
       game_count teams = 4 ∧ byes teams = 3 ∧
       ∃ t0 t1 t2 t3 t4, teams = [t0; t1; t2; t3; t4] ∧
         (Game.teams <$> games b !! 1) = Some [t0; Team.bye] ∧
         (Game.teams <$> games b !! 2) = Some [t2; Team.bye] ∧
         (Game.teams <$> games b !! 3) = Some [t3; t4] ∧
         (Game.teams <$> games b !! 4) = Some [t1; Team.bye] ∧
         (Game.started <$> games b !! 1) = Some true ∧
         (Game.started <$> games b !! 2) = Some true ∧
         (Game.started <$> games b !! 3) = Some false ∧
         (Game.started <$> games b !! 4) = Some true) ∧
    (Team.bye ∉ teams →
     ∀ w, rtc (step isBot) (world_of b) w →
       ∀ room x, room ∈ w_rooms w → w_games w !! room_game room = Some x →
                 Team.bye ∉ Game.teams x).
Proof.
  intros H4.
  destruct (createBracket_games teams H4) as (b & Hb & _ & Hrs & _).
  destruct (round_count_spec teams) as [Hrc _].
  exists b. split_and!; [done| | | |].
  - change 0 with (1 - 1). rewrite (Hrs 1) by lia.
    by rewrite (first_id_1 teams), (round_size_1 teams).
  - intros i Hi. by apply populate_turn.
  - intros H5.
    assert (length teams = 5%nat) as Hlen by (unfold team_count in H5; lia).
    destruct teams as [|t0 [|t1 [|t2 [|t3 [|t4 [|]]]]]]; try done.
    assert (Hg : game_count [t0; t1; t2; t3; t4] = 4) by reflexivity.
    assert (HB : byes [t0; t1; t2; t3; t4] = 3) by reflexivity.
    split; [done|]. split; [done|]. exists t0, t1, t2, t3, t4. split; [done|].
    destruct (populate_turn _ b 0 H4 Hb) as
      (top0 & bot0 & a0 & a1 & s0 & s1 & Htop0 & Hbot0 & _ & _ & Ha0 & Hs0 & Ha1 & Hs1
         & Htt0 & Htb0 & Hst0 & _ & Hsb0 & _); [by rewrite Hg|].
    destruct (populate_turn _ b 1 H4 Hb) as
      (top1 & bot1 & a2 & a3 & s2 & s3 & Htop1 & Hbot1 & _ & _ & Ha2 & Hs2 & Ha3 & Hs3
         & Htt1 & Htb1 & Hst1 & _ & Hsb1 & _); [by rewrite Hg|].
    unfold second_seat in *. rewrite Hg, HB in *.
    change (0 + 1) with 1 in *. change (4 - 0) with 4 in *.
    change (1 + 1) with 2 in *. change (4 - 1) with 3 in *.
    vm_compute in Ha0, Hs0, Ha1, Hs1, Ha2, Hs2, Ha3, Hs3.
    rewrite Htop0, Hbot0, Htop1, Hbot1. cbn [fmap option_fmap option_map].
    rewrite Htt0, Htb0, Htt1, Htb1, Hst0, Hsb0, Hst1, Hsb1.
    split_and!; (reflexivity || congruence).
  - intros Hreal w Hsteps room x Hroom Hx.
    pose proof (steps_sound teams H4 Hreal _ _ (sound_world_of teams H4 b Hb) Hsteps)
      as Hw.
    destruct (sound_rooms _ _ Hw room Hroom) as (x' & Hx' & Hno & _). congruence.
Qed.


(** *** The driver's own calls *)

Section Driven.

Context (teams : list Team.t).
Hypothesis enough_teams : 4 ≤ team_count teams.
Hypothesis real_teams : Team.bye ∉ teams.

Local Abbreviation g := (game_count teams).
Local Abbreviation rc := (round_count teams).
Local Abbreviation size := (round_size teams).
Local Abbreviation first := (first_id teams).
Local Abbreviation sound := (sound teams).
Local Abbreviation driven_inv := (driven_inv teams).

Lemma resolved_weaken pending pending' w w' p :
  (p ∉ pending → p ∉ pending') →
  (∀ x a, w_games w !! p = Some x → Game.bye x = Some a →
          w_games w' !! p = Some x) →
  (∀ room, room ∈ w_rooms w → room_over room = true →
     ∃ room', room' ∈ w_rooms w' ∧ room_game room' = room_game room ∧
              room_over room' = true) →
  resolved pending w p → resolved pending' w' p.
Proof.
  intros Hpend Hgames Hrooms [(x & a & Hx & Ha & Hp)|(room & Hroom & Hgame & Hover)].
  - left. exists x, a. split_and!; [by eapply Hgames|done|by apply Hpend].
  - right. destruct (Hrooms room Hroom Hover) as (room' & Hroom' & Hgame' & Hover').
    exists room'. split_and!; [done|congruence|done].
Qed.

Lemma NoDup_fmap_eq {A B} (f : A → B) (l : list A) x y :
  NoDup (f <$> l) → x ∈ l → y ∈ l → f x = f y → x = y.
Proof.
  induction l as [|z l IH]; intros Hnd Hx Hy Hxy; [by apply elem_of_nil in Hx|].
  rewrite fmap_cons in Hnd. apply NoDup_cons in Hnd as [Hz Hnd].
  apply elem_of_cons in Hx as [->|Hx], Hy as [->|Hy]; [done| | |by apply IH].
  - destruct Hz. rewrite Hxy. by apply list_elem_of_fmap_2.
  - destruct Hz. rewrite <- Hxy. by apply list_elem_of_fmap_2.
Qed.

Lemma close_room_games k (rooms : list GameRoom) :
  room_game <$> alter (fun r => {| room_game := room_game r;
                                   room_table := room_table r;
                                   room_over := true |}) k rooms
  = room_game <$> rooms.
Proof.
  revert k. induction rooms as [|room rooms IH]; intros [|k]; cbn; [done..| |].
  - done.
  - f_equal. apply IH.
Qed.

Lemma close_room_over k w room :
  room ∈ w_rooms w → room_over room = true →
  ∃ room', room' ∈ w_rooms (close_room k w) ∧ room_game room' = room_game room ∧
           room_over room' = true.
Proof.
  intros [n Hn]%list_elem_of_lookup Hover. cbn [close_room w_rooms].
  destruct (decide (k = n)) as [->|Hne].
  - exists {| room_game := room_game room; room_table := room_table room;
              room_over := true |}.
    split; [|done]. apply (list_elem_of_lookup_2 _ n).
    by rewrite list_lookup_alter_eq, Hn.
  - exists room. split; [|done]. apply (list_elem_of_lookup_2 _ n).
    by rewrite list_lookup_alter_ne.
Qed.

Lemma close_room_closed k w room :
  w_rooms w !! k = Some room →
  ∃ room', room' ∈ w_rooms (close_room k w) ∧ room_game room' = room_game room ∧
           room_over room' = true.
Proof.
  intros Hroom. cbn [close_room w_rooms].
  exists {| room_game := room_game room; room_table := room_table room;
            room_over := true |}.
  split; [|done]. apply (list_elem_of_lookup_2 _ k).
  by rewrite list_lookup_alter_eq, Hroom.
Qed.


Lemma settle_fields id w :
  w_games (settle id w) = w_games w ∧ w_rounds (settle id w) = w_rounds w ∧
  (w_rooms (settle id w) = w_rooms w ∨
   ∃ x, w_games w !! id = Some x ∧ (2 ≤ length (Game.teams x))%nat ∧
        w_rooms (settle id w) = w_rooms w ++ [room_for id x]).
Proof.
  unfold settle. destruct (w_games w !! id) as [x|]; [|by auto].
  destruct (Nat.ltb_spec (length (Game.teams x)) 2); [by auto|].
  split_and!; [done..|]. right. by exists x.
Qed.

(** A game that was not resolved hands a team to the next game. *)
Lemma advance_inv pending pending' w wm j i (x : Team.t) :
  driven_inv pending w →
  1 ≤ j < rc → 0 ≤ i < size j →
  ¬ resolved pending w (first j + i) →
  sound wm → w_games wm = w_games w →
  room_game <$> w_rooms wm = room_game <$> w_rooms w →
  (∀ room, room ∈ w_rooms w → room_over room = true →
     ∃ room', room' ∈ w_rooms wm ∧ room_game room' = room_game room ∧
              room_over room' = true) →
  resolved pending' wm (first j + i) →
  NoDup pending' → (∀ q, q ∈ pending' → q ∈ pending) →
  x ≠ Team.bye →
  driven_inv pending'
    (settle (first (j + 1) + i / 2) (push_into (first (j + 1) + i / 2) x wm)).
Proof.
  intros [Hw Hnd Hpend Hrooms Hwait Hone Htwo] Hj Hi Hfresh Hwm Hgames Hgames_rooms
    Hover Hnow Hnd' Hsub Hx.
  pose proof (built_half teams j i ltac:(lia) Hi) as Hi2.
  set (G := first (j + 1) + i / 2) in *.
  set (w2 := push_into G x wm).
  assert (Hw2 : sound w2) by (apply sound_push; [lia|done..]).
  destruct (sound_games _ _ Hwm (j + 1) (i / 2)) as (ts & Hy & _ & Hreal);
    [lia|done|]. fold G in Hy. specialize (Hreal ltac:(lia)).
  assert (Hy2 : w_games w2 !! G
                = Some (with_teams (ts ++ [x]) (bracket_game teams (j + 1) (i / 2)))).
  { unfold w2. cbn [push_into w_games]. by rewrite lookup_alter_eq, Hy. }
  assert (Hreal2 : Team.bye ∉ ts ++ [x]).
  { intros [Hin|Hin%list_elem_of_singleton]%elem_of_app; [done|congruence]. }
  (* the game that hands over is one of the two predecessors *)
  assert (Hpred : first j + i = first (j + 1 - 1) + 2 * (i / 2) ∨
                  first j + i = first (j + 1 - 1) + (2 * (i / 2) + 1)).
  { replace (j + 1 - 1) with j by lia. lia. }
  (* so the next game had one team at most, and no room *)
  assert (Hshort : (length ts ≤ 1)%nat).
  { destruct (decide (2 ≤ length ts)%nat) as [Hlen|]; [|lia].
    destruct (Htwo (j + 1) (i / 2) _ ltac:(lia) Hi2 ltac:(by rewrite <- Hgames) Hlen)
      as [H1 H2].
    destruct Hfresh. by destruct Hpred as [-> | ->]. }
  assert (Hnoroom : G ∉ room_game <$> w_rooms wm).
  { intros (room & HG & Hroom)%list_elem_of_fmap.
    destruct (sound_rooms _ _ Hwm room Hroom) as (y & Hy' & _ & Hlen & _).
    rewrite <- HG, Hy in Hy'. injection Hy' as <-. cbn in Hlen. lia. }
  assert (HGbig : g < G).
  { pose proof (first_id_mono teams 2 (j + 1) ltac:(lia)).
    pose proof (first_id_step teams 1 ltac:(lia)) as Hs.
    rewrite (first_id_1 teams), (round_size_1 teams) in Hs.
    change (1 + 1) with 2 in Hs. unfold G. lia. }
  destruct (settle_fields G w2) as (Hgs & Hrs & Hrm).
  (* what was resolved stays resolved *)
  assert (Hkeep : ∀ p, resolved pending w p → resolved pending' (settle G w2) p).
  { intros p. apply resolved_weaken.
    - intros Hp Hp'. by apply Hp, Hsub.
    - intros y a Hpy Ha. rewrite Hgs. unfold w2. cbn [push_into w_games].
      rewrite lookup_alter_ne, Hgames; [done|]. intros <-.
      rewrite <- Hgames, Hy in Hpy. injection Hpy as <-.
      by rewrite (bye_None (with_teams ts _)) in Ha.
    - intros room Hroom Hov. destruct (Hover room Hroom Hov) as (room' & Hr' & Hg' & Ho').
      exists room'. split; [|done].
      destruct Hrm as [->|(? & _ & _ & ->)]; [done|]. apply elem_of_app. by left. }
  assert (Hnow' : resolved pending' (settle G w2) (first j + i)).
  { revert Hnow. apply resolved_weaken; [done| |].
    - intros y a Hpy Ha. rewrite Hgs. unfold w2. cbn [push_into w_games].
      rewrite lookup_alter_ne; [done|]. intros Heq.
      rewrite <- Heq, Hy in Hpy. injection Hpy as <-.
      by rewrite (bye_None (with_teams ts _)) in Ha.
    - intros room Hroom Hov. exists room. split; [|done].
      destruct Hrm as [->|(? & _ & _ & ->)]; [done|]. apply elem_of_app. by left. }
  split.
  - by eapply sound_settle.
  - done.
  - intros p Hp. by apply Hpend, Hsub.
  - destruct Hrm as [->|(? & _ & _ & ->)].
    + unfold w2. cbn [push_into w_rooms]. by rewrite Hgames_rooms.
    + unfold w2. cbn [push_into w_rooms]. rewrite fmap_app. cbn.
      apply NoDup_app. split_and!.
      * by rewrite Hgames_rooms.
      * intros id Hid Heq%list_elem_of_singleton. subst id. by apply Hnoroom.
      * apply NoDup_singleton.
  - intros room Hroom Hp. apply Hsub in Hp.
    assert (room ∈ w_rooms wm ∨ room_game room = G) as [Hold|HG].
    { destruct Hrm as [Hrm|(? & _ & _ & Hrm)]; rewrite Hrm in Hroom.
      - by left.
      - apply elem_of_app in Hroom as [Hroom|Hroom%list_elem_of_singleton];
          [by left|right; by subst room]. }
    + assert (room_game room ∈ room_game <$> w_rooms w) as Hin.
      { rewrite <- Hgames_rooms. by apply list_elem_of_fmap_2. }
      apply list_elem_of_fmap in Hin as (room0 & Heq & Hroom0).
      apply (Hwait room0 Hroom0). by rewrite <- Heq.
    + rewrite HG in Hp. apply Hpend in Hp. lia.
  - intros j' i' y Hj' Hi' Hy' Hlen. rewrite Hgs in Hy'.
    destruct (decide (first j' + i' = G)) as [Heq|Hne].
    + apply (id_round_index_inj teams) in Heq as [-> ->]; [|lia|done|lia|done].
      destruct Hpred as [<- | <-]; [by left|by right].
    + unfold w2 in Hy'. cbn [push_into w_games] in Hy'.
      rewrite lookup_alter_ne, Hgames in Hy' by done.
      destruct (Hone j' i' y Hj' Hi' Hy' Hlen); [left|right]; by apply Hkeep.
  - intros j' i' y Hj' Hi' Hy' Hlen. rewrite Hgs in Hy'.
    destruct (decide (first j' + i' = G)) as [Heq|Hne].
    + apply (id_round_index_inj teams) in Heq as [-> ->]; [|lia|done|lia|done].
      fold G in Hy'. rewrite Hy2 in Hy'. injection Hy' as <-.
      cbn [with_teams Game.teams] in Hlen. rewrite length_app in Hlen. cbn in Hlen.
      destruct (Hone (j + 1) (i / 2) _ ltac:(lia) Hi2 ltac:(by rewrite <- Hgames))
        as [H1|H2]; [cbn; lia| |].
      * destruct Hpred as [Hp|Hp]; [destruct Hfresh; by rewrite Hp|].
        split; [by apply Hkeep|by rewrite <- Hp].
      * destruct Hpred as [Hp|Hp]; [|destruct Hfresh; by rewrite Hp].
        split; [by rewrite <- Hp|by apply Hkeep].
    + unfold w2 in Hy'. cbn [push_into w_games] in Hy'.
      rewrite lookup_alter_ne, Hgames in Hy' by done.
      destruct (Htwo j' i' y Hj' Hi' Hy' Hlen). split; by apply Hkeep.
Qed.


(** Closing a room or emitting an event breaks nothing. *)
Lemma same_inv pending w w' :
  sound w' → w_games w' = w_games w →
  room_game <$> w_rooms w' = room_game <$> w_rooms w →
  (∀ room, room ∈ w_rooms w → room_over room = true →
     ∃ room', room' ∈ w_rooms w' ∧ room_game room' = room_game room ∧
              room_over room' = true) →
  driven_inv pending w → driven_inv pending w'.
Proof.
  intros Hw' Hgames Hgr Hover [Hw Hnd Hpend Hrooms Hwait Hone Htwo].
  assert (Hkeep : ∀ p, resolved pending w p → resolved pending w' p).
  { intros p. apply resolved_weaken; [done| |done].
    intros y a Hy _. by rewrite Hgames. }
  split; try done.
  - by rewrite Hgr.
  - intros room Hroom.
    assert (room_game room ∈ room_game <$> w_rooms w) as Hin.
    { rewrite <- Hgr. by apply list_elem_of_fmap_2. }
    apply list_elem_of_fmap in Hin as (room0 & -> & Hroom0). by apply Hwait.
  - intros j i y Hj Hi Hy Hlen. rewrite Hgames in Hy.
    destruct (Hone j i y Hj Hi Hy Hlen); [left|right]; by apply Hkeep.
  - intros j i y Hj Hi Hy Hlen. rewrite Hgames in Hy.
    destruct (Htwo j i y Hj Hi Hy Hlen). split; by apply Hkeep.
Qed.

Lemma close_inv pending k w : driven_inv pending w → driven_inv pending (close_room k w).
Proof.
  intros Hinv. apply (same_inv pending w); [|done| | |done].
  - apply sound_close_room, Hinv.
  - apply close_room_games.
  - intros room. apply close_room_over.
Qed.

Lemma emit_inv pending e w : driven_inv pending w → driven_inv pending (emit e w).
Proof.
  intros Hinv. apply (same_inv pending w); [|done|done| |done].
  - apply sound_emit, Hinv.
  - intros room ??. by exists room.
Qed.

(** [run] starts a first-round game without a bye: its room. *)
Lemma open_round1_inv id pending w (x : Game.t) :
  driven_inv (id :: pending) w →
  w_games w !! id = Some x → Team.bye ∉ Game.teams x →
  driven_inv pending (settle id w).
Proof.
  intros [Hw Hnd Hpend Hrooms Hwait Hone Htwo] Hx Hreal.
  apply NoDup_cons in Hnd as [Hid Hnd].
  destruct (settle_fields id w) as (Hgs & Hrs & Hrm).
  assert (Hkeep : ∀ p, resolved (id :: pending) w p → resolved pending (settle id w) p).
  { intros p. apply resolved_weaken.
    - rewrite not_elem_of_cons. tauto.
    - intros y a Hy _. by rewrite Hgs.
    - intros room Hroom Hov. exists room. split; [|done].
      destruct Hrm as [->|(? & _ & _ & ->)]; [done|]. apply elem_of_app. by left. }
  split.
  - by eapply sound_settle.
  - done.
  - intros p Hp. apply Hpend. by right.
  - destruct Hrm as [->|(? & _ & _ & ->)]; [done|]. rewrite fmap_app. cbn.
    apply NoDup_app. split_and!; [done| |apply NoDup_singleton].
    intros id' Hin Heq%list_elem_of_singleton. subst id'.
    apply list_elem_of_fmap in Hin as (room & Heq & Hroom).
    apply (Hwait room Hroom). rewrite <- Heq. left.
  - intros room Hroom Hp.
    assert (room ∈ w_rooms w ∨ room_game room = id) as [Hold|Heq].
    { destruct Hrm as [Hrm|(? & _ & _ & Hrm)]; rewrite Hrm in Hroom; [by left|].
      apply elem_of_app in Hroom as [Hroom|Hroom%list_elem_of_singleton];
        [by left|right; by subst room]. }
    + apply (Hwait room Hold). by right.
    + by rewrite Heq in Hp.
  - intros j i y Hj Hi Hy Hlen. rewrite Hgs in Hy.
    destruct (Hone j i y Hj Hi Hy Hlen); [left|right]; by apply Hkeep.
  - intros j i y Hj Hi Hy Hlen. rewrite Hgs in Hy.
    destruct (Htwo j i y Hj Hi Hy Hlen). split; by apply Hkeep.
Qed.

(** The state [run] starts from. *)
Lemma init_inv b :
  createBracket teams = Ok b → driven_inv (seqZ 1 g) (world_of b).
Proof.
  intros Hb. pose proof (sound_world_of teams enough_teams b Hb) as Hw.
  destruct (createBracket_games teams enough_teams)
    as (b' & Hb' & _ & _ & Hgs & _).
  assert (b' = b) as -> by congruence.
  assert (Hempty : ∀ j i y, 2 ≤ j ≤ rc → 0 ≤ i < size j →
            w_games (world_of b) !! (first j + i) = Some y → Game.teams y = []).
  { intros j i y Hj Hi Hy. cbn [world_of w_games] in Hy.
    rewrite Hgs in Hy by (done || lia). injection Hy as <-.
    unfold bracket_game, expected_game. by destruct (Z.eqb_spec j 1); [lia|]. }
  split; try done.
  - apply NoDup_seqZ.
  - intros p Hp%elem_of_seqZ. lia.
  - apply NoDup_nil_2.
  - intros room Hroom. by apply elem_of_nil in Hroom.
  - intros j i y Hj Hi Hy Hlen. rewrite (Hempty j i y Hj Hi Hy) in Hlen. cbn in Hlen. lia.
  - intros j i y Hj Hi Hy Hlen. rewrite (Hempty j i y Hj Hi Hy) in Hlen. cbn in Hlen. lia.
Qed.


Lemma round1_real i :
  0 ≤ i < g → ¬ call_order teams i < byes teams →
  Team.bye ∉ Game.teams (bracket_game teams 1 i).
Proof.
  intros Hi Hplain.
  destruct (round1_teams teams enough_teams real_teams i Hi)
    as (a & b & Hab & Ha & _ & Hb).
  rewrite Hab. specialize (Hb ltac:(lia)). intros Hin.
  apply elem_of_cons in Hin as [Hin|Hin]; [congruence|].
  apply elem_of_cons in Hin as [Hin|Hin]; [congruence|].
  by apply elem_of_nil in Hin.
Qed.

(** Every call the driver makes keeps the invariant. *)
Lemma driven_keeps first_round w0 pending w :
  driven_inv first_round w0 → driven isBot first_round w0 pending w →
  driven_inv pending w.
Proof.
  intros H0 Hdriven. destruct (round_count_spec teams) as [Hrc _].
  induction Hdriven
    as [|id pending' w1 w' _ IH Hstart|pending' w1 k a b w' _ IH Hover
        |pending' w1 k a b room e _ IH Hroom Hopen Hthrow].
  - done.
  - (* run starts the next game of the first round *)
    pose proof (di_sound _ _ _ IH) as Hw1.
    assert (Hdepth : (2 ≤ depth w1)%nat).
    { unfold depth. rewrite (sound_length _ _ Hw1). lia. }
    pose proof (di_pending _ _ _ IH id ltac:(left)) as Hid.
    pose proof (di_nodup _ _ _ IH) as Hnd. apply NoDup_cons in Hnd as [Hfresh Hnd].
    assert (id = first 1 + (id - 1)) as Heq by (rewrite (first_id_1 teams); lia).
    assert (Hi : 0 ≤ id - 1 < size 1) by (rewrite (round_size_1 teams); lia).
    destruct (start_sound teams enough_teams real_teams (depth w1) 1 (id - 1) w1)
      as (w'' & Hw'' & Hs & Hcase); [done|lia|done|done|].
    rewrite <- Heq in Hw''. assert (w'' = w') as -> by congruence.
    rewrite (round_size_1 teams) in Hi.
    destruct (sound_games _ _ Hw1 1 (id - 1)) as (ts & Hx & Hts & _);
      [lia|by rewrite (round_size_1 teams)|].
    rewrite <- Heq, (Hts eq_refl), with_teams_id in Hx.
    destruct Hcase as [(_ & Hbye & a & Ha & Hareal & ->)|[Hplain ->]].
    + destruct (announce_fields 1 a w1) as (Hag & Har & Ham).
      apply (advance_inv (id :: pending') pending' w1 _ 1 (id - 1) a); try done.
      * lia.
      * by rewrite (round_size_1 teams).
      * rewrite <- Heq. intros [(? & ? & _ & _ & Hnot)|(room & Hroom & Hg & _)].
        -- apply Hnot. left.
        -- apply (di_waiting _ _ _ IH room Hroom). rewrite Hg. left.
      * by apply sound_announce.
      * by rewrite Ham.
      * intros room Hroom Hov. exists room. by rewrite Ham.
      * rewrite <- Heq. left. exists (bracket_game teams 1 (id - 1)), a.
        split_and!; [by rewrite Hag| |done].
        rewrite (round1_bye teams enough_teams real_teams _ Hi).
        by destruct (Z.ltb_spec (call_order teams (id - 1)) (byes teams)); [|lia].
      * intros q Hq. by right.
    + rewrite <- Heq. apply (open_round1_inv id pending' w1 _ IH Hx).
      apply round1_real; [done|]. intros Hlt. apply Hplain. by split.
  - (* a room reports gameOver *)
    pose proof (di_sound _ _ _ IH) as Hw1.
    assert (Hdepth : (2 ≤ depth w1)%nat).
    { unfold depth. rewrite (sound_length _ _ Hw1). lia. }
    pose proof Hover as Hover'. unfold gameOver in Hover'.
    destruct (w_rooms w1 !! k) as [room|] eqn:Hroom; [|done].
    cbn [mbind result_bind or_throw] in Hover'.
    destruct (room_over room) eqn:Hopen; [by injection Hover' as <-|].
    destruct (winners_of room a b) as [winners|] eqn:Hwin; [|done]. clear Hover'.
    destruct (gameOver_sound teams (depth w1) k a b room winners w1) as (j & i & Hj & Hi & Hgame & Hok & _); [done..|].
    rewrite Hok in Hover. injection Hover as <-.
    destruct (Z.ltb_spec j rc) as [Hlt|Hge]; [|by apply emit_inv, close_inv].
    assert (Hin : room ∈ w_rooms w1) by by eapply list_elem_of_lookup_2.
    apply (advance_inv pending' pending' w1 (close_room k w1) j i winners);
      try done.
    + lia.
    + rewrite <- Hgame. intros [(x & c & Hx & Hc & _)|(room' & Hroom' & Hg' & Hov')].
      * destruct (sound_rooms _ _ Hw1 room Hin) as (y & Hy & Hreal & _).
        assert (y = x) as -> by congruence. by rewrite (bye_None x Hreal) in Hc.
      * assert (room' = room) as ->; [|congruence].
        by apply (NoDup_fmap_eq room_game (w_rooms w1)); [apply IH|..].
    + by apply sound_close_room.
    + apply close_room_games.
    + intros room'. apply close_room_over.
    + rewrite <- Hgame. right. by apply close_room_closed.
    + apply IH.
    + by eapply winners_of_new.
  - by apply close_inv.
Qed.


(** [run] returns, and what it does is a sequence of the driver's
    calls that leaves no game pending. *)
Lemma run_driven b :
  createBracket teams = Ok b →
  ∃ w, run isBot (world_of b) = Ok w ∧
       driven isBot (seqZ 1 g) (world_of b) [] w.
Proof.
  intros Hb. pose proof (init_inv b Hb) as H0.
  destruct (round_count_spec teams) as [Hrc _].
  pose proof (sound_rounds _ _ (di_sound _ _ _ H0) 1 ltac:(lia)) as Hfirst.
  rewrite (first_id_1 teams), (round_size_1 teams) in Hfirst.
  apply at_index_Some in Hfirst as [_ Hfirst]. change (Z.to_nat (1 - 1)) with 0%nat in Hfirst.
  unfold run. rewrite Hfirst. cbn [mbind result_bind or_throw].
  assert (Hfold : ∀ todo rest w1,
            driven isBot (seqZ 1 g) (world_of b) (todo ++ rest) w1 →
            ∃ w, foldl (fun r id => w ← r; start isBot (depth w) id w) (Ok w1) todo
                 = Ok w ∧
                 driven isBot (seqZ 1 g) (world_of b) rest w).
  { induction todo as [|id todo IH]; intros rest w1 Hd; cbn [foldl].
    - by exists w1.
    - pose proof (driven_keeps _ _ _ _ H0 Hd) as Hinv.
      pose proof (di_sound _ _ _ Hinv) as Hw1.
      pose proof (di_pending _ _ _ Hinv id ltac:(left)) as Hid.
      destruct (start_sound teams enough_teams real_teams (depth w1) 1 (id - 1) w1)
        as (w2 & Hw2 & _); [done|lia|by rewrite (round_size_1 teams); lia| |].
      { unfold depth. rewrite (sound_length _ _ Hw1). lia. }
      rewrite (first_id_1 teams) in Hw2. replace (1 + (id - 1)) with id in Hw2 by lia.
      cbn [mbind result_bind]. rewrite Hw2. apply IH.
      by apply (driven_start _ _ _ id _ w1). }
  apply (Hfold (seqZ 1 g) [] (world_of b)). rewrite app_nil_r. constructor.
Qed.

End Driven.


End AdvanceFacts.


(** *** The theorems at five teams *)

Lemma demo_teams_enough : (4 ≤ team_count (demo_teams 5))%Z.
Proof. vm_compute. discriminate. Qed.

Lemma demo_teams_real : Team.bye ∉ demo_teams 5.
Proof. apply (bool_decide_unpack _). vm_compute. exact I. Qed.


Lemma round1_population_witness :
  (4 ≤ team_count (demo_teams 5))%Z ∧
  ∃ b, createBracket (demo_teams 5) = Ok b ∧
       game_count (demo_teams 5) = 4%Z ∧ byes (demo_teams 5) = 3%Z.
Proof.
  split; [exact demo_teams_enough|].
  destruct (round1_population no_bots (demo_teams 5) demo_teams_enough)
    as (b & Hb & _ & _ & Hfive & _).
  exists b. split; [exact Hb|].
  destruct (Hfive eq_refl) as (Hg & HB & _). split; assumption.
Defined.

Lemma bye_only_second_seat_of_round1_witness :
  (4 ≤ team_count (demo_teams 5))%Z ∧ (Team.bye ∉ demo_teams 5) ∧
  (byes (demo_teams 5) < game_count (demo_teams 5))%Z.
Proof.
  split; [exact demo_teams_enough|]. split; [exact demo_teams_real|].
  exact (proj1 (bye_only_second_seat_of_round1 no_bots (demo_teams 5)
                  demo_teams_enough demo_teams_real)).
Defined.

(** *** Two tournaments played out *)

(** Eight players, four teams, no bye: [run] opens the two rooms of
    round 1; as each reports seats 0 and 2 as winners, the final gets
    its two teams and its room, and its [gameOver] ends the tournament,
    once. *)
Example four_teams_played :
  ∃ b w0 w1 w2 w3,
    createBracket (demo_teams 4) = Ok b ∧
    run no_bots (world_of b) = Ok w0 ∧
    room_game <$> w_rooms w0 = [1%Z; 2%Z] ∧
    gameOver no_bots (depth w0) 0 0 2 w0 = Ok w1 ∧
    room_game <$> w_rooms w1 = [1%Z; 2%Z] ∧
    gameOver no_bots (depth w1) 1 0 2 w1 = Ok w2 ∧
    room_game <$> w_rooms w2 = [1%Z; 2%Z; 3%Z] ∧
    (Game.teams <$> w_games w2 !! 3%Z) = Some [Team.new "A" "B"; Team.new "C" "D"] ∧
    gameOver no_bots (depth w2) 2 0 2 w2 = Ok w3 ∧
    w_emitted w3 = [summonTable 1 0; summonTable 1 1; summonTable 2 2;
                    tournamentOver (Team.new "A" "B") 2].
Proof.
  eexists _, _, _, _, _.
  repeat (split; [vm_compute; reflexivity|]). vm_compute. reflexivity.
Qed.

(** Ten players, five teams, three byes: games 1 and 2 hand their
    teams to game 5, which gets its room once the second has come; game
    3 gets its room; game 4 hands its team to game 6, which waits.  No
    room is made for a game with a bye. *)
Example five_teams_started :
  ∃ b w,
    createBracket (demo_teams 5) = Ok b ∧
    run no_bots (world_of b) = Ok w ∧
    room_game <$> w_rooms w = [5%Z; 3%Z] ∧
    (Game.teams <$> w_games w !! 5%Z) = Some [Team.new "A" "B"; Team.new "E" "F"] ∧
    (Game.teams <$> w_games w !! 6%Z) = Some [Team.new "C" "D"] ∧
    w_emitted w = [announceBye 1 "A"; announceBye 1 "B";
                   announceBye 1 "E"; announceBye 1 "F";
                   summonTable 2 0; summonTable 1 1;
                   announceBye 1 "C"; announceBye 1 "D"].
Proof.
  eexists _, _.
  repeat (split; [vm_compute; reflexivity|]). vm_compute. reflexivity.
Qed.

(** ** Further properties of team formation *)

(** *** The bot fill *)

Lemma grow_max_pow fuel count max :
  0 < max → count ≤ fuel + max →
  ∃ k, grow_max fuel count max = max * 2 ^ k ∧ count ≤ max * 2 ^ k ∧
       (k = 0 ∨ max * 2 ^ k < 2 * count).
Proof.
  revert max. induction fuel as [|fuel IH]; intros max Hm Hc; cbn [grow_max].
  - exists 0. rewrite Nat.pow_0_r. lia.
  - destruct (Nat.ltb_spec max count).
    + destruct (IH (max * 2)) as (k & Hk & Hle & Hor); [lia..|].
      exists (S k). rewrite Nat.pow_succ_r'. split_and!; [lia..|].
      right. destruct Hor as [->|]; [rewrite Nat.pow_0_r in *|]; lia.
    + exists 0. rewrite Nat.pow_0_r. lia.
Qed.

(** X1: the size the bot fill aims at is the least of 8, 16, 32, ...
    that is not below the number of signups. *)
Theorem bot_fill_target (count : nat) :
  ∃ k, grow_max count count 8 = 8 * 2 ^ k ∧ count ≤ 8 * 2 ^ k ∧
       ∀ k', count ≤ 8 * 2 ^ k' → 8 * 2 ^ k ≤ 8 * 2 ^ k'.
Proof.
  destruct (grow_max_pow count count 8) as (k & Hk & Hle & Hor); [lia..|].
  exists k. split_and!; [done..|]. intros k' Hk'.
  apply Nat.mul_le_mono_l, Nat.pow_le_mono_r; [done|].
  destruct Hor as [->|Hlt]; [lia|].
  assert (2 ^ k < 2 ^ S k') as Hpow by (rewrite Nat.pow_succ_r'; lia).
  apply Nat.pow_lt_mono_r_iff in Hpow; lia.
Qed.

Lemma foldl_add_fresh {A} (f : A → string) (l : list A) (s : list string) :
  NoDup (s ++ (f <$> l)) →
  foldl (fun rej i => JsSet.add (f i) rej) s l = s ++ (f <$> l).
Proof.
  revert s. induction l as [|a l IH]; intros s Hnd; cbn [foldl fmap list_fmap].
  - by rewrite app_nil_r.
  - assert (Hadd : JsSet.add (f a) s = s ++ [f a]).
    { unfold JsSet.add. destruct (JsSet.has (f a) s) eqn:Hhas; [|done].
      apply has_spec in Hhas. apply NoDup_app in Hnd as (_ & Hno & _).
      destruct (Hno _ Hhas). by left. }
    rewrite Hadd, IH; [by rewrite <- app_assoc|].
    by rewrite <- app_assoc.
Qed.

Lemma pool_with_bots t shuffled nextBotName :
  host t = "bots" →
  NoDup (shuffled.*1) →
  NoDup (bot_ids nextBotName (length shuffled)) →
  Forall (fun y => y ∉ shuffled.*1) (bot_ids nextBotName (length shuffled)) →
  pool t shuffled nextBotName
    = shuffled.*1 ++ bot_ids nextBotName (length shuffled).
Proof.
  intros Hhost Hkeys Hbots Hfresh.
  unfold pool, fill_bots. rewrite Hhost.
  change (("bots" =? "bots")%string) with true. cbv iota.
  rewrite (of_list_NoDup _ Hkeys), length_fmap.
  apply (foldl_add_fresh (fun i => ":bot:" +:+ nextBotName i)).
  apply NoDup_app. split_and!; [done| |done].
  intros y Hy Hb. by apply (proj1 (Forall_forall _ _) Hfresh y).
Qed.

Lemma length_pool_with_bots t shuffled nextBotName :
  host t = "bots" →
  NoDup (shuffled.*1) →
  NoDup (bot_ids nextBotName (length shuffled)) →
  Forall (fun y => y ∉ shuffled.*1) (bot_ids nextBotName (length shuffled)) →
  length (pool t shuffled nextBotName)
    = grow_max (length shuffled) (length shuffled) 8.
Proof.
  intros Hhost Hkeys Hbots Hfresh.
  rewrite pool_with_bots, length_app, length_fmap by done.
  unfold bot_ids. rewrite length_fmap, length_seq.
  pose proof (grow_max_exit (length shuffled) (length shuffled) 8). lia.
Qed.

(** X2: for a host ['bots'], when the bot names drawn are distinct and
    no signed-up user already carries one of the bot ids, the pool is the
    signed-up users in shuffled order followed by the bots in the order
    their names were drawn, and its size is the fill target. *)
Theorem bots_fill_pool t shuffled nextBotName :
  host t = "bots" →
  NoDup (shuffled.*1) →
  NoDup (bot_ids nextBotName (length shuffled)) →
  Forall (fun y => y ∉ shuffled.*1) (bot_ids nextBotName (length shuffled)) →
  pool t shuffled nextBotName
    = shuffled.*1 ++ bot_ids nextBotName (length shuffled) ∧
  length (pool t shuffled nextBotName)
    = grow_max (length shuffled) (length shuffled) 8.
Proof.
  intros Hhost Hkeys Hbots Hfresh.
  split; [by apply pool_with_bots|by apply length_pool_with_bots].
Qed.

Lemma bots_fill_pool_witness :
  length (pool {| host := "bots"; choosePartner := false; signups := ∅ |}
               [("z", None)] letter_names) = 8.
Proof.
  refine (proj2 (bots_fill_pool
            {| host := "bots"; choosePartner := false; signups := ∅ |}
            [("z", None)] letter_names _ _ _ _)).
  - reflexivity.
  - apply (bool_decide_unpack _). vm_compute. exact I.
  - apply (bool_decide_unpack _). vm_compute. exact I.
  - apply (bool_decide_unpack _). vm_compute. exact I.
Defined.

(** *** What [pickTeams] returns *)

Lemma pool_truthy t shuffled nextBotName :
  shuffled ≡ₚ map_to_list (signups t) →
  (∀ u, is_Some (signups t !! u) → u ≠ "") →
  ∀ y, y ∈ pool t shuffled nextBotName → y ≠ "".
Proof.
  intros Hshuf Hids y [Hy|[i ->]]%elem_of_pool_inv; [|done].
  apply list_elem_of_fmap in Hy as ([u p] & -> & Hin).
  apply Hids. exists p. by apply (shuffled_elem _ _ _ _ Hshuf).
Qed.

Lemma pickTeams_returns t shuffled nextBotName rnd :
  (∀ y, y ∈ pool t shuffled nextBotName → y ≠ "") →
  ∃ teams dropped, pickTeams t shuffled nextBotName rnd = Ok (teams, dropped).
Proof.
  intros Hids.
  destruct (matched_rejects t shuffled nextBotName) as [Hnd Hsub].
  unfold pickTeams.
  destruct (matched t shuffled nextBotName) as [mutual rejects].
  cbn [fst snd] in *.
  assert (Hpairs : ∀ l teams, l ⊆ rejects → length l mod 2 = 0 →
            ∃ teams', pair_up (rev l) teams = Ok teams').
  { intros l teams Hl Hev. apply pair_up_total.
    - rewrite length_rev. exists (length l / 2). lia.
    - apply Forall_forall. intros y Hy.
      apply list_elem_of_In, in_rev, list_elem_of_In in Hy. auto. }
  destruct (length rejects mod 2 =? 0) eqn:Hpar; cbn.
  - rewrite Hpar. cbn. apply Nat.eqb_eq in Hpar.
    destruct (Hpairs rejects mutual) as [teams' ->]; [done..|].
    cbn. eauto.
  - apply Nat.eqb_neq in Hpar.
    destruct (sample_elem rnd rejects) as (d & -> & Hin).
    { intros E. rewrite E in Hpar. by apply Hpar. }
    assert (Hd : truthy d = true) by (apply truthy_spec; auto).
    cbn. rewrite Hd. cbn.
    pose proof (length_delete d rejects Hnd Hin) as Hlen.
    assert (Hev : length (JsSet.delete d rejects) mod 2 = 0) by lia.
    rewrite Hev. cbn.
    destruct (Hpairs (JsSet.delete d rejects) mutual) as [teams' ->]; [|done|].
    + intros y Hy. by apply elem_of_delete in Hy as [_ Hy].
    + cbn. eauto.
Qed.

Lemma length_users (teams : list Team.t) :
  length (teams ≫= Team.users) = 2 * length teams.
Proof.
  induction teams as [|x teams IH]; [done|].
  cbn. rewrite length_app, IH. destruct x; cbn; lia.
Qed.

(** X3: when no user names themselves as partner, a player is dropped
    exactly when the pool is odd, and the teams are half the pool,
    rounded down. *)
Theorem pickTeams_drops_when_odd t shuffled nextBotName rnd teams dropped :
  shuffled ≡ₚ map_to_list (signups t) →
  (∀ u, signups t !! u ≠ Some (Some u)) →
  pickTeams t shuffled nextBotName rnd = Ok (teams, dropped) →
  length (pool t shuffled nextBotName)
    = 2 * length teams + length (dropped_list dropped) ∧
  (dropped = None ↔ Nat.Even (length (pool t shuffled nextBotName))) ∧
  length teams = length (pool t shuffled nextBotName) / 2.
Proof.
  intros Hshuf Hself (rest & -> & Hrest)%pickTeams_Ok.
  assert (Hlen : length (pool t shuffled nextBotName)
            = 2 * length ((matched t shuffled nextBotName).1 ++ rest)
              + length (dropped_list dropped)).
  { pose proof (matched_partition t shuffled nextBotName) as Hpart.
    destruct (matched t shuffled nextBotName) as [mutual rejects].
    cbn [fst snd] in *. rewrite <- Hpart.
    - rewrite length_app, <- Hrest, !length_app, !length_users. lia.
    - intros u Hu%(shuffled_elem _ _ _ _ Hshuf). by apply (Hself u). }
  split_and!; [done| |].
  - rewrite Hlen. split.
    + intros ->. exists (length ((matched t shuffled nextBotName).1 ++ rest)).
      cbn. lia.
    + intros [k Hk]. destruct dropped; [cbn in Hk; lia|done].
  - rewrite Hlen. destruct dropped; cbn; lia.
Qed.

Lemma pickTeams_drops_when_odd_witness :
  length [Team.new "b" "a"; Team.new "d" "e"]
  = length (pool five_signups five_shuffled letter_names) / 2.
Proof.
  refine (proj2 (proj2 (pickTeams_drops_when_odd five_signups five_shuffled
            letter_names 0 [Team.new "b" "a"; Team.new "d" "e"] (Some "c") _ _ _))).
  - apply five_shuffled_perm.
  - intros u Hu. unfold five_signups in Hu; cbn in Hu.
    repeat (apply lookup_insert_Some in Hu as [[<- [=]]|[? Hu]]). done.
  - vm_compute. reflexivity.
Defined.

(** X4: without [choosePartner] the declared partners play no part:
    the teams are cut, two users at a time, from the end of the pool
    (the dropped player taken out), and any other partner declarations
    by the same users in the same order give the same teams. *)
Theorem pickTeams_without_choosePartner t shuffled nextBotName rnd teams dropped :
  choosePartner t = false →
  pickTeams t shuffled nextBotName rnd = Ok (teams, dropped) →
  teams ≫= Team.users
    = rev (match dropped with
           | Some d => JsSet.delete d (pool t shuffled nextBotName)
           | None => pool t shuffled nextBotName
           end) ∧
  ∀ shuffled', shuffled'.*1 = shuffled.*1 →
    pickTeams t shuffled' nextBotName rnd = Ok (teams, dropped).
Proof.
  intros Hc Hpick. split.
  - revert Hpick. unfold pickTeams, matched. rewrite Hc.
    destruct (negb _); cbn.
    + destruct (assert_defined _) as [d|]; [|done]. cbn.
      destruct (assert _); [|done]. cbn.
      destruct (pair_up _ _) as [teams'|] eqn:Hpair; [|done]. cbn.
      intros [= <- <-]. apply pair_up_exact in Hpair as (rest & -> & Hr & _). exact Hr.
    + destruct (assert _); [|done]. cbn.
      destruct (pair_up _ _) as [teams'|] eqn:Hpair; [|done]. cbn.
      intros [= <- <-]. apply pair_up_exact in Hpair as (rest & -> & Hr & _). exact Hr.
  - intros shuffled' Hkeys. rewrite <- Hpick.
    unfold pickTeams, matched, pool. by rewrite Hc, Hkeys.
Qed.

Lemma pickTeams_without_choosePartner_witness :
  [Team.new "d" "c"; Team.new "b" "a"] ≫= Team.users
  = rev (pool {| host := ""; choosePartner := false; signups := ∅ |}
              [("a", Some "b"); ("b", Some "a"); ("c", None); ("d", None)]
              letter_names).
Proof.
  refine (proj1 (pickTeams_without_choosePartner
            {| host := ""; choosePartner := false; signups := ∅ |}
            [("a", Some "b"); ("b", Some "a"); ("c", None); ("d", None)]
            letter_names 0 [Team.new "d" "c"; Team.new "b" "a"] None _ _)).
  - reflexivity.
  - vm_compute. reflexivity.
Defined.

(** X5: the earlier driver forms the same teams as the present one
    whenever the host is not ['bots']. *)
Theorem pickTeams_as_before t shuffled nextBotName rnd :
  host t ≠ "bots" →
  pickTeams t shuffled nextBotName rnd = V1.pickTeams t shuffled rnd.
Proof.
  intros Hhost.
  assert (Hpool : pool t shuffled nextBotName = V1.rejects shuffled).
  { unfold pool, fill_bots, V1.rejects.
    by destruct (String.eqb_spec (host t) "bots"). }
  unfold pickTeams, V1.pickTeams, matched, V1.matched. by rewrite Hpool.
Qed.

Lemma pickTeams_as_before_witness :
  V1.pickTeams five_signups five_shuffled 0
  = Ok ([Team.new "b" "a"; Team.new "d" "e"], Some "c").
Proof.
  rewrite <- (pickTeams_as_before five_signups five_shuffled letter_names 0).
  - vm_compute. reflexivity.
  - discriminate.
Defined.

(** *** The constructor *)

Lemma createBracket_canceled (teams : list Team.t) :
  ∃ b, createBracket teams = Ok b ∧
       (canceled b = true ↔ length teams < 4).
Proof.
  destruct (Z.ltb_spec (team_count teams) 4) as [Hlt|Hge].
  - exists {| games := ∅; rounds := [] |}. split.
    + unfold createBracket. by destruct (Z.ltb_spec (team_count teams) 4); [|lia].
    + unfold team_count in Hlt. split; [lia|done].
  - destruct (createBracket_games teams Hge) as (b & Hb & Hlen & _).
    exists b. split; [done|].
    pose proof (round_count_spec teams) as [Hrc _].
    unfold canceled, team_count in *. rewrite Hlen, bool_decide_eq_true. lia.
Qed.

(** X6: when the signed-up users have non-empty identifiers and none
    names themselves as partner, the constructor of the driver returns,
    none of its teams is the bye object, and the tournament is canceled
    exactly when the pool holds fewer than eight players. *)
Theorem driver_canceled_iff t shuffled nextBotName rnd :
  shuffled ≡ₚ map_to_list (signups t) →
  (∀ u, is_Some (signups t !! u) → u ≠ "") →
  (∀ u, signups t !! u ≠ Some (Some u)) →
  ∃ d, TournamentDriver.new t shuffled nextBotName rnd = Ok d ∧
       (Team.bye ∉ TournamentDriver.teams d) ∧
       (canceled (TournamentDriver.bracket d) = true
        ↔ length (pool t shuffled nextBotName) < 8).
Proof.
  intros Hshuf Hids Hself.
  destruct (pickTeams_returns t shuffled nextBotName rnd) as (teams & dropped & Hpick).
  { by apply pool_truthy. }
  destruct (createBracket_canceled teams) as (b & Hb & Hcan).
  exists (TournamentDriver.mk teams dropped b). split_and!.
  - unfold TournamentDriver.new. rewrite Hpick. cbn. rewrite Hb. done.
  - cbn. by eapply pickTeams_real.
  - cbn. rewrite Hcan.
    pose proof Hpick as (rest & -> & Hrest)%pickTeams_Ok.
    pose proof (matched_partition t shuffled nextBotName) as Hpart.
    destruct (matched t shuffled nextBotName) as [mutual rejects].
    cbn [fst snd] in *. rewrite <- Hpart.
    + rewrite length_app, <- Hrest, !length_app, !length_users.
      destruct dropped; cbn; lia.
    + intros u Hu%(shuffled_elem _ _ _ _ Hshuf). by apply (Hself u).
Qed.

Lemma driver_canceled_iff_witness :
  ∃ d, TournamentDriver.new five_signups five_shuffled letter_names 0 = Ok d ∧
       canceled (TournamentDriver.bracket d) = true.
Proof.
  destruct (driver_canceled_iff five_signups five_shuffled letter_names 0)
    as (d & Hd & _ & Hcan).
  - apply five_shuffled_perm.
  - intros u [p Hp] ->. vm_compute in Hp. discriminate.
  - intros u Hu. unfold five_signups in Hu; cbn in Hu.
    repeat (apply lookup_insert_Some in Hu as [[<- [=]]|[? Hu]]). done.
  - exists d. split; [exact Hd|]. apply Hcan. vm_compute. lia.
Defined.

(** X7: a tournament hosted by ['bots'], whose signed-up users have
    non-empty identifiers and do not name themselves as partner, is never
    canceled and drops nobody, when the bot names drawn are distinct and
    differ from the signed-up users: the constructor returns, with half
    the fill target as teams, four at least. *)
Theorem bots_host_never_canceled t shuffled nextBotName rnd :
  host t = "bots" →
  shuffled ≡ₚ map_to_list (signups t) →
  (∀ u, is_Some (signups t !! u) → u ≠ "") →
  (∀ u, signups t !! u ≠ Some (Some u)) →
  NoDup (bot_ids nextBotName (length shuffled)) →
  Forall (fun y => y ∉ shuffled.*1) (bot_ids nextBotName (length shuffled)) →
  ∃ d, TournamentDriver.new t shuffled nextBotName rnd = Ok d ∧
       TournamentDriver.dropped d = None ∧
       2 * length (TournamentDriver.teams d)
         = grow_max (length shuffled) (length shuffled) 8 ∧
       4 ≤ length (TournamentDriver.teams d) ∧
       canceled (TournamentDriver.bracket d) = false.
Proof.
  intros Hhost Hshuf Hids Hself Hbots Hfresh.
  pose proof (shuffled_keys_NoDup _ _ Hshuf) as Hkeys.
  pose proof (length_pool_with_bots t shuffled nextBotName Hhost Hkeys Hbots Hfresh)
    as Hsize.
  destruct (grow_max_pow (length shuffled) (length shuffled) 8)
    as (k & Hk & _); [lia..|].
  assert (1 ≤ 2 ^ k) as Hpow by (apply Nat.neq_0_lt_0, Nat.pow_nonzero; lia).
  destruct (pickTeams_returns t shuffled nextBotName rnd) as (teams & dropped & Hpick).
  { by apply pool_truthy. }
  assert (Hlen : length (pool t shuffled nextBotName)
                 = 2 * length teams + length (dropped_list dropped)).
  { pose proof Hpick as (rest & -> & Hrest)%pickTeams_Ok.
    pose proof (matched_partition t shuffled nextBotName) as Hpart.
    destruct (matched t shuffled nextBotName) as [mutual rejects].
    cbn [fst snd] in *. rewrite <- Hpart.
    + rewrite length_app, <- Hrest, !length_app, !length_users. lia.
    + intros u Hu%(shuffled_elem _ _ _ _ Hshuf). by apply (Hself u). }
  destruct (createBracket_canceled teams) as (b & Hb & Hcan).
  assert (dropped = None) as ->.
  { destruct dropped as [d|]; [|done]. cbn in Hlen. lia. }
  cbn in Hlen.
  exists (TournamentDriver.mk teams None b). split_and!; cbn.
  - unfold TournamentDriver.new. rewrite Hpick. cbn. rewrite Hb. done.
  - done.
  - lia.
  - lia.
  - destruct (canceled b); [|done]. destruct Hcan as [Hcan _].
    specialize (Hcan eq_refl). lia.
Qed.

Lemma bots_host_never_canceled_witness :
  ∃ d, TournamentDriver.new
         {| host := "bots"; choosePartner := true; signups := {["z" := Some "q"]} |}
         [("z", Some "q")] letter_names 0 = Ok d ∧
       canceled (TournamentDriver.bracket d) = false.
Proof.
  destruct (bots_host_never_canceled
              {| host := "bots"; choosePartner := true;
                 signups := {["z" := Some "q"]} |}
              [("z", Some "q")] letter_names 0)
    as (d & Hd & _ & _ & _ & Hcan).
  - reflexivity.
  - cbn [signups]. rewrite map_to_list_singleton. reflexivity.
  - intros u [p Hp] ->. vm_compute in Hp. discriminate.
  - intros u Hu. cbn [signups] in Hu.
    apply lookup_singleton_Some in Hu as [<- [=]].
  - apply (bool_decide_unpack _). vm_compute. exact I.
  - apply (bool_decide_unpack _). vm_compute. exact I.
  - exists d. split; assumption.
Defined.

(** ** Further properties of the bracket *)

Section BracketMore.

Local Open Scope Z_scope.

Context (teams : list Team.t).
Hypothesis enough_teams : 4 ≤ team_count teams.

Local Abbreviation g := (game_count teams).
Local Abbreviation rc := (round_count teams).
Local Abbreviation size := (round_size teams).
Local Abbreviation first := (first_id teams).

(** *** Layout *)

Lemma bracket_game_row j i :
  1 ≤ j ≤ rc → 0 ≤ i < size j →
  Game.row (bracket_game teams j i) = 2 ^ (j - 1) - 1 + 2 ^ j * i.
Proof.
  intros Hj Hi. unfold bracket_game, expected_game.
  destruct (Z.eqb_spec j 1) as [->|Hj1]; cbn.
  - lia.
  - rewrite (game_count_over_size teams j Hj). unfold base_row.
    replace j with (j - 1 + 1) at 4 by lia.
    rewrite Z.pow_add_r by lia. lia.
Qed.

Lemma bracket_game_col j i :
  Game.col (bracket_game teams j i) = if j =? 1 then -1 else 2 * (j - 1).
Proof. unfold bracket_game, expected_game. by destruct (j =? 1). Qed.

Lemma bracket_game_previous j i :
  2 ≤ j →
  Game.previous_games (bracket_game teams j i)
  = [first (j - 1) + i * 2; first (j - 1) + (i * 2 + 1)].
Proof.
  intros Hj. unfold bracket_game, expected_game.
  by destruct (Z.eqb_spec j 1); [lia|].
Qed.

(** *** The seats of the first round *)

Lemma bind_ext_in {A B} (f h : A → list B) (l : list A) :
  (∀ x, x ∈ l → f x = h x) → l ≫= f = l ≫= h.
Proof.
  induction l as [|a l IH]; intros Hfh; [done|].
  cbn. rewrite (Hfh a) by left. f_equal. apply IH. intros x Hx. apply Hfh. by right.
Qed.

Lemma bind_fmap_list {A B C} (f : A → B) (k : B → list C) (l : list A) :
  (f <$> l) ≫= k = l ≫= (fun x => k (f x)).
Proof. induction l as [|a l IH]; [done|]. cbn. by rewrite IH. Qed.

Lemma bind_two {A B} (f h : A → B) (l : list A) :
  l ≫= (fun x => [f x; h x]) ≡ₚ (f <$> l) ++ (h <$> l).
Proof.
  induction l as [|a l IH]; [done|].
  cbn. rewrite IH. apply Permutation_skip.
  change (h a :: (f <$> l) ++ (h <$> l)) with ([h a] ++ ((f <$> l) ++ (h <$> l))).
  rewrite (Permutation_app_comm (f <$> l)), app_assoc.
  rewrite (Permutation_app_comm _ (f <$> l)). done.
Qed.

(** The order of the calls of [populate_game] is a rearrangement of
    the positions of the first round. *)
Lemma call_order_perm : call_order teams <$> seqZ 0 g ≡ₚ seqZ 0 g.
Proof.
  destruct (game_count_even teams) as [Heven Hhalf].
  apply NoDup_Permutation.
  - apply NoDup_fmap_2_strong; [|apply NoDup_seqZ].
    intros p q Hp%elem_of_seqZ Hq%elem_of_seqZ. unfold call_order.
    destruct (Z.ltb_spec p (g / 2)), (Z.ltb_spec q (g / 2)); lia.
  - apply NoDup_seqZ.
  - intros c. rewrite list_elem_of_fmap, elem_of_seqZ. split.
    + intros (p & -> & Hp%elem_of_seqZ).
      pose proof (call_order_range teams p). lia.
    + intros Hc. destruct (Z.eqb_spec (c mod 2) 0) as [Hc0|Hc1].
      * exists (c / 2). rewrite elem_of_seqZ. unfold call_order.
        destruct (Z.ltb_spec (c / 2) (g / 2)); lia.
      * exists (g - 1 - c / 2). rewrite elem_of_seqZ. unfold call_order.
        destruct (Z.ltb_spec (g - 1 - c / 2) (g / 2)); lia.
Qed.

(** The team at an index of [teams]. *)
Local Abbreviation team_at := (fun c => default Team.bye (at_index teams c)).

Lemma first_seats :
  team_at <$> seqZ 0 g = take (Z.to_nat g) teams.
Proof.
  destruct (byes_bounds teams enough_teams) as [Hg Hb].
  apply list_eq. intros k. rewrite list_lookup_fmap, lookup_take.
  destruct (decide (k < Z.to_nat g)%nat) as [Hk|Hk].
  - rewrite (proj2 (lookup_seqZ 0 g k (Z.of_nat k))) by lia. cbn.
    unfold at_index. destruct (Z.ltb_spec (Z.of_nat k) 0); [lia|].
    rewrite Nat2Z.id.
    destruct (lookup_lt_is_Some_2 teams k) as [x ->]; [|done].
    unfold team_count in Hg. lia.
  - destruct (seqZ 0 g !! k) as [c|] eqn:Hc; [|done].
    apply lookup_seqZ in Hc. lia.
Qed.

Lemma second_seats :
  (fun c => if c <? byes teams then Team.bye
            else team_at (team_count teams - 1 - (c - byes teams)))
    <$> seqZ 0 g
  = replicate (Z.to_nat (byes teams)) Team.bye ++ reverse (drop (Z.to_nat g) teams).
Proof.
  destruct (byes_bounds teams enough_teams) as [Hg Hb].
  assert (Hn : team_count teams = Z.of_nat (length teams)) by done.
  assert (Hbyes : byes teams = g * 2 - team_count teams) by done.
  apply list_eq. intros k. rewrite list_lookup_fmap.
  destruct (decide (k < Z.to_nat g)%nat) as [Hk|Hk].
  - rewrite (proj2 (lookup_seqZ 0 g k (Z.of_nat k))) by lia. cbn.
    destruct (Z.ltb_spec (Z.of_nat k) (byes teams)) as [Hkb|Hkb].
    + rewrite lookup_app_l by (rewrite length_replicate; lia).
      symmetry. apply lookup_replicate. split; [done|lia].
    + rewrite lookup_app_r by (rewrite length_replicate; lia).
      rewrite length_replicate, reverse_lookup by (rewrite length_drop; lia).
      rewrite lookup_drop, length_drop.
      unfold at_index.
      destruct (Z.ltb_spec (team_count teams - 1 - (Z.of_nat k - byes teams)) 0);
        [lia|].
      replace (Z.to_nat g + (length teams - Z.to_nat g - S (k - Z.to_nat (byes teams))))%nat
        with (Z.to_nat (team_count teams - 1 - (Z.of_nat k - byes teams))) by lia.
      destruct (lookup_lt_is_Some_2 teams
                  (Z.to_nat (team_count teams - 1 - (Z.of_nat k - byes teams))))
        as [x ->]; [lia|done].
  - destruct (seqZ 0 g !! k) as [c|] eqn:Hc.
    { apply lookup_seqZ in Hc. lia. }
    cbn. symmetry. apply lookup_ge_None.
    rewrite length_app, length_replicate, length_reverse, length_drop. lia.
Qed.

Lemma round1_seated :
  seqZ 0 g ≫= (fun p => seats teams (call_order teams p))
  ≡ₚ teams ++ replicate (Z.to_nat (byes teams)) Team.bye.
Proof.
  rewrite <- (bind_fmap_list (call_order teams) (seats teams)), call_order_perm.
  rewrite (bind_ext_in (seats teams)
             (fun c => [team_at c;
                        if c <? byes teams then Team.bye
                        else team_at (team_count teams - 1 - (c - byes teams))])).
  - rewrite bind_two, first_seats, second_seats.
    rewrite reverse_Permutation.
    rewrite (Permutation_app_comm (replicate _ _)), app_assoc, take_drop. done.
  - intros c Hc%elem_of_seqZ.
    destruct (seats_spec teams enough_teams c) as (a & b & Ha & Hb & ->); [lia|].
    rewrite Ha. cbn. f_equal. unfold second_seat in Hb.
    destruct (c <? byes teams); [by injection Hb as <-|].
    rewrite Hb. done.
Qed.

End BracketMore.

Section BracketExtras.

Local Open Scope Z_scope.

(** X8: in the layout of a bracket, a game of a later round sits in
    column [2 * (round - 1)], in the row midway between the rows of the
    two games that feed it, which lie [2 ^ (round - 1)] rows apart. *)
Theorem bracket_rows_midway (teams : list Team.t) :
  4 ≤ team_count teams →
  ∃ b, createBracket teams = Ok b ∧
    ∀ r i id, 2 ≤ r → game_at b r i = Some id →
      ∃ game p1 p2 g1 g2,
        games b !! id = Some game ∧
        Game.previous_games game = [p1; p2] ∧
        games b !! p1 = Some g1 ∧ games b !! p2 = Some g2 ∧
        Game.row g2 = Game.row g1 + 2 ^ (r - 1) ∧
        2 * Game.row game = Game.row g1 + Game.row g2 ∧
        Game.col game = 2 * (r - 1).
Proof.
  intros H4.
  destruct (createBracket_games teams H4) as (b & Hb & Hlen & Hrounds & Hgames & _).
  exists b. split; [done|]. intros r i id Hr Hat.
  apply (game_at_Some teams b r i id Hlen Hrounds) in Hat as (Hrc & Hi & ->).
  assert (Hhalf : round_size teams (r - 1) = 2 * round_size teams r).
  { rewrite (round_size_step teams (r - 1)) by lia. do 2 f_equal. lia. }
  assert (E1 : 2 ^ (r - 1) = 2 * 2 ^ (r - 1 - 1)).
  { replace (r - 1) with (r - 1 - 1 + 1) at 1 by lia.
    rewrite Z.pow_add_r by lia. lia. }
  assert (E2 : 2 ^ r = 2 * 2 ^ (r - 1)).
  { replace r with (r - 1 + 1) at 1 by lia. rewrite Z.pow_add_r by lia. lia. }
  exists (bracket_game teams r i),
         (first_id teams (r - 1) + i * 2), (first_id teams (r - 1) + (i * 2 + 1)),
         (bracket_game teams (r - 1) (i * 2)),
         (bracket_game teams (r - 1) (i * 2 + 1)).
  split_and!.
  - by apply Hgames.
  - by apply bracket_game_previous.
  - apply Hgames; lia.
  - apply Hgames; lia.
  - rewrite !bracket_game_row by lia. lia.
  - rewrite !bracket_game_row by lia. rewrite E2, E1. lia.
  - rewrite bracket_game_col. by destruct (Z.eqb_spec r 1); [lia|].
Qed.

Lemma bracket_rows_midway_witness :
  4 ≤ team_count (demo_teams 5) ∧
  ∃ b, createBracket (demo_teams 5) = Ok b ∧
       ∃ game, games b !! 7 = Some game ∧ Game.col game = 4.
Proof.
  assert (H4 : 4 ≤ team_count (demo_teams 5)) by (vm_compute; discriminate).
  split; [exact H4|].
  destruct (bracket_rows_midway (demo_teams 5) H4) as (b & Hb & Hmid).
  exists b. split; [exact Hb|].
  destruct (Hmid 3 0 7) as (game & p1 & p2 & g1 & g2 & Hgame & _ & _ & _ & _ & _ & Hcol).
  - lia.
  - vm_compute in Hb. injection Hb as <-. vm_compute. reflexivity.
  - exists game. split; [exact Hgame|exact Hcol].
Defined.

(** X9: no two games of a bracket are laid out in the same cell. *)
Theorem bracket_cells_distinct (teams : list Team.t) :
  4 ≤ team_count teams →
  ∃ b, createBracket teams = Ok b ∧
    ∀ id id' x x', games b !! id = Some x → games b !! id' = Some x' →
      Game.col x = Game.col x' → Game.row x = Game.row x' → id = id'.
Proof.
  intros H4.
  destruct (createBracket_games teams H4) as (b & Hb & _ & _ & Hgames & Hnone).
  exists b. split; [done|]. intros id id' x x' Hx Hx' Hcol Hrow.
  assert (Hid : ∀ id x, games b !! id = Some x →
            ∃ j i, 1 ≤ j ≤ round_count teams ∧ 0 ≤ i < round_size teams j ∧
                   id = first_id teams j + i ∧ x = bracket_game teams j i).
  { intros id0 x0 Hx0.
    destruct (decide (1 ≤ id0 < 2 * game_count teams)) as [Hin|Hout].
    - destruct (id_round_index teams id0 Hin) as (j & i & Hj & Hi & ->).
      exists j, i. split_and!; [lia..|].
      rewrite (Hgames j i Hj Hi) in Hx0. by injection Hx0.
    - rewrite Hnone in Hx0 by lia. done. }
  destruct (Hid id x Hx) as (j & i & Hj & Hi & -> & ->).
  destruct (Hid id' x' Hx') as (j' & i' & Hj' & Hi' & -> & ->).
  rewrite !bracket_game_col in Hcol.
  assert (j = j') as <-.
  { destruct (Z.eqb_spec j 1), (Z.eqb_spec j' 1); lia. }
  rewrite !bracket_game_row in Hrow by done.
  assert (0 < 2 ^ j) by (apply Z.pow_pos_nonneg; lia).
  f_equal. nia.
Qed.

Lemma bracket_cells_distinct_witness :
  4 ≤ team_count (demo_teams 5) ∧
  ∃ b, createBracket (demo_teams 5) = Ok b ∧
       ∀ x x', games b !! 5 = Some x → games b !! 6 = Some x' →
               Game.col x = Game.col x' → Game.row x ≠ Game.row x'.
Proof.
  assert (H4 : 4 ≤ team_count (demo_teams 5)) by (vm_compute; discriminate).
  split; [exact H4|].
  destruct (bracket_cells_distinct (demo_teams 5) H4) as (b & Hb & Hcells).
  exists b. split; [exact Hb|].
  intros x x' Hx Hx' Hcol Hrow.
  pose proof (Hcells 5 6 x x' Hx Hx' Hcol Hrow). lia.
Defined.

(** X10: the first round seats every team exactly once, next to as
    many byes as the bracket has, and the games of the later rounds are
    built without teams. *)
Theorem round1_seats_every_team (teams : list Team.t) :
  4 ≤ team_count teams →
  ∃ b, createBracket teams = Ok b ∧
    round_teams b 1 ≡ₚ teams ++ replicate (Z.to_nat (byes teams)) Team.bye ∧
    ∀ r, 2 ≤ r → round_teams b r = [].
Proof.
  intros H4.
  destruct (createBracket_games teams H4) as (b & Hb & Hlen & Hrounds & Hgames & _).
  pose proof (round_count_spec teams) as [Hrc _].
  exists b. split_and!; [done| |].
  - unfold round_teams. rewrite (Hrounds 1) by lia.
    rewrite first_id_1, round_size_1. unfold default, from_option, id.
    rewrite <- (round1_seated teams H4).
    replace (seqZ 1 (game_count teams)) with (Z.add 1 <$> seqZ 0 (game_count teams))
      by (by rewrite fmap_add_seqZ).
    rewrite bind_fmap_list.
    rewrite (bind_ext_in _ (fun p => seats teams (call_order teams p))); [done|].
    intros p Hp%elem_of_seqZ.
    rewrite <- (first_id_1 teams) at 1. rewrite Hgames; [done|lia|].
    rewrite round_size_1. lia.
  - intros r Hr. unfold round_teams.
    destruct (decide (r ≤ round_count teams)) as [Hle|Hgt].
    + rewrite (Hrounds r) by lia. unfold default at 1. unfold from_option, id.
      rewrite (bind_ext_in _ (fun _ => [])).
      { generalize (seqZ (first_id teams r) (round_size teams r)).
        intros l. by induction l. }
      intros id Hid%elem_of_seqZ.
      replace id with (first_id teams r + (id - first_id teams r)) by lia.
      rewrite Hgames by lia. cbn.
      unfold bracket_game, expected_game. by destruct (Z.eqb_spec r 1); [lia|].
    + replace (at_index (rounds b) (r - 1)) with (@None (list Z)); [done|].
      symmetry. unfold at_index. destruct (Z.ltb_spec (r - 1) 0); [done|].
      apply lookup_ge_None. lia.
Qed.

Lemma round1_seats_every_team_witness :
  4 ≤ team_count (demo_teams 5) ∧
  ∃ b, createBracket (demo_teams 5) = Ok b ∧ length (round_teams b 1) = 8%nat.
Proof.
  assert (H4 : 4 ≤ team_count (demo_teams 5)) by (vm_compute; discriminate).
  split; [exact H4|].
  destruct (round1_seats_every_team (demo_teams 5) H4) as (b & Hb & Hperm & _).
  exists b. split; [exact Hb|]. rewrite Hperm. vm_compute. reflexivity.
Defined.

(** X11: the number of rounds is the least [r] with room for the
    teams in [2 ^ r] seats: a team that has no bye plays that many games
    to win the tournament. *)
Theorem rounds_cover_teams (teams : list Team.t) :
  4 ≤ team_count teams →
  game_count teams = 2 ^ (round_count teams - 1) ∧
  team_count teams ≤ 2 ^ round_count teams ∧
  ∀ r, 0 ≤ r → team_count teams ≤ 2 ^ r → round_count teams ≤ r.
Proof.
  intros H4. destruct (round_count_spec teams) as [Hrc Hg].
  destruct (game_count_spec teams) as (k & Hk & Hgk & Hle & Hor).
  assert (Hpow : 2 ^ round_count teams = 2 * game_count teams).
  { replace (round_count teams) with (round_count teams - 1 + 1) at 1 by lia.
    rewrite Z.pow_add_r by lia. lia. }
  split_and!; [done|lia|]. intros r Hr Hfit.
  destruct (Z.le_gt_cases (round_count teams) r) as [|Hlt]; [done|]. exfalso.
  assert (2 ^ r ≤ 2 ^ (round_count teams - 1)) by (apply Z.pow_le_mono_r; lia).
  destruct Hor as [->|Hgt]; [|lia].
  rewrite Hgk in Hg. change (2 ^ 1) with 2 in *. lia.
Qed.

Lemma rounds_cover_teams_witness :
  4 ≤ team_count (demo_teams 5) ∧ round_count (demo_teams 5) ≤ 3.
Proof.
  assert (H4 : 4 ≤ team_count (demo_teams 5)) by (vm_compute; discriminate).
  split; [exact H4|].
  apply (proj2 (proj2 (rounds_cover_teams (demo_teams 5) H4))); [lia|].
  vm_compute. discriminate.
Defined.

End BracketExtras.

(** ** Further properties of [Game.start] and the [gameOver] handler *)

Section AdvanceMore.

Local Open Scope Z_scope.

Context (isBot : string → bool).

(** *** In any state *)

Lemma bye_short (x : Game.t) :
  (length (Game.teams x) < 2)%nat → Game.bye x = None.
Proof.
  unfold Game.bye. destruct (Game.teams x) as [|a [|b ts]]; cbn; [done| |lia].
  intros _. by destruct (decide (Some a = Some Team.bye)).
Qed.

(** X12: what the getter [bye] returns is a team of the game, and it
    returns one only if the game holds the bye object, which is what the
    getter [hasBye] of the earlier driver tests; on a game of two teams
    the two getters agree, and a game of fewer teams has no bye. *)
Theorem bye_getter_cases (x : Game.t) :
  (∀ a, Game.bye x = Some a → a ∈ Game.teams x ∧ V1.hasBye x = true) ∧
  (length (Game.teams x) = 2%nat →
   (is_Some (Game.bye x) ↔ V1.hasBye x = true)) ∧
  ((length (Game.teams x) < 2)%nat → Game.bye x = None).
Proof.
  split_and!.
  - intros a. unfold Game.bye, V1.hasBye. rewrite bool_decide_eq_true.
    destruct (decide (Game.teams x !! 0%nat = Some Team.bye)) as [H0|_].
    { intros H1. split; by eapply list_elem_of_lookup_2. }
    destruct (decide (Game.teams x !! 1%nat = Some Team.bye)) as [H1|_]; [|done].
    intros H0. split; by eapply list_elem_of_lookup_2.
  - intros Hlen. unfold V1.hasBye. rewrite bool_decide_eq_true. split.
    + intros [a Ha]. unfold Game.bye in Ha.
      destruct (decide (Game.teams x !! 0%nat = Some Team.bye)) as [H0|_].
      { by eapply list_elem_of_lookup_2. }
      destruct (decide (Game.teams x !! 1%nat = Some Team.bye)) as [H1|_]; [|done].
      by eapply list_elem_of_lookup_2.
    + intros Hin. destruct (Game.bye x) eqn:Hbye; [done|].
      by destruct (bye_None_inv x Hlen Hbye).
  - apply bye_short.
Qed.

(** X13: a game that has not received its two teams is not ready:
    [start] on it returns at once and leaves everything as it was. *)
Theorem start_waits_for_two_teams (fuel : nat) (id : Z) (x : Game.t) (w : World) :
  w_games w !! id = Some x → (length (Game.teams x) < 2)%nat →
  start isBot (S fuel) id w = Ok w.
Proof.
  intros Hx Hlen. cbn [start]. rewrite Hx. cbn. rewrite (bye_short x Hlen).
  by destruct (Nat.leb_spec (length (Game.teams x)) 1) as [|]; [|lia].
Qed.

Lemma close_room_lookup k w room :
  w_rooms w !! k = Some room →
  w_rooms (close_room k w) !! k
  = Some {| room_game := room_game room; room_table := room_table room;
            room_over := true |}.
Proof. intros Hroom. cbn. by rewrite list_lookup_alter_eq, Hroom. Qed.

(** *** In the states of a tournament *)

Section Shapes.

Context (teams : list Team.t).
Hypothesis enough_teams : 4 ≤ team_count teams.
Hypothesis real_teams : Team.bye ∉ teams.

Local Abbreviation g := (game_count teams).
Local Abbreviation rc := (round_count teams).
Local Abbreviation size := (round_size teams).
Local Abbreviation first := (first_id teams).
Local Abbreviation sound := (sound teams).

Lemma final_id j i :
  1 ≤ j ≤ rc → 0 ≤ i < size j → (first j + i = 2 * g - 1 ↔ j = rc).
Proof.
  intros Hj Hi. pose proof (first_id_last teams) as Hlast.
  pose proof (round_size_last teams) as Hone. split.
  - intros Heq. destruct (decide (j = rc)) as [|Hne]; [done|].
    pose proof (first_id_next teams j rc ltac:(lia)). lia.
  - intros ->. lia.
Qed.

Lemma depth_sound w : sound w → (2 ≤ depth w)%nat.
Proof.
  intros Hw. destruct (round_count_spec teams) as [Hrc _].
  unfold depth. rewrite (sound_length _ _ Hw). lia.
Qed.

(** What a step does to a sound state. *)
Lemma step_shape w w' :
  sound w → step isBot w w' →
  (∃ a next, a ∈ teams ∧ a ≠ Team.bye ∧
     w' = settle next (push_into next a (announce isBot 1 a w))) ∨
  (∃ id, w' = settle id w) ∨
  w' = w ∨
  (∃ k room winners a b next,
     w_rooms w !! k = Some room ∧ room_over room = false ∧
     room_game room ≠ 2 * g - 1 ∧ winners_of room a b = Ok winners ∧
     w' = settle next (push_into next winners (close_room k w))) ∨
  (∃ k room winners a b,
     w_rooms w !! k = Some room ∧ room_over room = false ∧
     room_game room = 2 * g - 1 ∧ winners_of room a b = Ok winners ∧
     w' = emit (tournamentOver winners k) (close_room k w)) ∨
  (∃ k, w' = close_room k w).
Proof.
  intros Hw Hstep. pose proof (depth_sound w Hw) as Hdepth.
  destruct Hstep as [id w' [x Hx] Hstart|k a b w' Hover|k a b room e Hroom Hopen Hthrow].
  - destruct (sound_lookup _ _ _ _ Hw Hx) as (j & i & ts & Hj & Hi & -> & _).
    destruct (start_sound isBot teams enough_teams real_teams (depth w) j i w
                Hw Hj Hi Hdepth) as (w'' & Hw'' & _ & Hcase).
    assert (w'' = w') as -> by congruence.
    destruct Hcase as [(-> & Hbye & a & Ha & Hareal & ->)|[_ ->]].
    + left. exists a, (first 2 + i / 2). split_and!; [|done..].
      rewrite (round_size_1 teams) in Hi.
      destruct (seats_spec teams enough_teams (call_order teams i))
        as (a' & b' & Ha' & _ & Hseats).
      { by apply call_order_range. }
      unfold bracket_game, expected_game in Ha. cbn in Ha. rewrite Hseats in Ha.
      injection Ha as <-. by eapply at_index_elem.
    + right. left. by eexists.
  - unfold gameOver in Hover.
    destruct (w_rooms w !! k) as [room|] eqn:Hroom; [|done].
    cbn [mbind result_bind or_throw] in Hover.
    destruct (room_over room) eqn:Hopen.
    { injection Hover as <-. by do 2 right; left. }
    destruct (winners_of room a b) as [winners|] eqn:Hwin; [|done].
    destruct (gameOver_sound isBot teams (depth w) k a b room winners w)
      as (j & i & Hj & Hi & Hgame & Hok & _); [done..|].
    unfold gameOver in Hok. rewrite Hroom in Hok.
    cbn [mbind result_bind or_throw] in Hok. rewrite Hopen, Hwin in Hok.
    rewrite Hok in Hover. injection Hover as <-.
    pose proof (final_id j i Hj Hi) as Hfinal.
    destruct (Z.ltb_spec j rc) as [Hlt|Hge].
    + do 3 right; left. exists k, room, winners, a, b, (first (j + 1) + i / 2).
      split_and!; [done..| |done|done]. rewrite Hgame. lia.
    + do 4 right; left. exists k, room, winners, a, b.
      split_and!; [done..| |done|done]. rewrite Hgame. apply Hfinal. lia.
  - do 5 right. by exists k.
Qed.

(** *** Events and rooms *)

Local Abbreviation events_inv := (events_inv isBot teams).

Lemma announce_emitted round a w :
  w_emitted (announce isBot round a w)
  = w_emitted w
    ++ (announceBye round <$> filter (fun u => isBot u = false) (Team.users a)).
Proof.
  unfold announce. generalize (Team.users a). intros us. revert w.
  induction us as [|u us IH]; intros w; cbn [foldl].
  - by rewrite app_nil_r.
  - rewrite filter_cons. destruct (isBot u) eqn:Hu.
    + rewrite decide_False by done. apply IH.
    + rewrite decide_True by done. rewrite IH. cbn. by rewrite <- app_assoc.
Qed.

Lemma push_into_lookup next x w id y :
  w_games w !! id = Some y →
  ∃ y', w_games (push_into next x w) !! id = Some y' ∧
        Game.round y' = Game.round y ∧
        ∀ n a, Game.teams y !! n = Some a → Game.teams y' !! n = Some a.
Proof.
  intros Hy. cbn [push_into w_games]. rewrite lookup_alter.
  destruct (decide (next = id)) as [->|_].
  - rewrite Hy. cbn. eexists. split_and!; [done..|].
    intros n a Ha. cbn. by apply lookup_app_l_Some.
  - by exists y.
Qed.

Lemma close_room_keeps k w k' room :
  w_rooms w !! k' = Some room →
  ∃ room', w_rooms (close_room k w) !! k' = Some room' ∧
           room_game room' = room_game room ∧
           room_table room' = room_table room ∧
           (room_over room = true → room_over room' = true).
Proof.
  intros Hroom. cbn [close_room w_rooms].
  destruct (decide (k = k')) as [->|Hne].
  - rewrite list_lookup_alter_eq, Hroom. cbn. by eexists.
  - rewrite list_lookup_alter_ne by done. by exists room.
Qed.

Lemma close_room_from k w room' :
  room' ∈ w_rooms (close_room k w) →
  ∃ room, room ∈ w_rooms w ∧ room_game room' = room_game room ∧
          room_table room' = room_table room.
Proof.
  intros [k' Hk']%list_elem_of_lookup. cbn [close_room w_rooms] in Hk'.
  destruct (decide (k = k')) as [->|Hne].
  - rewrite list_lookup_alter_eq in Hk'.
    destruct (w_rooms w !! k') as [room|] eqn:Hroom; [|done].
    injection Hk' as <-. exists room. split; [|done].
    by eapply list_elem_of_lookup_2.
  - rewrite list_lookup_alter_ne in Hk' by done.
    exists room'. split; [|done]. by eapply list_elem_of_lookup_2.
Qed.

Lemma events_announce a w :
  a ∈ teams → events_inv w → events_inv (announce isBot 1 a w).
Proof.
  intros Ha [Hsum Hrounds Htables Hbyes Hover].
  destruct (announce_fields isBot 1 a w) as (Hg & _ & Hr).
  pose proof (announce_emitted 1 a w) as He.
  assert (Hold : ∀ e, summoned e ≠ None ∨ is_tournamentOver e = true →
            e ∈ w_emitted (announce isBot 1 a w) → e ∈ w_emitted w).
  { intros e Hkind. rewrite He, elem_of_app.
    intros [|(u & -> & _)%list_elem_of_fmap]; [done|].
    by destruct Hkind. }
  split.
  - rewrite He, Hr, omap_app, Hsum.
    assert (omap summoned
              (announceBye 1 <$> filter (fun u => isBot u = false) (Team.users a))
            = []) as ->; [|by rewrite app_nil_r].
    generalize (filter (fun u => isBot u = false) (Team.users a)).
    intros l. by induction l.
  - intros r k Hin%Hold; [|by left]. rewrite Hg, Hr. by apply Hrounds.
  - rewrite Hg, Hr. apply Htables.
  - intros r u. rewrite He, elem_of_app.
    intros [Hin|(u' & [= -> ->] & [Hu Hin]%list_elem_of_filter)%list_elem_of_fmap].
    + by apply Hbyes.
    + split_and!; [done..|]. by exists a.
  - intros winners k Hin%Hold; [|by right]. rewrite Hr. by apply Hover.
Qed.

Lemma events_push next x w : events_inv w → events_inv (push_into next x w).
Proof.
  intros [Hsum Hrounds Htables Hbyes Hover]. split; cbn [push_into w_rooms w_emitted].
  - done.
  - intros r k (id & y & Hk & Hy & Hr)%Hrounds.
    destruct (push_into_lookup next x w id y Hy) as (y' & Hy' & Hr' & _).
    exists id, y'. split_and!; [done..|congruence].
  - intros room (y & a & b & Hy & Ha & Hb & Htab)%Htables.
    destruct (push_into_lookup next x w _ y Hy) as (y' & Hy' & _ & Hts).
    exists y', a, b. split_and!; auto.
  - done.
  - done.
Qed.

Lemma events_close k w : events_inv w → events_inv (close_room k w).
Proof.
  intros [Hsum Hrounds Htables Hbyes Hover]. split.
  - cbn [close_room w_rooms w_emitted]. by rewrite length_alter.
  - intros r k' (id & y & Hk & Hy & Hr)%Hrounds. exists id, y.
    split_and!; [|done..]. cbn [close_room w_rooms]. by rewrite close_room_games.
  - intros room' (room & Hin & Hg & Ht)%close_room_from.
    rewrite Hg, Ht. by apply Htables.
  - done.
  - intros winners k' (room & u & v & Hroom & Hfinal & Hclosed & Hw & Hu & Hv)%Hover.
    destruct (close_room_keeps k w k' room Hroom) as (room' & Hroom' & Hg & Ht & Ho).
    exists room', u, v. rewrite Hg, Ht. split_and!; auto.
Qed.

Lemma events_opened id (x : Game.t) w :
  w_games w !! id = Some x → (2 ≤ length (Game.teams x))%nat →
  events_inv w → events_inv (opened id x w).
Proof.
  intros Hx Hlen [Hsum Hrounds Htables Hbyes Hover].
  assert (He : w_emitted (opened id x w)
               = w_emitted w ++ [summonTable (Game.round x) (length (w_rooms w))]).
  { cbn. rewrite length_app. cbn. do 3 f_equal. lia. }
  assert (Hr : w_rooms (opened id x w) = w_rooms w ++ [room_for id x]) by done.
  assert (Hg : w_games (opened id x w) = w_games w) by done.
  split.
  - rewrite He, Hr, omap_app, Hsum, length_app. cbn.
    rewrite Nat.add_1_r, seq_S. done.
  - intros r k. rewrite He, Hr, Hg, elem_of_app, list_elem_of_singleton, fmap_app.
    intros [(id' & y & Hk & Hy & Hround)%Hrounds|[= -> ->]].
    + exists id', y. split_and!; [|done..]. by apply lookup_app_l_Some.
    + exists id, x. split_and!; [|done..].
      rewrite lookup_app_r by (by rewrite length_fmap).
      by rewrite length_fmap, Nat.sub_diag.
  - intros room. rewrite Hr, Hg, elem_of_app, list_elem_of_singleton.
    intros [Hin| ->]; [by apply Htables|].
    destruct (Game.teams x) as [|a [|b ts]] eqn:Hts; cbn in Hlen; [lia..|].
    exists x, a, b. split_and!; [done|by rewrite Hts..|].
    unfold room_for. by rewrite Hts.
  - intros r u. rewrite He, elem_of_app, list_elem_of_singleton.
    intros [Hin|[=]]. by apply Hbyes.
  - intros winners k. rewrite He, Hr, elem_of_app, list_elem_of_singleton.
    intros [(room & u & v & Hroom & Hrest)%Hover|[=]].
    exists room, u, v. split; [|done]. by apply lookup_app_l_Some.
Qed.

Lemma events_settle id w : events_inv w → events_inv (settle id w).
Proof.
  intros Hw. unfold settle. destruct (w_games w !! id) as [x|] eqn:Hx; [|done].
  destruct (Nat.ltb_spec (length (Game.teams x)) 2); [done|].
  by apply events_opened.
Qed.

Lemma events_over winners k room a b w :
  w_rooms w !! k = Some room → room_game room = 2 * g - 1 →
  winners_of room a b = Ok winners →
  events_inv w → events_inv (emit (tournamentOver winners k) (close_room k w)).
Proof.
  intros Hroom Hfinal Hwin Hw.
  destruct (events_close k w Hw) as [Hsum Hrounds Htables Hbyes Hover].
  split; cbn [emit w_games w_rooms w_emitted].
  - rewrite omap_app, Hsum. cbn. by rewrite app_nil_r.
  - intros r k'. rewrite elem_of_app, list_elem_of_singleton.
    intros [Hin|[=]]. by apply Hrounds.
  - done.
  - intros r u. rewrite elem_of_app, list_elem_of_singleton.
    intros [Hin|[=]]. by apply Hbyes.
  - intros winners' k'. rewrite elem_of_app, list_elem_of_singleton.
    intros [Hin|[= -> ->]]; [by apply Hover|].
    unfold winners_of in Hwin.
    destruct (at_index (room_table room) a) as [u|] eqn:Hu; [|done].
    destruct (at_index (room_table room) b) as [v|] eqn:Hv; [|done].
    cbn in Hwin. injection Hwin as <-.
    eexists _, u, v. split; [by apply close_room_lookup|].
    cbn. split_and!; [done..| |]; by eapply at_index_elem.
Qed.

(** Every step keeps what events and rooms say of each other. *)
Lemma step_events w w' :
  sound w → events_inv w → step isBot w w' → events_inv w'.
Proof.
  intros Hs Hw Hstep.
  destruct (step_shape w w' Hs Hstep)
    as [(a & next & Ha & _ & ->)|[(id & ->)|[->
        |[(k & room & winners & a & b & next & _ & _ & _ & _ & ->)
        |[(k & room & winners & a & b & Hroom & _ & Hfinal & Hwin & ->)|(k & ->)]]]]].
  - by apply events_settle, events_push, events_announce.
  - by apply events_settle.
  - done.
  - by apply events_settle, events_push, events_close.
  - by eapply events_over.
  - by apply events_close.
Qed.

Lemma steps_events w w' :
  sound w → events_inv w → rtc (step isBot) w w' → sound w' ∧ events_inv w'.
Proof.
  intros Hs Hw Hsteps. induction Hsteps as [|w w1 w' Hstep _ IH]; [done|].
  apply IH.
  - by eapply step_sound.
  - by eapply step_events.
Qed.

Lemma events_world_of b : events_inv (world_of b).
Proof.
  split; cbn; try done.
  - intros r k Hin. by apply elem_of_nil in Hin.
  - intros room Hin. by apply elem_of_nil in Hin.
  - intros r u Hin. by apply elem_of_nil in Hin.
  - intros winners k Hin. by apply elem_of_nil in Hin.
Qed.

(** *** Players *)

Local Abbreviation players_inv := (players_inv teams).

Lemma table_users w room u :
  sound w → events_inv w → players_inv w →
  room ∈ w_rooms w → u ∈ room_table room → u ∈ teams ≫= Team.users.
Proof.
  intros Hs Hev Hpl Hroom Hu.
  destruct (ev_tables _ _ _ Hev room Hroom) as (x & ta & tb & Hx & Ha & Hb & Htab).
  destruct (sound_rooms _ _ Hs room Hroom) as (x' & Hx' & Hnobye & _).
  assert (x' = x) as -> by congruence.
  assert (Hta : ta ∈ Game.teams x) by by eapply list_elem_of_lookup_2.
  assert (Htb : tb ∈ Game.teams x) by by eapply list_elem_of_lookup_2.
  assert (Hseat : u ∈ Team.users ta ∨ u ∈ Team.users tb).
  { rewrite Htab in Hu. destruct ta as [|a0 a1], tb as [|b0 b1]; cbn in Hu |- *;
      rewrite ?elem_of_cons in *; rewrite ?elem_of_nil in *; tauto. }
  destruct Hseat as [Hin|Hin].
  - apply (pl_games _ _ Hpl _ x ta u Hx Hta); [|done]. by intros ->.
  - apply (pl_games _ _ Hpl _ x tb u Hx Htb); [|done]. by intros ->.
Qed.

Lemma winners_users w k room a b winners u :
  sound w → events_inv w → players_inv w →
  w_rooms w !! k = Some room → winners_of room a b = Ok winners →
  u ∈ Team.users winners → u ∈ teams ≫= Team.users.
Proof.
  intros Hs Hev Hpl Hroom Hwin Hu. unfold winners_of in Hwin.
  destruct (at_index (room_table room) a) as [wa|] eqn:Ha; [|done].
  destruct (at_index (room_table room) b) as [wb|] eqn:Hb; [|done].
  cbn in Hwin. injection Hwin as <-. cbn in Hu.
  assert (Hroom' : room ∈ w_rooms w) by by eapply list_elem_of_lookup_2.
  apply elem_of_cons in Hu as [->|Hu].
  { eapply table_users; [done..|]. by eapply at_index_elem. }
  apply list_elem_of_singleton in Hu as ->.
  eapply table_users; [done..|]. by eapply at_index_elem.
Qed.

Lemma players_same w w' :
  w_games w' = w_games w →
  (∀ winners k, tournamentOver winners k ∈ w_emitted w' →
                tournamentOver winners k ∈ w_emitted w) →
  players_inv w → players_inv w'.
Proof.
  intros Hg He [Hgames Hwinners]. split.
  - rewrite Hg. apply Hgames.
  - intros winners k u Hin%He. by apply (Hwinners winners k).
Qed.

Lemma players_announce round a w :
  players_inv w → players_inv (announce isBot round a w).
Proof.
  apply players_same; [apply announce_fields|].
  intros winners k. rewrite announce_emitted, elem_of_app.
  by intros [|(u & [=] & _)%list_elem_of_fmap].
Qed.

Lemma players_settle id w : players_inv w → players_inv (settle id w).
Proof.
  apply players_same; [apply settle_fields|].
  intros winners k. unfold settle. destruct (w_games w !! id) as [x|]; [|done].
  destruct (length (Game.teams x) <? 2)%nat; [done|].
  cbn [opened emit add_room w_emitted]. rewrite elem_of_app, list_elem_of_singleton.
  by intros [|[=]].
Qed.

Lemma players_close k w : players_inv w → players_inv (close_room k w).
Proof. by apply players_same. Qed.

Lemma players_push next (t : Team.t) w :
  (∀ u, u ∈ Team.users t → u ∈ teams ≫= Team.users) →
  players_inv w → players_inv (push_into next t w).
Proof.
  intros Ht [Hgames Hwinners]. split; [|done].
  intros id x' t' u. cbn [push_into w_games]. rewrite lookup_alter.
  destruct (decide (next = id)) as [->|_]; [|apply Hgames].
  destruct (w_games w !! id) as [x|] eqn:Hx; [|done]. intros [= <-]. cbn.
  rewrite elem_of_app, list_elem_of_singleton. intros [Hin| ->] Hreal Hu.
  - by eapply Hgames.
  - by apply Ht.
Qed.

Lemma step_players w w' :
  sound w → events_inv w → players_inv w → step isBot w w' → players_inv w'.
Proof.
  intros Hs Hev Hpl Hstep.
  destruct (step_shape w w' Hs Hstep)
    as [(a & next & Ha & _ & ->)|[(id & ->)|[->
        |[(k & room & winners & wa & wb & next & Hroom & _ & _ & Hwin & ->)
        |[(k & room & winners & wa & wb & Hroom & _ & _ & Hwin & ->)|(k & ->)]]]]].
  - apply players_settle, players_push; [|by apply players_announce].
    intros u Hu. apply list_elem_of_bind. by exists a.
  - by apply players_settle.
  - done.
  - apply players_settle, players_push; [|by apply players_close].
    intros u. by apply (winners_users w k room wa wb winners u).
  - destruct Hpl as [Hgames Hwinners]. split; [done|].
    intros winners' k' u. cbn [emit close_room w_emitted].
    rewrite elem_of_app, list_elem_of_singleton. intros [Hin|[= -> ->]].
    + by eapply Hwinners.
    + by apply (winners_users w k room wa wb winners u).
  - by apply players_close.
Qed.

Lemma steps_players w w' :
  sound w → events_inv w → players_inv w → rtc (step isBot) w w' →
  sound w' ∧ events_inv w' ∧ players_inv w'.
Proof.
  intros Hs Hev Hpl Hsteps.
  induction Hsteps as [|w w1 w' Hstep _ IH]; [done|]. apply IH.
  - by eapply step_sound.
  - by eapply step_events.
  - by eapply step_players.
Qed.

Lemma players_world_of b : createBracket teams = Ok b → players_inv (world_of b).
Proof.
  intros Hb.
  destruct (createBracket_games teams enough_teams)
    as (b' & Hb' & _ & _ & Hgames & Hnone).
  assert (b' = b) as -> by congruence.
  split; [|intros winners k u Hin; by apply elem_of_nil in Hin].
  intros id x t u Hx Ht Hreal Hu. cbn in Hx.
  destruct (decide (1 ≤ id < 2 * g)) as [Hin|Hout];
    [|rewrite Hnone in Hx by lia; done].
  destruct (id_round_index teams id Hin) as (j & i & Hj & Hi & ->).
  rewrite (Hgames j i Hj Hi) in Hx. injection Hx as <-.
  unfold bracket_game, expected_game in Ht.
  destruct (Z.eqb_spec j 1) as [->|]; cbn in Ht; [|by apply elem_of_nil in Ht].
  rewrite (round_size_1 teams) in Hi.
  destruct (seats_spec teams enough_teams (call_order teams i))
    as (a & s & Ha & Hsecond & Hseats); [by apply call_order_range|].
  rewrite Hseats in Ht. apply list_elem_of_bind. exists t. split; [done|].
  apply elem_of_cons in Ht as [->|Ht]; [by eapply at_index_elem|].
  apply list_elem_of_singleton in Ht as ->. unfold second_seat in Hsecond.
  destruct (call_order teams i <? byes teams); [congruence|].
  by eapply at_index_elem.
Qed.

(** *** What a running tournament changes of its bracket *)

(** A game as it was built, with teams added at the end. *)
Local Abbreviation grown x0 x :=
  (with_teams (Game.teams x0) x = x0 ∧ Game.teams x0 `prefix_of` Game.teams x).

Lemma grows_push (gs : gmap Z Game.t) next (t : Team.t) w :
  (∀ id x0, gs !! id = Some x0 → ∃ x, w_games w !! id = Some x ∧ grown x0 x) →
  (∀ id x0, gs !! id = Some x0 →
     ∃ x, w_games (push_into next t w) !! id = Some x ∧ grown x0 x).
Proof.
  intros Hw id x0 Hx0. destruct (Hw id x0 Hx0) as (x & Hx & Hsame & Hpre).
  cbn [push_into w_games]. rewrite lookup_alter.
  destruct (decide (next = id)) as [->|_]; [|by exists x].
  rewrite Hx. cbn. eexists. split; [done|]. split.
  - rewrite <- Hsame at 2. by destruct x.
  - cbn. etrans; [done|]. by apply prefix_app_r.
Qed.

Lemma step_grows (gs : gmap Z Game.t) w w' :
  sound w → step isBot w w' →
  (∀ id x0, gs !! id = Some x0 → ∃ x, w_games w !! id = Some x ∧ grown x0 x) →
  (∀ id x0, gs !! id = Some x0 → ∃ x, w_games w' !! id = Some x ∧ grown x0 x).
Proof.
  intros Hs Hstep Hw.
  destruct (step_shape w w' Hs Hstep)
    as [(a & next & _ & _ & ->)|[(id & ->)|[->
        |[(k & room & winners & wa & wb & next & _ & _ & _ & _ & ->)
        |[(k & room & winners & wa & wb & _ & _ & _ & _ & ->)|(k & ->)]]]]].
  - intros id x0 Hx0. rewrite (proj1 (settle_fields _ _)).
    revert id x0 Hx0. apply grows_push. intros id x0 Hx0.
    rewrite (proj1 (announce_fields isBot 1 a w)). by apply Hw.
  - intros id' x0 Hx0. rewrite (proj1 (settle_fields _ _)). by apply Hw.
  - done.
  - intros id x0 Hx0. rewrite (proj1 (settle_fields _ _)).
    revert id x0 Hx0. by apply grows_push.
  - done.
  - done.
Qed.

Lemma steps_grows (gs : gmap Z Game.t) w w' :
  sound w → rtc (step isBot) w w' →
  (∀ id x0, gs !! id = Some x0 → ∃ x, w_games w !! id = Some x ∧ grown x0 x) →
  (∀ id x0, gs !! id = Some x0 → ∃ x, w_games w' !! id = Some x ∧ grown x0 x).
Proof.
  intros Hs Hsteps. induction Hsteps as [|w w1 w' Hstep _ IH]; [done|].
  intros Hw. apply IH; [by eapply step_sound|by eapply step_grows].
Qed.

Lemma step_rounds w w' : sound w → step isBot w w' → w_rounds w' = w_rounds w.
Proof.
  intros Hs Hstep.
  destruct (step_shape w w' Hs Hstep)
    as [(a & next & _ & _ & ->)|[(id & ->)|[->
        |[(k & room & winners & wa & wb & next & _ & _ & _ & _ & ->)
        |[(k & room & winners & wa & wb & _ & _ & _ & _ & ->)|(k & ->)]]]]].
  - rewrite (proj1 (proj2 (settle_fields _ _))). cbn [push_into w_rounds].
    apply announce_fields.
  - apply settle_fields.
  - done.
  - by rewrite (proj1 (proj2 (settle_fields _ _))).
  - done.
  - done.
Qed.

Lemma steps_rounds w w' : sound w → rtc (step isBot) w w' → w_rounds w' = w_rounds w.
Proof.
  intros Hs Hsteps. induction Hsteps as [|w w1 w' Hstep _ IH]; [done|].
  rewrite IH; [by apply step_rounds|by eapply step_sound].
Qed.

(** *** What [run] leaves behind *)





(** *** The driver's own calls *)

Local Abbreviation overs w :=
  (filter (fun e => is_tournamentOver e = true) (w_emitted w)).

Lemma driven_steps (P : World → Prop) first_round w0 pending w :
  driven_inv teams first_round w0 → P w0 →
  (∀ pending w w', driven_inv teams pending w → step isBot w w' → P w → P w') →
  driven isBot first_round w0 pending w → P w.
Proof.
  intros H0 HP Hstep Hdriven.
  induction Hdriven
    as [|id pending' w1 w' Hd IH Hstart|pending' w1 k a b w' Hd IH Hover
        |pending' w1 k a b room e Hd IH Hroom Hopen Hthrow].
  - done.
  - pose proof (driven_keeps isBot teams enough_teams real_teams _ _ _ _ H0 Hd)
      as Hinv.
    apply (Hstep _ w1 w' Hinv); [|done]. apply (step_start _ _ id); [|done].
    pose proof (di_pending _ _ _ Hinv id ltac:(left)) as Hid.
    destruct (sound_games _ _ (di_sound _ _ _ Hinv) 1 (id - 1)) as (ts & Hx & _);
      [pose proof (round_count_spec teams); lia
      |rewrite (round_size_1 teams); lia|].
    rewrite (first_id_1 teams) in Hx. replace (1 + (id - 1)) with id in Hx by lia.
    by eexists.
  - pose proof (driven_keeps isBot teams enough_teams real_teams _ _ _ _ H0 Hd)
      as Hinv.
    apply (Hstep _ w1 w' Hinv); [|done]. by eapply step_gameOver.
  - pose proof (driven_keeps isBot teams enough_teams real_teams _ _ _ _ H0 Hd)
      as Hinv.
    apply (Hstep _ w1 _ Hinv); [|done]. by eapply step_gameOver_throws.
Qed.

Lemma overs_announce round a w : overs (announce isBot round a w) = overs w.
Proof.
  rewrite announce_emitted, filter_app.
  assert (filter (fun e => is_tournamentOver e = true)
            (announceBye round <$> filter (fun u => isBot u = false) (Team.users a))
          = []) as ->; [|by rewrite app_nil_r].
  generalize (filter (fun u => isBot u = false) (Team.users a)).
  intros l. by induction l.
Qed.

Lemma overs_settle id w : overs (settle id w) = overs w.
Proof.
  unfold settle. destruct (w_games w !! id) as [x|]; [|done].
  destruct (length (Game.teams x) <? 2)%nat; [done|].
  cbn [opened emit add_room w_emitted]. rewrite filter_app. cbn.
  by rewrite app_nil_r.
Qed.

(** Along the driver's own calls the tournament is over once at
    most. *)
Lemma step_over_once pending w w' :
  driven_inv teams pending w → step isBot w w' →
  events_inv w ∧ (length (overs w) ≤ 1)%nat →
  events_inv w' ∧ (length (overs w') ≤ 1)%nat.
Proof.
  intros Hinv Hstep [Hev Hone]. pose proof (di_sound _ _ _ Hinv) as Hs.
  split; [by eapply step_events|].
  destruct (step_shape w w' Hs Hstep)
    as [(a & next & Ha & _ & ->)|[(id & ->)|[->
        |[(k & room & winners & a & b & next & _ & _ & _ & _ & ->)
        |[(k & room & winners & a & b & Hroom & Hopen & Hfinal & Hwin & ->)|(k & ->)]]]]].
  - rewrite overs_settle. cbn [push_into w_emitted]. by rewrite overs_announce.
  - by rewrite overs_settle.
  - done.
  - by rewrite overs_settle.
  - cbn [emit close_room w_emitted]. rewrite filter_app, length_app. cbn.
    destruct (overs w) as [|e es] eqn:Hovers;
      [by destruct (decide (true = true))|]. exfalso.
    assert (He : e ∈ overs w) by (rewrite Hovers; left).
    apply list_elem_of_filter in He as [Hkind He].
    destruct e as [| |winners' k']; [done..|].
    destruct (ev_over _ _ _ Hev winners' k' He)
      as (room' & _ & _ & Hroom' & Hfinal' & Hclosed & _).
    assert (k' = k) as ->.
    { apply (NoDup_lookup (room_game <$> w_rooms w) k' k (2 * g - 1)).
      - apply Hinv.
      - by rewrite list_lookup_fmap, Hroom', <- Hfinal'.
      - by rewrite list_lookup_fmap, Hroom, <- Hfinal. }
    congruence.
  - done.
Qed.

Lemma driven_rtc first_round w0 pending w :
  driven_inv teams first_round w0 → driven isBot first_round w0 pending w →
  rtc (step isBot) w0 w.
Proof.
  intros H0. apply (driven_steps (fun w => rtc (step isBot) w0 w)); [done..|].
  intros pending' w1 w2 _ Hstep Hrtc. by eapply rtc_r.
Qed.

(** A game that has not handed on its team is not resolved. *)
Lemma pending_unresolved id pending w :
  driven_inv teams (id :: pending) w → ¬ resolved (id :: pending) w id.
Proof.
  intros Hinv [(? & ? & _ & _ & Hnot)|(room & Hroom & Hg & _)].
  - apply Hnot. left.
  - apply (di_waiting _ _ _ Hinv room Hroom). rewrite Hg. left.
Qed.

Lemma open_unresolved pending w k room :
  driven_inv teams pending w →
  w_rooms w !! k = Some room → room_over room = false →
  ¬ resolved pending w (room_game room).
Proof.
  intros Hinv Hroom Hopen.
  assert (Hin : room ∈ w_rooms w) by by eapply list_elem_of_lookup_2.
  intros [(x & c & Hx & Hc & _)|(room' & Hroom' & Hg' & Hov')].
  - destruct (sound_rooms _ _ (di_sound _ _ _ Hinv) room Hin) as (y & Hy & Hreal & _).
    assert (y = x) as -> by congruence. by rewrite (bye_None x Hreal) in Hc.
  - assert (room' = room) as ->; [|congruence].
    by apply (NoDup_fmap_eq room_game (w_rooms w)); [apply Hinv|..].
Qed.

(** The game a team goes on to has one team at most before. *)
Lemma target_has_room pending w j i (x : Game.t) :
  driven_inv teams pending w →
  1 ≤ j < rc → 0 ≤ i < size j →
  ¬ resolved pending w (first j + i) →
  w_games w !! (first (j + 1) + i / 2) = Some x →
  (length (Game.teams x) ≤ 1)%nat.
Proof.
  intros Hinv Hj Hi Hnot Hx.
  destruct (Nat.le_gt_cases (length (Game.teams x)) 1) as [|Htwo]; [done|].
  exfalso. apply Hnot.
  destruct (di_two _ _ _ Hinv (j + 1) (i / 2) x) as [H1 H2];
    [lia|by apply (built_half teams j i); lia|done|lia|].
  replace (j + 1 - 1) with j in * by lia.
  destruct (Z.eqb_spec (i mod 2) 0).
  - replace (first j + i) with (first j + 2 * (i / 2)) by lia. done.
  - replace (first j + i) with (first j + (2 * (i / 2) + 1)) by lia. done.
Qed.

Lemma push_into_length next (a : Team.t) w id (x' : Game.t) (n : nat) :
  (∀ x, w_games w !! id = Some x → id ≠ next → (length (Game.teams x) ≤ n)%nat) →
  (∀ x, w_games w !! next = Some x → (S (length (Game.teams x)) ≤ n)%nat) →
  w_games (push_into next a w) !! id = Some x' →
  (length (Game.teams x') ≤ n)%nat.
Proof.
  intros Hother Hnext. cbn [push_into w_games]. rewrite lookup_alter.
  destruct (decide (next = id)) as [->|Hne].
  - destruct (w_games w !! id) as [x|] eqn:Hx; [|done].
    intros [= <-]. cbn. rewrite length_app. cbn.
    specialize (Hnext x eq_refl). lia.
  - intros Hx. apply (Hother x' Hx). done.
Qed.

(** Along the driver's own calls no game is handed a third team. *)
Lemma driven_two_teams first_round w0 pending w :
  driven_inv teams first_round w0 →
  (∀ id x, w_games w0 !! id = Some x → (length (Game.teams x) ≤ 2)%nat) →
  driven isBot first_round w0 pending w →
  ∀ id x, w_games w !! id = Some x → (length (Game.teams x) ≤ 2)%nat.
Proof.
  intros H0 Hstart Hdriven. destruct (round_count_spec teams) as [Hrc _].
  induction Hdriven
    as [|id pending' w1 w' Hd IH Hcall|pending' w1 k a b w' Hd IH Hover
        |pending' w1 k a b room e Hd IH Hroom Hopen Hthrow].
  - done.
  - pose proof (driven_keeps isBot teams enough_teams real_teams _ _ _ _ H0 Hd)
      as Hinv.
    pose proof (di_sound _ _ _ Hinv) as Hw1.
    pose proof (di_pending _ _ _ Hinv id ltac:(left)) as Hid.
    assert (id = first 1 + (id - 1)) as Heq by (rewrite (first_id_1 teams); lia).
    assert (Hi : 0 ≤ id - 1 < size 1) by (rewrite (round_size_1 teams); lia).
    destruct (start_sound isBot teams enough_teams real_teams (depth w1) 1 (id - 1) w1)
      as (w'' & Hw'' & _ & Hcase); [done|lia|done|by apply depth_sound|].
    rewrite <- Heq in Hw''. assert (w'' = w') as -> by congruence.
    destruct Hcase as [(_ & _ & a & _ & _ & ->)|[_ ->]].
    + intros id' x'. rewrite (proj1 (settle_fields _ _)).
      apply push_into_length.
      * intros x Hx _. cbn in Hx.
        rewrite (proj1 (announce_fields isBot 1 a w1)) in Hx. by eapply IH.
      * intros x Hx. rewrite (proj1 (announce_fields isBot 1 a w1)) in Hx.
        change 2 with (1 + 1) in Hx.
        pose proof (target_has_room _ w1 1 (id - 1) x Hinv ltac:(lia) Hi) as Hlen.
        rewrite <- Heq in Hlen.
        specialize (Hlen (pending_unresolved _ _ _ Hinv) Hx). lia.
    + intros id' x'. rewrite (proj1 (settle_fields _ _)). apply IH.
  - pose proof (driven_keeps isBot teams enough_teams real_teams _ _ _ _ H0 Hd)
      as Hinv.
    pose proof (di_sound _ _ _ Hinv) as Hw1.
    pose proof Hover as Hover'. unfold gameOver in Hover'.
    destruct (w_rooms w1 !! k) as [room|] eqn:Hroom; [|done].
    cbn [mbind result_bind or_throw] in Hover'.
    destruct (room_over room) eqn:Hopen; [by injection Hover' as <-|].
    destruct (winners_of room a b) as [winners|] eqn:Hwin; [|done]. clear Hover'.
    destruct (gameOver_sound isBot teams (depth w1) k a b room winners w1)
      as (j & i & Hj & Hi & Hgame & Hok & _); [done|by apply depth_sound|done..|].
    rewrite Hok in Hover. injection Hover as <-.
    destruct (Z.ltb_spec j rc) as [Hlt|Hge]; [|done].
    intros id' x'. rewrite (proj1 (settle_fields _ _)).
    apply push_into_length.
    + intros x Hx _. by eapply IH.
    + intros x Hx. cbn [close_room w_games] in Hx.
      pose proof (target_has_room _ w1 j i x Hinv ltac:(lia) Hi) as Hlen.
      rewrite <- Hgame in Hlen.
      specialize (Hlen (open_unresolved _ _ _ _ Hinv Hroom Hopen) Hx). lia.
  - done.
Qed.

(** Once a game of a later round is resolved, so are the two games
    that feed it. *)
Lemma feeders_resolved pending w j i :
  driven_inv teams pending w →
  2 ≤ j ≤ rc → 0 ≤ i < size j →
  resolved pending w (first j + i) →
  resolved pending w (first (j - 1) + 2 * i) ∧
  resolved pending w (first (j - 1) + (2 * i + 1)).
Proof.
  intros Hinv Hj Hi [(x & a & Hx & Ha & _)|(room & Hroom & Hgame & _)].
  - destruct (sound_games _ _ (di_sound _ _ _ Hinv) j i) as (ts & Hx' & _ & Hreal);
      [lia|done|].
    rewrite Hx in Hx'. injection Hx' as ->.
    rewrite bye_None in Ha; [done|]. cbn. apply Hreal. lia.
  - destruct (sound_rooms _ _ (di_sound _ _ _ Hinv) room Hroom)
      as (x & Hx & _ & Hlen & _).
    rewrite Hgame in Hx. by apply (di_two _ _ _ Hinv j i x).
Qed.

Lemma resolved_down pending w (n : nat) :
  driven_inv teams pending w →
  resolved pending w (first rc + 0) →
  ∀ j i, j = rc - Z.of_nat n → 1 ≤ j → 0 ≤ i < size j →
         resolved pending w (first j + i).
Proof.
  intros Hinv Hfinal. induction n as [|n IH]; intros j i Hn Hj Hi.
  - assert (j = rc) as -> by lia. rewrite (round_size_last teams) in Hi.
    by replace i with 0 by lia.
  - destruct (feeders_resolved pending w (j + 1) (i / 2) Hinv) as [H1 H2].
    + lia.
    + apply (built_half teams j i); [lia|done].
    + apply IH; [lia|lia|]. apply (built_half teams j i); [lia|done].
    + replace (j + 1 - 1) with j in * by lia.
      destruct (Z.eqb_spec (i mod 2) 0).
      * by replace i with (2 * (i / 2)) at 1 by lia.
      * by replace i with (2 * (i / 2) + 1) at 1 by lia.
Qed.

End Shapes.

End AdvanceMore.

Section AdvanceExtras.

Local Open Scope Z_scope.

Context (isBot : string → bool).

(** X15: in every state of a tournament, [start] on any game of the
    bracket returns: a game with a bye has a next game, and a game that
    gets a room has its two teams. *)
Theorem start_returns_in_play (teams : list Team.t) b w id :
  4 ≤ team_count teams → Team.bye ∉ teams →
  createBracket teams = Ok b →
  rtc (step isBot) (world_of b) w →
  is_Some (w_games w !! id) →
  ∃ w', start isBot (depth w) id w = Ok w'.
Proof.
  intros H4 Hreal Hb Hsteps [x Hx].
  assert (Hw : sound teams w).
  { eapply (steps_sound isBot teams H4 Hreal); [|done]. by apply sound_world_of. }
  destruct (sound_lookup _ _ _ _ Hw Hx) as (j & i & ts & Hj & Hi & -> & _).
  destruct (start_sound isBot teams H4 Hreal (depth w) j i w Hw Hj Hi)
    as (w' & Hw' & _); [by eapply depth_sound|].
  by exists w'.
Qed.

(** X16: in every state of a tournament, the handler of a room that
    has not reported yet returns when both winner indices name seats of
    the table, 0 to 3, and throws the error of [expected] otherwise. *)
Theorem gameOver_winner_indices (teams : list Team.t) b w k room wa wb :
  4 ≤ team_count teams → Team.bye ∉ teams →
  createBracket teams = Ok b →
  rtc (step isBot) (world_of b) w →
  w_rooms w !! k = Some room → room_over room = false →
  (0 ≤ wa < 4 ∧ 0 ≤ wb < 4 → ∃ w', gameOver isBot (depth w) k wa wb w = Ok w') ∧
  (¬ (0 ≤ wa < 4 ∧ 0 ≤ wb < 4) →
   gameOver isBot (depth w) k wa wb w = Throw ExpectedError).
Proof.
  intros H4 Hreal Hb Hsteps Hroom Hopen.
  assert (Hw : sound teams w).
  { eapply (steps_sound isBot teams H4 Hreal); [|done]. by apply sound_world_of. }
  destruct (sound_rooms _ _ Hw room) as (x & _ & _ & _ & Htab).
  { by eapply list_elem_of_lookup_2. }
  assert (Hseat : ∀ c, 0 ≤ c < 4 → ∃ u, at_index (room_table room) c = Some u).
  { intros c Hc. apply at_index_lt. lia. }
  assert (Hnone : ∀ c, ¬ 0 ≤ c < 4 → at_index (room_table room) c = None).
  { intros c Hc. unfold at_index. destruct (Z.ltb_spec c 0); [done|].
    apply lookup_ge_None. lia. }
  split.
  - intros [[u Hu]%Hseat [v Hv]%Hseat].
    destruct (gameOver_sound isBot teams (depth w) k wa wb room (Team.new u v) w)
      as (j & i & _ & _ & _ & Hok & _); [done|by eapply depth_sound|done..| |].
    + unfold winners_of. by rewrite Hu, Hv.
    + by eexists.
  - intros Hout. unfold gameOver. rewrite Hroom. cbn. rewrite Hopen.
    unfold winners_of.
    destruct (decide (0 ≤ wa < 4)) as [Ha|Ha%Hnone].
    + destruct (Hseat wa Ha) as [u ->]. cbn. rewrite Hnone; [done|]. lia.
    + by rewrite Ha.
Qed.


(** X18: in every state of a tournament the [summonTable] events name
    the rooms made so far, each once and in the order they were made, and
    each carries the round of the game its room belongs to. *)
Theorem summons_name_rooms (teams : list Team.t) b w :
  4 ≤ team_count teams → Team.bye ∉ teams →
  createBracket teams = Ok b →
  rtc (step isBot) (world_of b) w →
  omap summoned (w_emitted w) = seq 0 (length (w_rooms w)) ∧
  ∀ r k, summonTable r k ∈ w_emitted w →
    ∃ room x, w_rooms w !! k = Some room ∧
              w_games w !! room_game room = Some x ∧ Game.round x = r.
Proof.
  intros H4 Hreal Hb Hsteps.
  destruct (steps_events isBot teams H4 Hreal (world_of b) w) as [_ Hev];
    [by apply sound_world_of|apply events_world_of|done|].
  split; [apply Hev|].
  intros r k (id & x & Hk & Hx & Hr)%(ev_rounds _ _ _ Hev).
  rewrite list_lookup_fmap in Hk.
  destruct (w_rooms w !! k) as [room|]; [|done]. injection Hk as <-.
  by exists room, x.
Qed.

(** X19: in every state of a tournament a room seats the first two
    teams of its game crosswise, partners facing each other: the winner
    indices 0 and 2 name the first team, 1 and 3 the second. *)
Theorem tables_seat_teams_crosswise (teams : list Team.t) b w room :
  4 ≤ team_count teams → Team.bye ∉ teams →
  createBracket teams = Ok b →
  rtc (step isBot) (world_of b) w →
  room ∈ w_rooms w →
  ∃ x a0 a1 b0 b1,
    w_games w !! room_game room = Some x ∧
    Game.teams x !! 0%nat = Some (Team.new a0 a1) ∧
    Game.teams x !! 1%nat = Some (Team.new b0 b1) ∧
    room_table room = [a0; b0; a1; b1] ∧
    winners_of room 0 2 = Ok (Team.new a0 a1) ∧
    winners_of room 1 3 = Ok (Team.new b0 b1).
Proof.
  intros H4 Hreal Hb Hsteps Hroom.
  destruct (steps_events isBot teams H4 Hreal (world_of b) w) as [Hw Hev];
    [by apply sound_world_of|apply events_world_of|done|].
  destruct (ev_tables _ _ _ Hev room Hroom) as (x & ta & tb & Hx & Ha & Hb' & Htab).
  destruct (sound_rooms _ _ Hw room Hroom) as (x' & Hx' & Hnobye & _).
  assert (x' = x) as -> by congruence.
  destruct ta as [|a0 a1].
  { destruct Hnobye. by eapply list_elem_of_lookup_2. }
  destruct tb as [|b0 b1].
  { destruct Hnobye. by eapply list_elem_of_lookup_2. }
  exists x, a0, a1, b0, b1. split_and!; [done..| |].
  - unfold winners_of. by rewrite Htab.
  - unfold winners_of. by rewrite Htab.
Qed.

(** X20: in every state of a tournament an [announceBye] event is of
    the first round and tells a user, not a bot, of one of the teams. *)
Theorem byes_announced_to_users (teams : list Team.t) b w r u :
  4 ≤ team_count teams → Team.bye ∉ teams →
  createBracket teams = Ok b →
  rtc (step isBot) (world_of b) w →
  announceBye r u ∈ w_emitted w →
  r = 1 ∧ isBot u = false ∧ ∃ a, a ∈ teams ∧ u ∈ Team.users a.
Proof.
  intros H4 Hreal Hb Hsteps Hin.
  destruct (steps_events isBot teams H4 Hreal (world_of b) w) as [_ Hev];
    [by apply sound_world_of|apply events_world_of|done|].
  by apply (ev_byes _ _ _ Hev).
Qed.

(** X21: along the calls the driver makes itself, [tournamentOver] is
    emitted once at most, by a room of the final whose handler is gone,
    with two users of its table for winners. *)
Theorem tournament_over_once (teams : list Team.t) b pending w :
  4 ≤ team_count teams → Team.bye ∉ teams →
  createBracket teams = Ok b →
  driven isBot (seqZ 1 (game_count teams)) (world_of b) pending w →
  (length (filter (fun e => is_tournamentOver e = true) (w_emitted w)) ≤ 1)%nat ∧
  ∀ winners k, tournamentOver winners k ∈ w_emitted w →
    ∃ room u v, w_rooms w !! k = Some room ∧
                room_game room = 2 * game_count teams - 1 ∧
                room_over room = true ∧
                winners = Team.new u v ∧
                u ∈ room_table room ∧ v ∈ room_table room.
Proof.
  intros H4 Hreal Hb Hdriven.
  assert (Hgoal : events_inv isBot teams w ∧
            (length (filter (fun e => is_tournamentOver e = true)
                       (w_emitted w)) ≤ 1)%nat).
  { apply (driven_steps isBot teams H4 Hreal
             (fun w => events_inv isBot teams w ∧
                (length (filter (fun e => is_tournamentOver e = true)
                           (w_emitted w)) ≤ 1)%nat)
             (seqZ 1 (game_count teams)) (world_of b) pending w).
    - by apply init_inv.
    - split; [apply events_world_of|]. cbn. lia.
    - intros pending' w1 w2. by apply step_over_once.
    - done. }
  destruct Hgoal as [Hev Hone]. split; [done|]. apply Hev.
Qed.

(** X22: along the calls the driver makes itself no game ever holds
    more than two teams, and a game that has a room holds exactly two. *)
Theorem games_hold_two_teams (teams : list Team.t) b pending w :
  4 ≤ team_count teams → Team.bye ∉ teams →
  createBracket teams = Ok b →
  driven isBot (seqZ 1 (game_count teams)) (world_of b) pending w →
  (∀ id x, w_games w !! id = Some x → (length (Game.teams x) ≤ 2)%nat) ∧
  (∀ room, room ∈ w_rooms w →
     ∃ x, w_games w !! room_game room = Some x ∧ length (Game.teams x) = 2%nat).
Proof.
  intros H4 Hreal Hb Hdriven.
  pose proof (init_inv teams H4 b Hb) as H0.
  assert (Htwo : ∀ id x, w_games w !! id = Some x → (length (Game.teams x) ≤ 2)%nat).
  { apply (driven_two_teams isBot teams H4 Hreal (seqZ 1 (game_count teams))
             (world_of b) pending w H0); [|done].
    intros id x Hx.
    destruct (sound_lookup _ _ _ _ (di_sound _ _ _ H0) Hx)
      as (j & i & ts & Hj & Hi & -> & -> & H1 & _).
    cbn [with_teams Game.teams].
    destruct (createBracket_games teams H4) as (b' & Hb' & _ & _ & Hgames & _).
    assert (b' = b) as -> by congruence.
    cbn in Hx. rewrite (Hgames j i Hj Hi) in Hx. injection Hx as Hx.
    apply (f_equal Game.teams) in Hx. cbn in Hx. rewrite <- Hx.
    unfold bracket_game, expected_game. destruct (Z.eqb_spec j 1) as [->|]; cbn.
    - rewrite (round_size_1 teams) in Hi.
      destruct (seats_spec teams H4 (call_order teams i)) as (? & ? & _ & _ & ->);
        [by apply call_order_range|]. done.
    - lia. }
  split; [done|]. intros room Hroom.
  pose proof (driven_keeps isBot teams H4 Hreal _ _ _ _ H0 Hdriven) as Hinv.
  destruct (sound_rooms _ _ (di_sound _ _ _ Hinv) room Hroom) as (x & Hx & _ & Hlen & _).
  exists x. split; [done|]. specialize (Htwo _ _ Hx). lia.
Qed.

(** X23: in every state of a tournament the users of the teams the
    games hold, the users seated at the tables of the rooms, and the
    winners a [tournamentOver] event names are users of the teams the
    bracket was built of. *)
Theorem players_stay_players (teams : list Team.t) b w :
  4 ≤ team_count teams → Team.bye ∉ teams →
  createBracket teams = Ok b →
  rtc (step isBot) (world_of b) w →
  (∀ id x t u, w_games w !! id = Some x → t ∈ Game.teams x → t ≠ Team.bye →
               u ∈ Team.users t → u ∈ teams ≫= Team.users) ∧
  (∀ room u, room ∈ w_rooms w → u ∈ room_table room → u ∈ teams ≫= Team.users) ∧
  (∀ winners k u, tournamentOver winners k ∈ w_emitted w →
                  u ∈ Team.users winners → u ∈ teams ≫= Team.users).
Proof.
  intros H4 Hreal Hb Hsteps.
  destruct (steps_players isBot teams H4 Hreal (world_of b) w) as (Hs & Hev & Hpl);
    [by apply sound_world_of|apply events_world_of|by apply players_world_of|done|].
  split_and!.
  - apply Hpl.
  - intros room u. by apply (table_users isBot teams w room u).
  - apply Hpl.
Qed.


(** X29: a running tournament changes nothing of its bracket but the
    teams of the games, and those only by adding at the end: in every
    state the rounds are as built, no game has been added, and every
    game is as built but for teams pushed after the ones it was built
    with. *)
Theorem running_only_appends_teams (teams : list Team.t) b w :
  4 ≤ team_count teams → Team.bye ∉ teams →
  createBracket teams = Ok b →
  rtc (step isBot) (world_of b) w →
  w_rounds w = rounds b ∧
  (∀ id, games b !! id = None → w_games w !! id = None) ∧
  ∀ id x0, games b !! id = Some x0 →
    ∃ x, w_games w !! id = Some x ∧
         with_teams (Game.teams x0) x = x0 ∧
         Game.teams x0 `prefix_of` Game.teams x.
Proof.
  intros H4 Hreal Hb Hsteps.
  pose proof (sound_world_of teams H4 b Hb) as Hs0.
  pose proof (steps_sound isBot teams H4 Hreal _ _ Hs0 Hsteps) as Hs.
  split_and!.
  - by apply (steps_rounds isBot teams H4 Hreal (world_of b) w).
  - intros id Hnone.
    destruct (w_games w !! id) as [x|] eqn:Hx; [|done].
    destruct (sound_lookup _ _ _ _ Hs Hx) as (j & i & ts & Hj & Hi & -> & _).
    destruct (sound_games _ _ Hs0 j i Hj Hi) as (ts0 & Hx0 & _).
    cbn in Hx0. congruence.
  - apply (steps_grows isBot teams H4 Hreal (games b) (world_of b) w Hs0 Hsteps).
    intros id x0 Hx0. exists x0. split_and!; [done|by destruct x0|done].
Qed.

(** X30: [start] and the handler of [gameOver] never write the flags
    [started] and [finished]: in every state of a tournament the two are
    equal and set exactly on the games that hold a bye, so a game that
    has a room, playing or played, has neither. *)
Theorem flags_only_mark_byes (teams : list Team.t) b w id x :
  4 ≤ team_count teams → Team.bye ∉ teams →
  createBracket teams = Ok b →
  rtc (step isBot) (world_of b) w →
  w_games w !! id = Some x →
  Game.finished x = Game.started x ∧
  (Game.started x = true ↔ is_Some (Game.bye x)) ∧
  (∀ room, room ∈ w_rooms w → room_game room = id → Game.started x = false).
Proof.
  intros H4 Hreal Hb Hsteps Hx.
  pose proof (steps_sound isBot teams H4 Hreal _ _
                (sound_world_of teams H4 b Hb) Hsteps) as Hs.
  assert (Hflags : Game.finished x = Game.started x ∧
                   (Game.started x = true ↔ is_Some (Game.bye x))).
  { destruct (sound_lookup _ _ _ _ Hs Hx) as (j & i & ts & Hj & Hi & _ & -> & H1 & H2).
    destruct (decide (j = 1)) as [->|Hj1].
    - rewrite (H1 eq_refl), with_teams_id. rewrite (round_size_1 teams) in Hi.
      rewrite (round1_bye teams H4 Hreal i Hi).
      destruct (round1_teams teams H4 Hreal i Hi) as (a & s & -> & _).
      unfold bracket_game, expected_game. cbn.
      destruct (call_order teams i <? byes teams); split; [done| |done|].
      + split; [by eexists|done].
      + split; [done|]. by intros [? [=]].
    - rewrite bye_None by (cbn; apply H2; lia). cbn.
      unfold bracket_game, expected_game. destruct (Z.eqb_spec j 1); [lia|]. cbn.
      split; [done|]. split; [done|]. by intros [? [=]]. }
  destruct Hflags as [Heq Hiff]. split_and!; [done..|].
  intros room Hroom Hgame.
  destruct (sound_rooms _ _ Hs room Hroom) as (y & Hy & Hnobye & _).
  rewrite Hgame, Hx in Hy. injection Hy as <-.
  destruct (Game.started x) eqn:Hst; [|done].
  destruct (proj1 Hiff eq_refl) as [a Ha]. by rewrite (bye_None _ Hnobye) in Ha.
Qed.


(** X26: along the calls the driver makes itself, a game has a room
    only when the games that feed it are resolved, each by a bye or by the
    report of its room. *)
Theorem rooms_wait_for_feeders (teams : list Team.t) b pending w room :
  4 ≤ team_count teams → Team.bye ∉ teams →
  createBracket teams = Ok b →
  driven isBot (seqZ 1 (game_count teams)) (world_of b) pending w →
  room ∈ w_rooms w →
  ∃ x, w_games w !! room_game room = Some x ∧
       ∀ p, p ∈ Game.previous_games x → resolved pending w p.
Proof.
  intros H4 Hreal Hb Hdriven Hroom.
  pose proof (driven_keeps isBot teams H4 Hreal _ _ _ _ (init_inv teams H4 b Hb) Hdriven)
    as Hinv.
  destruct (sound_rooms _ _ (di_sound _ _ _ Hinv) room Hroom)
    as (x & Hx & _ & Hlen & _).
  exists x. split; [done|].
  destruct (sound_lookup _ _ _ _ (di_sound _ _ _ Hinv) Hx)
    as (j & i & ts & Hj & Hi & Hid & -> & _).
  cbn [with_teams Game.previous_games Game.teams] in *.
  destruct (decide (j = 1)) as [->|Hj1].
  - intros p Hp. by apply elem_of_nil in Hp.
  - rewrite bracket_game_previous by lia.
    destruct (di_two _ _ _ Hinv j i _ ltac:(lia) Hi ltac:(by rewrite <- Hid) Hlen)
      as [H1 H2].
    intros p [->|[->|Hp%elem_of_nil]%elem_of_cons]%elem_of_cons; [| |done].
    + by replace (i * 2) with (2 * i) by lia.
    + by replace (i * 2 + 1) with (2 * i + 1) by lia.
Qed.

(** X27: along the calls the driver makes itself, once
    [tournamentOver] has been emitted every game of the bracket is
    resolved, by a bye or by the report of its room. *)
Theorem over_means_all_resolved (teams : list Team.t) b pending w winners k id :
  4 ≤ team_count teams → Team.bye ∉ teams →
  createBracket teams = Ok b →
  driven isBot (seqZ 1 (game_count teams)) (world_of b) pending w →
  tournamentOver winners k ∈ w_emitted w →
  is_Some (w_games w !! id) → resolved pending w id.
Proof.
  intros H4 Hreal Hb Hdriven Hover [x Hx].
  pose proof (init_inv teams H4 b Hb) as H0.
  pose proof (driven_keeps isBot teams H4 Hreal _ _ _ _ H0 Hdriven) as Hinv.
  assert (Hev : events_inv isBot teams w).
  { apply (driven_steps isBot teams H4 Hreal (events_inv isBot teams)
             (seqZ 1 (game_count teams)) (world_of b) pending w);
      [done|apply events_world_of| |done].
    intros pending' w1 w2 Hinv1 Hstep Hev1.
    by eapply step_events; [| |apply (di_sound _ _ _ Hinv1)|..]. }
  destruct (ev_over _ _ _ Hev winners k Hover)
    as (room & _ & _ & Hroom & Hfinal & Hclosed & _).
  destruct (sound_lookup _ _ _ _ (di_sound _ _ _ Hinv) Hx)
    as (j & i & ts & Hj & Hi & -> & _).
  apply (resolved_down teams pending w
           (Z.to_nat (round_count teams - j)) Hinv); [|lia|lia|done].
  right. exists room. split_and!; [by eapply list_elem_of_lookup_2| |done].
  pose proof (first_id_last teams). pose proof (round_size_last teams). lia.
Qed.

End AdvanceExtras.

(** *** Examples *)

Lemma demo4_enough : (4 ≤ team_count (demo_teams 4))%Z.
Proof. vm_compute. discriminate. Qed.

Lemma demo4_real : Team.bye ∉ demo_teams 4.
Proof. apply (bool_decide_unpack _). vm_compute. exact I. Qed.

Lemma foldl_Throw {A} (f : result World → A → result World) e (l : list A) :
  (∀ x, f (Throw e) x = Throw e) → foldl f (Throw e) l = Throw e.
Proof. intros Hf. induction l as [|x l IH]; [done|]. cbn. by rewrite Hf. Qed.

(** A tournament played is a sequence of the driver's own calls. *)
Lemma played_driven (teams : list Team.t) events w :
  (4 ≤ team_count teams)%Z → Team.bye ∉ teams →
  played teams events = Ok w →
  ∃ b, createBracket teams = Ok b ∧
       driven no_bots (seqZ 1 (game_count teams)) (world_of b) [] w.
Proof.
  intros H4 Hreal. unfold played.
  destruct (createBracket teams) as [b|] eqn:Hb; [|done]. cbn [mbind result_bind].
  destruct (run_driven no_bots teams H4 Hreal b Hb) as (w0 & -> & Hd0).
  cbn [mbind result_bind]. intros Hfold. exists b. split; [done|].
  revert w0 Hd0 Hfold. induction events as [|[[k wa] wb] events IH]; intros w0 Hd0.
  - cbn. by intros [= <-].
  - cbn [foldl mbind result_bind].
    destruct (gameOver no_bots (depth w0) k wa wb w0) as [w1|e] eqn:Hover.
    + apply IH. by eapply driven_gameOver.
    + rewrite foldl_Throw; [done|]. by intros [[??]?].
Qed.

Lemma played_reached (teams : list Team.t) events w :
  (4 ≤ team_count teams)%Z → Team.bye ∉ teams →
  played teams events = Ok w →
  ∃ b, createBracket teams = Ok b ∧ rtc (step no_bots) (world_of b) w.
Proof.
  intros H4 Hreal (b & Hb & Hd)%played_driven; [|done..].
  exists b. split; [done|].
  eapply (driven_rtc no_bots teams H4 Hreal); [|done]. by apply init_inv.
Qed.

Lemma start_waits_for_two_teams_witness :
  start no_bots 1 1 (lone_game (Game.new 1 1)) = Ok (lone_game (Game.new 1 1)).
Proof.
  apply (start_waits_for_two_teams no_bots 0 1 (Game.new 1 1)).
  - vm_compute. reflexivity.
  - cbn. lia.
Defined.

Lemma start_returns_in_play_witness :
  ∃ w, played (demo_teams 5) [] = Ok w ∧
       ∃ w', start no_bots (depth w) 5 w = Ok w'.
Proof.
  destruct (played (demo_teams 5) []) as [w|] eqn:Hw; [|by vm_compute in Hw].
  exists w. split; [done|].
  destruct (played_reached (demo_teams 5) [] w demo_teams_enough demo_teams_real Hw)
    as (b & Hb & Hsteps).
  apply (start_returns_in_play no_bots (demo_teams 5) b w 5
           demo_teams_enough demo_teams_real Hb Hsteps).
  vm_compute in Hw. injection Hw as <-. eexists. vm_compute. reflexivity.
Defined.

Lemma gameOver_winner_indices_witness :
  ∃ w, played (demo_teams 4) [] = Ok w ∧
       gameOver no_bots (depth w) 0 0 7 w = Throw ExpectedError.
Proof.
  destruct (played (demo_teams 4) []) as [w|] eqn:Hw; [|by vm_compute in Hw].
  exists w. split; [done|].
  destruct (played_reached (demo_teams 4) [] w demo4_enough demo4_real Hw)
    as (b & Hb & Hsteps).
  destruct (w_rooms w !! 0%nat) as [room|] eqn:Hroom.
  - refine (proj2 (gameOver_winner_indices no_bots (demo_teams 4) b w 0 room 0 7
                     demo4_enough demo4_real Hb Hsteps Hroom _) _).
    + vm_compute in Hw. injection Hw as <-.
      vm_compute in Hroom. injection Hroom as <-. reflexivity.
    + lia.
  - exfalso. vm_compute in Hw. injection Hw as <-. by vm_compute in Hroom.
Defined.


Lemma summons_name_rooms_witness :
  ∃ w, played (demo_teams 5) [(1%nat, 0%Z, 2%Z)] = Ok w ∧
       omap summoned (w_emitted w) = seq 0 (length (w_rooms w)).
Proof.
  destruct (played (demo_teams 5) [(1%nat, 0%Z, 2%Z)]) as [w|] eqn:Hw;
    [|by vm_compute in Hw].
  exists w. split; [done|].
  destruct (played_reached (demo_teams 5) _ w demo_teams_enough demo_teams_real Hw)
    as (b & Hb & Hsteps).
  apply (summons_name_rooms no_bots (demo_teams 5) b w
           demo_teams_enough demo_teams_real Hb Hsteps).
Defined.

Lemma tables_seat_teams_crosswise_witness :
  ∃ w room, played (demo_teams 4) [] = Ok w ∧ w_rooms w !! 0%nat = Some room ∧
            ∃ a0 a1, winners_of room 0 2 = Ok (Team.new a0 a1).
Proof.
  destruct (played (demo_teams 4) []) as [w|] eqn:Hw; [|by vm_compute in Hw].
  destruct (played_reached (demo_teams 4) [] w demo4_enough demo4_real Hw)
    as (b & Hb & Hsteps).
  destruct (w_rooms w !! 0%nat) as [room|] eqn:Hroom.
  - exists w, room. split_and!; [done..|].
    destruct (tables_seat_teams_crosswise no_bots (demo_teams 4) b w room
                demo4_enough demo4_real Hb Hsteps)
      as (x & a0 & a1 & b0 & b1 & _ & _ & _ & _ & Hwin & _).
    + by eapply list_elem_of_lookup_2.
    + by exists a0, a1.
  - exfalso. vm_compute in Hw. injection Hw as <-. by vm_compute in Hroom.
Defined.

Lemma byes_announced_to_users_witness :
  ∃ w, played (demo_teams 5) [] = Ok w ∧
       ∃ a, a ∈ demo_teams 5 ∧ "A" ∈ Team.users a.
Proof.
  destruct (played (demo_teams 5) []) as [w|] eqn:Hw; [|by vm_compute in Hw].
  exists w. split; [done|].
  destruct (played_reached (demo_teams 5) [] w demo_teams_enough demo_teams_real Hw)
    as (b & Hb & Hsteps).
  apply (byes_announced_to_users no_bots (demo_teams 5) b w 1 "A"
           demo_teams_enough demo_teams_real Hb Hsteps).
  vm_compute in Hw. injection Hw as <-.
  apply list_elem_of_lookup. exists 0. vm_compute. reflexivity.
Defined.

Lemma tournament_over_once_witness :
  ∃ w, played (demo_teams 4) [(0%nat, 0%Z, 2%Z); (1%nat, 1%Z, 3%Z); (2%nat, 0%Z, 2%Z)]
       = Ok w ∧
       length (filter (fun e => is_tournamentOver e = true) (w_emitted w)) ≤ 1.
Proof.
  destruct (played (demo_teams 4) _) as [w|] eqn:Hw; [|by vm_compute in Hw].
  exists w. split; [done|].
  destruct (played_driven (demo_teams 4) _ w demo4_enough demo4_real Hw)
    as (b & Hb & Hd).
  apply (tournament_over_once no_bots (demo_teams 4) b [] w
           demo4_enough demo4_real Hb Hd).
Defined.

Lemma games_hold_two_teams_witness :
  ∃ w, played (demo_teams 4) [(0%nat, 0%Z, 2%Z); (1%nat, 1%Z, 3%Z)] = Ok w ∧
       ∀ id x, w_games w !! id = Some x → length (Game.teams x) ≤ 2.
Proof.
  destruct (played (demo_teams 4) _) as [w|] eqn:Hw; [|by vm_compute in Hw].
  exists w. split; [done|].
  destruct (played_driven (demo_teams 4) _ w demo4_enough demo4_real Hw)
    as (b & Hb & Hd).
  apply (games_hold_two_teams no_bots (demo_teams 4) b [] w
           demo4_enough demo4_real Hb Hd).
Defined.


Lemma rooms_wait_for_feeders_witness :
  ∃ w room, played (demo_teams 4) [(0%nat, 0%Z, 2%Z); (1%nat, 1%Z, 3%Z)] = Ok w ∧
            w_rooms w !! 2%nat = Some room ∧
            ∃ x, w_games w !! room_game room = Some x ∧
                 ∀ p, p ∈ Game.previous_games x → resolved [] w p.
Proof.
  destruct (played (demo_teams 4) _) as [w|] eqn:Hw; [|by vm_compute in Hw].
  destruct (played_driven (demo_teams 4) _ w demo4_enough demo4_real Hw)
    as (b & Hb & Hd).
  destruct (w_rooms w !! 2%nat) as [room|] eqn:Hroom.
  - exists w, room. split_and!; [done..|].
    apply (rooms_wait_for_feeders no_bots (demo_teams 4) b [] w room
             demo4_enough demo4_real Hb Hd).
    by eapply list_elem_of_lookup_2.
  - exfalso. vm_compute in Hw. injection Hw as <-. by vm_compute in Hroom.
Defined.

Lemma over_means_all_resolved_witness :
  ∃ w, played (demo_teams 4) [(0%nat, 0%Z, 2%Z); (1%nat, 1%Z, 3%Z); (2%nat, 0%Z, 2%Z)]
       = Ok w ∧ resolved [] w 1.
Proof.
  destruct (played (demo_teams 4) _) as [w|] eqn:Hw; [|by vm_compute in Hw].
  exists w. split; [done|].
  destruct (played_driven (demo_teams 4) _ w demo4_enough demo4_real Hw)
    as (b & Hb & Hd).
  apply (over_means_all_resolved no_bots (demo_teams 4) b [] w (Team.new "A" "B") 2 1
           demo4_enough demo4_real Hb Hd).
  - vm_compute in Hw. injection Hw as <-.
    apply list_elem_of_lookup. exists 3. vm_compute. reflexivity.
  - vm_compute in Hw. injection Hw as <-. eexists. vm_compute. reflexivity.
Defined.

Lemma players_stay_players_witness :
  ∃ w, played (demo_teams 4) [(0%nat, 0%Z, 2%Z); (1%nat, 1%Z, 3%Z); (2%nat, 0%Z, 2%Z)]
       = Ok w ∧
       ∀ winners k u, tournamentOver winners k ∈ w_emitted w →
                      u ∈ Team.users winners → u ∈ demo_teams 4 ≫= Team.users.
Proof.
  destruct (played (demo_teams 4) _) as [w|] eqn:Hw; [|by vm_compute in Hw].
  exists w. split; [done|].
  destruct (played_reached (demo_teams 4) _ w demo4_enough demo4_real Hw)
    as (b & Hb & Hsteps).
  apply (players_stay_players no_bots (demo_teams 4) b w
           demo4_enough demo4_real Hb Hsteps).
Defined.


Lemma running_only_appends_teams_witness :
  ∃ b w, createBracket (demo_teams 4) = Ok b ∧
         played (demo_teams 4) [(0%nat, 0%Z, 2%Z)] = Ok w ∧
         w_rounds w = rounds b.
Proof.
  destruct (played (demo_teams 4) _) as [w|] eqn:Hw; [|by vm_compute in Hw].
  destruct (played_reached (demo_teams 4) _ w demo4_enough demo4_real Hw)
    as (b & Hb & Hsteps).
  exists b, w. split_and!; [done..|].
  apply (running_only_appends_teams no_bots (demo_teams 4) b w
           demo4_enough demo4_real Hb Hsteps).
Defined.

Lemma flags_only_mark_byes_witness :
  ∃ w x, played (demo_teams 5) [(1%nat, 0%Z, 2%Z)] = Ok w ∧
         w_games w !! 3%Z = Some x ∧ Game.finished x = Game.started x.
Proof.
  destruct (played (demo_teams 5) _) as [w|] eqn:Hw; [|by vm_compute in Hw].
  destruct (played_reached (demo_teams 5) _ w demo_teams_enough demo_teams_real Hw)
    as (b & Hb & Hsteps).
  destruct (w_games w !! 3%Z) as [x|] eqn:Hx.
  - exists w, x. split_and!; [done..|].
    apply (flags_only_mark_byes no_bots (demo_teams 5) b w 3 x
             demo_teams_enough demo_teams_real Hb Hsteps Hx).
  - exfalso. vm_compute in Hw. injection Hw as <-. by vm_compute in Hx.
Defined.

(** ** Properties of [Scheduler.register] *)

Section Registration.

Import Scheduler.

Lemma check_others_Ok id user (l : list (Z * Tourney)) r :
  foldl (check_other id user) r l = Ok tt →
  r = Ok tt ∧
  ∀ key other, (key, other) ∈ l → key ≠ id →
    signup_opened other = true → started other = false → finished other = false →
    signups_has other user = false.
Proof.
  revert r. induction l as [|[key other] l IH]; intros r; cbn [foldl].
  - intros ->. split; [done|]. intros key other Hin. by apply elem_of_nil in Hin.
  - intros [Hr Hl]%IH. unfold check_other in Hr. destruct r as [[]|]; [|done].
    split; [done|]. cbn in Hr. intros key' other' Hin Hne Ho Hs Hf.
    apply elem_of_cons in Hin as [[= -> ->]|Hin]; [|by eapply Hl].
    destruct (Z.eqb_spec key id); [done|].
    rewrite Ho, Hs, Hf in Hr. cbn in Hr. by destruct (signups_has other user).
Qed.

(** X28: when [register] returns, the user has a non-empty identifier
    and did not name themselves as partner; the tournament is known, its
    signup is open, and the user is invited if it is by invitation; the
    user is signed up in no other tournament whose signup has opened and
    which has neither started nor finished; and what is written, unless
    the row was there already, is one row, whose partner is null or a
    non-empty identifier other than the user's, with one [registered]
    event. *)
Theorem register_writes_sound_row tourneys existing id user partner written effects :
  register tourneys existing id user partner = Ok (written, effects) →
  user ≠ "" ∧ default "" partner ≠ user ∧
  (∃ t, tourneys !! id = Some t ∧
        signup_opened t = true ∧ signup_closed t = false ∧
        (invitation t = true → invitees_include t user = true)) ∧
  (∀ key other, tourneys !! key = Some other → key ≠ id →
     signup_opened other = true → started other = false → finished other = false →
     signups_has other user = false) ∧
  written = negb existing ∧
  ∃ row, row ≠ Some "" ∧ row ≠ Some user ∧
         (row = None ↔ default "" partner = "") ∧
         effects = if existing then []
                   else [insert_signup id user row;
                         registered id user (default "" partner)].
Proof.
  unfold register. set (p := default "" partner).
  destruct (truthy user) eqn:Huser; [|done]. cbn.
  destruct (tourneys !! id) as [t|] eqn:Ht; [|done]. cbn.
  destruct (signup_opened t) eqn:Hopen; [|done].
  destruct (signup_closed t) eqn:Hclosed; [done|]. cbn.
  destruct (String.eqb_spec user p) as [|Hself]; [done|]. cbn.
  destruct (invitation t && negb (invitees_include t user)) eqn:Hinv; [done|]. cbn.
  destruct (foldl _ _ _) as [[]|] eqn:Hothers; [|done]. cbn.
  apply check_others_Ok in Hothers as [_ Hothers].
  intros Hret. apply truthy_spec in Huser.
  assert (Hrow : or_null p ≠ Some "" ∧ or_null p ≠ Some user ∧
                 (or_null p = None ↔ p = "")).
  { unfold or_null. destruct (truthy p) eqn:Hp.
    - apply truthy_spec in Hp. split_and!; [congruence|congruence|done].
    - split_and!; [done..|]. split; [|done]. intros _.
      destruct (decide (p = "")) as [|Hne%truthy_spec]; [done|congruence]. }
  destruct Hrow as (Hrow1 & Hrow2 & Hrow3).
  split_and!; [done|done| | | |].
  - exists t. split_and!; [done..|]. intros Hi. rewrite Hi in Hinv. cbn in Hinv.
    by destruct (invitees_include t user).
  - intros key other Hkey. apply Hothers. by apply elem_of_map_to_list.
  - by destruct existing; injection Hret as <- <-.
  - exists (or_null p). split_and!; [done..|].
    by destruct existing; injection Hret as <- <-.
Qed.

Lemma register_writes_sound_row_witness :
  ∃ row, row ≠ Some "" ∧ row ≠ Some "ann" ∧
         [insert_signup 7 "ann" (Some "bob"); registered 7 "ann" "bob"]
         = [insert_signup 7 "ann" row; registered 7 "ann" "bob"].
Proof.
  destruct (register_writes_sound_row {[7%Z := open_tourney]} false 7 "ann" (Some "bob")
              true [insert_signup 7 "ann" (Some "bob"); registered 7 "ann" "bob"])
    as (_ & _ & _ & _ & _ & row & H1 & H2 & _ & H4).
  - vm_compute. reflexivity.
  - exists row. split_and!; [exact H1|exact H2|exact H4].
Defined.

End Registration.
